(** * response-rewriter: a shallow embedding of [main.ts]

    The development follows the layout of the source file:
    - [Utf8]       : [getUtf8SequenceInfo], [isValidUtf8Sequence],
                     [codePointFromUtf8];
    - [Regex]      : the normalised global [RegExp] and [String.prototype.replace];
    - [TextStream] : the text transform stream ([transform] and [flush]);
    - [JsonStream] : [createJsonTransformStream] and its escape state machine;
    - [Deep]       : [unwrapProxy] and [deepReplace] over a store of objects;
    - [Multipart]  : the multipart branch of [replaceInResponse].

    Conventions.  A byte and a code point are integers ([Z]); the source's
    bit operations are [Z.land], [Z.lor] and [Z.shiftl] (all operands stay far
    below 2^31, so JavaScript's 32-bit wrap-around never triggers).  A
    JavaScript string is the list of its elements ([list Z]). *)

From Stdlib Require Import ZArith Lia List Bool String Ascii.
From stdpp Require Import gmap list.
Import ListNotations.
Open Scope Z_scope.
Close Scope string_scope.

Abbreviation jsstring := (list Z).

(** [str "abc"] is the JavaScript string with the same (ASCII) characters. *)
Fixpoint str (s : String.string) : jsstring :=
  match s with
  | String.EmptyString => []
  | String.String c r => Z.of_nat (Ascii.nat_of_ascii c) :: str r
  end.
Arguments str s%_string.

(* ===================================================================== *)
(** * UTF-8 sequence length detection, validation and decoding           *)
(* ===================================================================== *)
Module Utf8.

Record SeqInfo := { length : nat; expectedBytes : option (list Z) }.

(** [getUtf8SequenceInfo(byte)] *)
Definition getUtf8SequenceInfo (byte : Z) : SeqInfo :=
  if Z.land byte 0x80 =? 0 then {| length := 1; expectedBytes := None |}
  else if Z.land byte 0xe0 =? 0xc0
       then {| length := 2; expectedBytes := Some [0x80; 0xbf] |}
  else if Z.land byte 0xf0 =? 0xe0
       then {| length := 3; expectedBytes := Some [0x80; 0xbf; 0x80; 0xbf] |}
  else if Z.land byte 0xf8 =? 0xf0
       then {| length := 4;
               expectedBytes := Some [0x80; 0xbf; 0x80; 0xbf; 0x80; 0xbf] |}
  else {| length := 0; expectedBytes := None |}.

(** [bytes[i]]; only read inside the bounds established by the [switch]. *)
Definition at_ (bytes : list Z) (i : nat) : Z := nth i bytes 0.

(** The closing loop of [isValidUtf8Sequence]: every byte after the first is
    a continuation byte. *)
Definition continuation_ok (bytes : list Z) : bool :=
  forallb (fun b => negb ((b <? 0x80) || (b >? 0xbf))) (tl bytes).

(** [isValidUtf8Sequence(bytes)] *)
Definition isValidUtf8Sequence (bytes : list Z) : bool :=
  let first := at_ bytes 0 in
  match List.length bytes with
  | 1%nat => first <=? 0x7f
  | 2%nat =>
      if (first <? 0xc2) || (first >? 0xdf) then false
      else continuation_ok bytes
  | 3%nat =>
      if (first =? 0xe0) && ((at_ bytes 1 <? 0xa0) || (at_ bytes 1 >? 0xbf))
      then false
      else if (first =? 0xed) && ((at_ bytes 1 <? 0x80) || (at_ bytes 1 >? 0x9f))
      then false
      else continuation_ok bytes
  | 4%nat =>
      if (first =? 0xf0) && ((at_ bytes 1 <? 0x90) || (at_ bytes 1 >? 0xbf))
      then false
      else if (first =? 0xf4) && ((at_ bytes 1 <? 0x80) || (at_ bytes 1 >? 0x8f))
      then false
      else if (first <? 0xf0) || (first >? 0xf4) then false
      else continuation_ok bytes
  | _ => false
  end.

(** [codePointFromUtf8(bytes)]; [None] is the source's [null]. *)
Definition codePointFromUtf8 (bytes : list Z) : option Z :=
  if negb (isValidUtf8Sequence bytes) then None
  else
    let first := at_ bytes 0 in
    match List.length bytes with
    | 1%nat => Some first
    | 2%nat =>
        Some (Z.lor (Z.shiftl (Z.land first 0x1f) 6) (Z.land (at_ bytes 1) 0x3f))
    | 3%nat =>
        Some (Z.lor (Z.lor (Z.shiftl (Z.land first 0x0f) 12)
                           (Z.shiftl (Z.land (at_ bytes 1) 0x3f) 6))
                    (Z.land (at_ bytes 2) 0x3f))
    | 4%nat =>
        Some (Z.lor (Z.lor (Z.lor (Z.shiftl (Z.land first 0x07) 18)
                                  (Z.shiftl (Z.land (at_ bytes 1) 0x3f) 12))
                           (Z.shiftl (Z.land (at_ bytes 2) 0x3f) 6))
                    (Z.land (at_ bytes 3) 0x3f))
    | _ => Some 0
    end.

(** ** The standard encoding the codec is measured against *)

(** An element of a [Uint8Array]. *)
Definition is_byte (b : Z) : Prop := 0 <= b <= 255.

(** A Unicode scalar value: a code point that is not a surrogate. *)
Definition is_scalar (cp : Z) : Prop :=
  0 <= cp <= 0x10ffff /\ ~ (0xd800 <= cp <= 0xdfff).

Definition is_scalarb (cp : Z) : bool :=
  (0 <=? cp) && (cp <=? 0x10ffff) && negb ((0xd800 <=? cp) && (cp <=? 0xdfff)).

(** The minimal (shortest-form) UTF-8 encoding of RFC 3629, which is also
    what [TextEncoder.encode] produces for a scalar value. *)
Definition utf8_encode (cp : Z) : list Z :=
  if cp <? 0x80 then [cp]
  else if cp <? 0x800 then [0xc0 + cp / 64; 0x80 + cp mod 64]
  else if cp <? 0x10000 then
    [0xe0 + cp / 4096; 0x80 + (cp / 64) mod 64; 0x80 + cp mod 64]
  else
    [0xf0 + cp / 262144; 0x80 + (cp / 4096) mod 64;
     0x80 + (cp / 64) mod 64; 0x80 + cp mod 64].

(** Enumeration of the 256 byte values. *)
Definition all_bytes : list Z := map Z.of_nat (seq 0 256).

(** A sequence whose length is the one its lead byte announces, which is how
    both call sites build it:
    [charBytes = allBytes.slice(i, i + seqInfo.length)]. *)
Definition gated (bytes : list Z) : Prop :=
  List.length bytes = length (getUtf8SequenceInfo (at_ bytes 0)).

End Utf8.

(* ===================================================================== *)
(** * The normalised global RegExp and [String.prototype.replace]        *)
(* ===================================================================== *)
Module Regex.

(** The pattern and the replacement text are fixed when [replaceInResponse]
    builds [regex]; the matching engine itself belongs to the platform.  A
    [RegExp] is therefore given by what the engine computes for it:
    - [exec_at S i] is the search of RegExpBuiltinExec on subject [S] started
      at [lastIndex = i <= |S|]: the first match found at or after [i], as
      its (index, end index), or [None];
    - [substitution S s e] is GetSubstitution for the match [S[s..e)] and the
      call's replacement text (captures are a function of [S] and [s]).
    The only mutable part of the object, [lastIndex], is threaded by the
    functions below. *)
Record RegExp := {
  exec_at : jsstring -> nat -> option (nat * nat);
  substitution : jsstring -> nat -> nat -> jsstring;
}.

(** The match loop of RegExp.prototype[Symbol.replace] for a global regex:
    RegExpExec until it answers null; an empty match advances [lastIndex] by
    one element (AdvanceStringIndex); a failed search resets it to 0. *)
Fixpoint collect (rx : RegExp) (S : jsstring) (fuel : nat) (lastIndex : nat)
    (results : list (nat * nat)) : list (nat * nat) * nat :=
  match fuel with
  | O => (results, lastIndex)
  | Datatypes.S fuel' =>
      if (List.length S <? lastIndex)%nat then (results, 0%nat)
      else match exec_at rx S lastIndex with
           | None => (results, 0%nat)
           | Some (s, e) =>
               let lastIndex' := if (e =? s)%nat then Datatypes.S e else e in
               collect rx S fuel' lastIndex' (results ++ [(s, e)])
           end
  end.

(** The assembly loop: the text between matches is copied, every match is
    replaced by its substitution. *)
Fixpoint assemble (rx : RegExp) (S : jsstring) (results : list (nat * nat))
    (accumulated : jsstring) (nextSourcePosition : nat) : jsstring :=
  match results with
  | [] =>
      if (List.length S <=? nextSourcePosition)%nat then accumulated
      else accumulated ++ drop nextSourcePosition S
  | (s, e) :: rest =>
      let position := Nat.min s (List.length S) in
      if (nextSourcePosition <=? position)%nat then
        assemble rx S rest
          (accumulated
             ++ take (position - nextSourcePosition) (drop nextSourcePosition S)
             ++ substitution rx S s e)
          (position + (e - s))%nat
      else assemble rx S rest accumulated nextSourcePosition
  end.

(** [S.replace(regex, replacement)] for the global [regex] whose [lastIndex]
    is [lastIndex] before the call: the result and [lastIndex] afterwards.
    The first step of the platform algorithm for a global regex is
    [rx.lastIndex = 0]. *)
Definition String_replace (rx : RegExp) (lastIndex : nat) (S : jsstring)
    : jsstring * nat :=
  let lastIndex0 := 0%nat in
  let '(results, lastIndex') :=
    collect rx S (List.length S + 2) lastIndex0 [] in
  (assemble rx S results [] 0%nat, lastIndex').

(** The replaced text alone, for callers that do not observe [lastIndex]. *)
Definition replaceAll (rx : RegExp) (S : jsstring) : jsstring :=
  fst (String_replace rx 0 S).

(** ** The regex built from a search string

    [new RegExp(search.replace(/[.*+?^${}()|[\]\\]/g, '\\$&'), 'g')] matches
    the characters of [search] literally. *)
Fixpoint starts_with (pat S : jsstring) : bool :=
  match pat, S with
  | [], _ => true
  | _ :: _, [] => false
  | p :: pat', c :: S' => (p =? c) && starts_with pat' S'
  end.

(** First index [>= i] at which [pat] occurs in [i]-shifted [S]. *)
Fixpoint find_from (pat S : jsstring) (i : nat) : option nat :=
  if starts_with pat S then Some i
  else match S with
       | [] => None
       | _ :: S' => find_from pat S' (Datatypes.S i)
       end.

(** The regex of a search string, with a replacement text free of [$]
    patterns (so that GetSubstitution is the text itself). *)
Definition literal (search replacement : jsstring) : RegExp :=
  {| exec_at S i :=
       match find_from search (drop i S) i with
       | Some s => Some (s, (s + List.length search)%nat)
       | None => None
       end;
     substitution _ _ _ := replacement |}.

(** A matcher that answers inside the subject, at or after the index the
    search started from. *)
Definition sane (rx : RegExp) : Prop :=
  forall S i s e, (i <= List.length S)%nat -> exec_at rx S i = Some (s, e) ->
    (i <= s)%nat /\ (s <= e)%nat /\ (e <= List.length S)%nat.

(** The regex of the test-suite: ["original"] to ["replaced"]. *)
Definition rx_original : RegExp := literal (str "original") (str "replaced").

End Regex.

(* ===================================================================== *)
(** * The text transform stream                                          *)
(* ===================================================================== *)
Module TextStream.
Import Utf8 Regex.

(** In this module a string is the list of its code points, which is how
    [TextEncoder.encode] and [String.fromCodePoint] see it; match positions
    of [regex] count code points (which is what the engine does for text of
    the Basic Multilingual Plane, for a regex in unicode mode, and for a
    search string, whose matches in well-formed text begin and end between
    code points).  The chunks are the strings the decoder stage in front of
    the transform delivers: however the bytes of the body were split, an
    incomplete sequence stays in that decoder, and a chunk is a non-empty
    run of whole scalar values. *)

Inductive Script := CJK | Latin.

(** [DEFAULT_SAFE_BREAK_POINTS] *)
Definition DEFAULT_SAFE_BREAK_POINTS : list Z :=
  [ 0x20; 0x0a; 0x0d; 0x09; 0x2e; 0x2c; 0x21; 0x3f; 0x3b; 0x3a; 0x29; 0x5d; 0x7d;
    0x3002; 0x3001; 0xff0c; 0xff01; 0xff1f; 0xff1b; 0xff1a; 0xff09;
    0x3011; 0x300f; 0x300b ].

(** [DEFAULT_MAX_WINDOW] *)
Definition DEFAULT_MAX_WINDOW : Z := 1024.

(** The fields of [TextTransformer].  [segmenter] is the platform's
    [Intl.Segmenter]; what the code asks of it, whether the segmentation of a
    single character has a word-like segment, is the parameter [wordLike]
    of [transform]. *)
Record TextTransformer := {
  buffer : jsstring;
  safeBreakPoints : list Z;
  maxWindowSize : Z;
  utf8Buffer : list Z;
  lastScript : option Script;
}.

(** [start()] *)
Definition start : TextTransformer :=
  {| buffer := [];
     safeBreakPoints := DEFAULT_SAFE_BREAK_POINTS;
     maxWindowSize := DEFAULT_MAX_WINDOW;
     utf8Buffer := [];
     lastScript := None |}.

(** [encoder.encode]: UTF-8 of every code point, an unpaired surrogate being
    encoded as U+FFFD. *)
Definition encode_cp (cp : Z) : list Z :=
  if (0xd800 <=? cp) && (cp <=? 0xdfff) then utf8_encode 0xfffd
  else utf8_encode cp.

Definition encode (s : jsstring) : list Z := concat (map encode_cp s).

(** The script of a code point, [null] being [None]. *)
Definition script_of (codePoint : Z) : option Script :=
  if ((0x4e00 <=? codePoint) && (codePoint <=? 0x9fff))
     || ((0x3040 <=? codePoint) && (codePoint <=? 0x309f))
     || ((0x30a0 <=? codePoint) && (codePoint <=? 0x30ff))
  then Some CJK
  else if ((0x0041 <=? codePoint) && (codePoint <=? 0x005a))
          || ((0x0061 <=? codePoint) && (codePoint <=? 0x007a))
  then Some Latin
  else None.

Definition is_script (s : Script) (o : option Script) : bool :=
  match s, o with
  | CJK, Some CJK | Latin, Some Latin => true
  | _, _ => false
  end.

(** The local variables of [transform]'s loop, the chunks enqueued so far
    and the transformer's [utf8Buffer]. *)
Record Scan := {
  codePoints : list Z;
  lastSafeIndex : nat;
  currentScript : option Script;
  enqueued : list jsstring;
  carried : list Z;
}.

(** The part of the loop body that follows [codePoints.push(codePoint)]. *)
Definition after_push (rx : RegExp) (wordLike : Z -> bool)
    (t : TextTransformer) (codePoint : Z) (sc : Scan) : Scan :=
  let cps := codePoints sc ++ [codePoint] in
  let script := script_of codePoint in
  let lsi :=
    if existsb (Z.eqb codePoint) (safeBreakPoints t) then List.length cps
    else if is_script CJK script then
      if wordLike codePoint then
        if negb (is_script Latin (currentScript sc)) then List.length cps
        else lastSafeIndex sc
      else lastSafeIndex sc
    else if is_script Latin script && is_script CJK (currentScript sc)
    then List.length cps
    else lastSafeIndex sc in
  let current := match script with Some s => Some s | None => currentScript sc end in
  if (Z.of_nat (List.length cps) - Z.of_nat lsi >? maxWindowSize t)
     && (0 <? lsi)%nat
  then
    let processCodePoints := take lsi cps in
    let replaced := replaceAll rx processCodePoints in
    (* codePoints.length = 0 *)
    let cleared : list Z := [] in
    (* codePoints.push(...codePoints.slice(lastSafeIndex)) *)
    let cps' := cleared ++ drop lsi cleared in
    {| codePoints := cps'; lastSafeIndex := 0; currentScript := current;
       enqueued := enqueued sc ++ [replaced]; carried := carried sc |}
  else
    {| codePoints := cps; lastSafeIndex := lsi; currentScript := current;
       enqueued := enqueued sc; carried := carried sc |}.

(** The [while (i < allBytes.length)] loop; [rest] is [allBytes.slice(i)].
    Every iteration consumes at least one byte, so [fuel = |rest|] is
    enough (lemma [scan_fuel]). *)
Fixpoint scan (rx : RegExp) (wordLike : Z -> bool) (t : TextTransformer)
    (fuel : nat) (rest : list Z) (sc : Scan) : Scan :=
  match fuel with
  | O => sc
  | S fuel' =>
      match rest with
      | [] => sc
      | b :: _ =>
          let n := Utf8.length (getUtf8SequenceInfo b) in
          if (n =? 0)%nat || (List.length rest <? n)%nat then
            {| codePoints := codePoints sc; lastSafeIndex := lastSafeIndex sc;
               currentScript := currentScript sc; enqueued := enqueued sc;
               carried := rest |}
          else
            let charBytes := take n rest in
            if negb (isValidUtf8Sequence charBytes)
            then scan rx wordLike t fuel' (drop 1 rest) sc
            else match codePointFromUtf8 charBytes with
                 | None => scan rx wordLike t fuel' (drop 1 rest) sc
                 | Some codePoint =>
                     if codePoint >? 0x10ffff
                     then scan rx wordLike t fuel' (drop 1 rest) sc
                     else scan rx wordLike t fuel' (drop n rest)
                            (after_push rx wordLike t codePoint sc)
                 end
      end
  end.

(** [transform(chunk, controller)]: the new transformer state and the
    strings enqueued, in order. *)
Definition transform (rx : RegExp) (wordLike : Z -> bool)
    (t : TextTransformer) (chunk : jsstring) : TextTransformer * list jsstring :=
  let encodedChunk := encode chunk in
  let allBytes := utf8Buffer t ++ encodedChunk in
  let sc := scan rx wordLike t (List.length allBytes) allBytes
              {| codePoints := []; lastSafeIndex := 0;
                 currentScript := lastScript t; enqueued := []; carried := [] |} in
  (* Process remaining code points *)
  let '(out, cps) :=
    match codePoints sc with
    | [] => (enqueued sc, codePoints sc)
    | _ :: _ => (enqueued sc ++ [replaceAll rx (codePoints sc)], [])
    end in
  (* Store remaining bytes directly: the buffer set inside the loop is
     overwritten with the encoding of what is left of [codePoints]. *)
  let remainingBytes := encode cps in
  ({| buffer := buffer t; safeBreakPoints := safeBreakPoints t;
      maxWindowSize := maxWindowSize t; utf8Buffer := remainingBytes;
      lastScript := currentScript sc |}, out).

(** The loop of [flush]: decoded code points of the remaining bytes. *)
Fixpoint flush_scan (fuel : nat) (rest : list Z) (codePoints : list Z) : list Z :=
  match fuel with
  | O => codePoints
  | S fuel' =>
      match rest with
      | [] => codePoints
      | b :: _ =>
          let n := Utf8.length (getUtf8SequenceInfo b) in
          if (n =? 0)%nat || (List.length rest <? n)%nat then codePoints
          else
            let charBytes := take n rest in
            if negb (isValidUtf8Sequence charBytes)
            then flush_scan fuel' (drop 1 rest) codePoints
            else match codePointFromUtf8 charBytes with
                 | None => flush_scan fuel' (drop 1 rest) codePoints
                 | Some codePoint =>
                     if codePoint >? 0x10ffff
                     then flush_scan fuel' (drop 1 rest) codePoints
                     else flush_scan fuel' (drop n rest) (codePoints ++ [codePoint])
                 end
      end
  end.

(** [flush(controller)] *)
Definition flush (rx : RegExp) (t : TextTransformer) : list jsstring :=
  match utf8Buffer t with
  | [] => []
  | _ :: _ =>
      match flush_scan (List.length (utf8Buffer t)) (utf8Buffer t) [] with
      | [] => []
      | cps => [replaceAll rx cps]
      end
  end.

(** The transformer driven over a sequence of chunks (each chunk is handled
    to completion before the next one is delivered). *)
Fixpoint feed (rx : RegExp) (wordLike : Z -> bool) (t : TextTransformer)
    (chunks : list jsstring) : TextTransformer * list jsstring :=
  match chunks with
  | [] => (t, [])
  | c :: rest =>
      let '(t1, out1) := transform rx wordLike t c in
      let '(t2, out2) := feed rx wordLike t1 rest in
      (t2, out1 ++ out2)
  end.

(** Everything the stream enqueues for [chunks]: the transforms, then the
    flush at the end of the stream. *)
Definition rewriteTextStream (rx : RegExp) (wordLike : Z -> bool)
    (chunks : list jsstring) : list jsstring :=
  let '(t, out) := feed rx wordLike start chunks in
  out ++ flush rx t.

(** The text a consumer reads: the enqueued strings, concatenated. *)
Definition output_text (out : list jsstring) : jsstring := concat out.

(** The pushes of a run of code points, one [after_push] each. *)
Definition pushes (rx : RegExp) (wordLike : Z -> bool) (t : TextTransformer)
    (c : list Z) (sc : Scan) : Scan :=
  fold_left (fun sc cp => after_push rx wordLike t cp sc) c sc.

(** A chunk with a break point followed by 1025 letters: ["a xxx...x"]. *)
Definition long_run : jsstring := str "a " ++ repeat 0x78 1025.

End TextStream.

(* ===================================================================== *)
(** * The JSON transform stream                                          *)
(* ===================================================================== *)
Module JsonStream.
Import Regex.

(** In this module a string is the list of its UTF-16 code units, which is
    what [chunk[i]] reads. *)

Inductive EscapeState :=
  | Normal | Escaped
  | Unicode1 | Unicode2 | Unicode3 | Unicode4
  | HighSurrogate
  | LowSurrogate1 | LowSurrogate2 | LowSurrogate3 | LowSurrogate4.

(** [escapeState++] *)
Definition incr (e : EscapeState) : EscapeState :=
  match e with
  | Normal => Escaped | Escaped => Unicode1
  | Unicode1 => Unicode2 | Unicode2 => Unicode3 | Unicode3 => Unicode4
  | Unicode4 => HighSurrogate | HighSurrogate => LowSurrogate1
  | LowSurrogate1 => LowSurrogate2 | LowSurrogate2 => LowSurrogate3
  | LowSurrogate3 => LowSurrogate4 | LowSurrogate4 => LowSurrogate4
  end.

(** A value handed to [onvalue]; a number is carried as an integer that
    only [stringify_number] reads. *)
Inductive Scalar :=
  | SString (s : jsstring)
  | SNumber (n : Z)
  | SBool (b : bool)
  | SNull.

(** The callbacks the parser fires. *)
Inductive Event :=
  | openobject (key : option jsstring)
  | key_ (key : jsstring)
  | closeobject
  | openarray
  | value_ (v : Scalar)
  | closearray
  | error_.

(** The clarinet parser and [JSON.stringify], which the source imports:
    [write] and [close] answer the callbacks they fire, in order, and whether
    the call threw. *)
Record Platform := {
  parser_state : Type;
  parser_new : parser_state;
  parser_write : parser_state -> jsstring -> parser_state * list Event * bool;
  parser_close : parser_state -> parser_state * list Event * bool;
  stringify_string : jsstring -> jsstring;
  stringify_number : Z -> jsstring;
}.

(** The fields of [JsonTransformer]. *)
Record JsonTransformer (P : Platform) := {
  buffer : jsstring;
  tokens : list jsstring;
  parser : parser_state P;
  depth : Z;
  inString : bool;
  escapeState : EscapeState;
  unicodeChars : jsstring;
  highSurrogate : option jsstring;
  lowSurrogate : jsstring;
}.
Arguments buffer {P} _.
Arguments tokens {P} _.
Arguments parser {P} _.
Arguments depth {P} _.
Arguments inString {P} _.
Arguments escapeState {P} _.
Arguments unicodeChars {P} _.
Arguments highSurrogate {P} _.
Arguments lowSurrogate {P} _.

(** The stream's controller: what was enqueued, and whether
    [controller.error] was called. *)
Record Controller := { enqueued : list jsstring; errored : bool }.

Definition enqueue (c : Controller) (s : jsstring) : Controller :=
  if errored c then c
  else {| enqueued := enqueued c ++ [s]; errored := false |}.

Definition error (c : Controller) : Controller :=
  {| enqueued := enqueued c; errored := true |}.

Section WithPlatform.
Context {P : Platform}.
Variable rx : RegExp.

Definition with_tokens (t : JsonTransformer P) (d : Z) (tk : list jsstring)
    : JsonTransformer P :=
  {| buffer := buffer t; tokens := tk; parser := parser t; depth := d;
     inString := inString t; escapeState := escapeState t;
     unicodeChars := unicodeChars t; highSurrogate := highSurrogate t;
     lowSurrogate := lowSurrogate t |}.

(** [JSON.stringify] of a scalar. *)
Definition stringify (v : Scalar) : jsstring :=
  match v with
  | SString s => stringify_string P s
  | SNumber n => stringify_number P n
  | SBool true => str "true"
  | SBool false => str "false"
  | SNull => str "null"
  end.

(** [tokens[tokens.length - 1]] is none of ["["], ["{"], [":"]. *)
Definition needs_comma (tk : list jsstring) : bool :=
  match last tk with
  | None => false
  | Some l =>
      negb (bool_decide (l = str "[")) && negb (bool_decide (l = str "{"))
      && negb (bool_decide (l = str ":"))
  end.

(** The callbacks installed by [start]. *)
Definition on_event (tc : JsonTransformer P * Controller) (ev : Event)
    : JsonTransformer P * Controller :=
  let '(t, c) := tc in
  match ev with
  | error_ => (t, error c)
  | openobject k =>
      let ks := match k with Some k => stringify_string P k | None => [] end in
      (with_tokens t (depth t + 1) (tokens t ++ [str "{"; ks; str ":"]), c)
  | key_ k =>
      (with_tokens t (depth t)
         (tokens t ++ [str ","; stringify_string P k; str ":"]), c)
  | closeobject => (with_tokens t (depth t - 1) (tokens t ++ [str "}"]), c)
  | openarray => (with_tokens t (depth t + 1) (tokens t ++ [str "["]), c)
  | value_ v =>
      let tk := if needs_comma (tokens t) then tokens t ++ [str ","] else tokens t in
      let tok := match v with
                 | SString s => stringify_string P (replaceAll rx s)
                 | _ => stringify v
                 end in
      (with_tokens t (depth t) (tk ++ [tok]), c)
  | closearray => (with_tokens t (depth t - 1) (tokens t ++ [str "]"]), c)
  end.

(** [start(controller)] *)
Definition start : JsonTransformer P :=
  {| buffer := []; tokens := []; parser := parser_new P; depth := 0;
     inString := false; escapeState := Normal; unicodeChars := [];
     highSurrogate := None; lowSurrogate := [] |}.

(** [/[0-9a-fA-F]/.test(char)] *)
Definition is_hex (c : Z) : bool :=
  ((0x30 <=? c) && (c <=? 0x39)) || ((0x61 <=? c) && (c <=? 0x66))
  || ((0x41 <=? c) && (c <=? 0x46)).

Definition hex_digit (c : Z) : Z :=
  if (0x30 <=? c) && (c <=? 0x39) then c - 0x30
  else if (0x61 <=? c) && (c <=? 0x66) then c - 0x61 + 10
  else c - 0x41 + 10.

(** [Number.parseInt(s, 16)] on the texts the machine builds (hexadecimal
    digits only); [None] is NaN. *)
Definition parseInt16 (s : jsstring) : option Z :=
  match s with
  | [] => None
  | _ => Some (fold_left (fun acc c => acc * 16 + hex_digit c) s 0)
  end.

Definition in_range (lo hi : Z) (n : option Z) : bool :=
  match n with Some n => (lo <=? n) && (n <=? hi) | None => false end.

(** Truthiness of [transformer.highSurrogate] (a string or null). *)
Definition truthy (h : option jsstring) : bool :=
  match h with Some (_ :: _) => true | _ => false end.

Definition hex_char (d : Z) : Z := if d <? 10 then 0x30 + d else 0x61 + d - 10.

Fixpoint to_hex (fuel : nat) (n : Z) (acc : jsstring) : jsstring :=
  match fuel with
  | O => acc
  | S fuel' =>
      let acc' := hex_char (n mod 16) :: acc in
      if n / 16 =? 0 then acc' else to_hex fuel' (n / 16) acc'
  end.

(** [n.toString(16)] for a non-negative integer below 2^32. *)
Definition toString16 (n : Z) : jsstring := to_hex 8 n [].

Definition set_escape (t : JsonTransformer P) (e : EscapeState)
    (uc : jsstring) (hs : option jsstring) (ls : jsstring) (ins : bool)
    : JsonTransformer P :=
  {| buffer := buffer t; tokens := tokens t; parser := parser t;
     depth := depth t; inString := ins; escapeState := e;
     unicodeChars := uc; highSurrogate := hs; lowSurrogate := ls |}.

Abbreviation BACKSLASH := 0x5c (only parsing).
Abbreviation QUOTE := 0x22 (only parsing).
Abbreviation LOWER_U := 0x75 (only parsing).

(** The [switch (transformer.escapeState)] of the character loop. *)
Definition step_escape (t : JsonTransformer P) (char : Z) : JsonTransformer P :=
  let uc := unicodeChars t in
  let hs := highSurrogate t in
  let ls := lowSurrogate t in
  let ins := inString t in
  match escapeState t with
  | Normal =>
      if char =? BACKSLASH then set_escape t Escaped uc hs ls ins
      else if (char =? QUOTE) && (depth t =? 0)
      then set_escape t Normal uc hs ls (negb ins)
      else t
  | Escaped =>
      if char =? LOWER_U then
        set_escape t (if truthy hs then LowSurrogate1 else Unicode1) [] hs [] ins
      else
        set_escape t Normal uc (if truthy hs then None else hs) ls ins
  | Unicode1 | Unicode2 | Unicode3 =>
      if is_hex char
      then set_escape t (incr (escapeState t)) (uc ++ [char]) hs ls ins
      else set_escape t Normal uc None ls ins
  | Unicode4 =>
      if is_hex char then
        let uc' := uc ++ [char] in
        if in_range 0xd800 0xdbff (parseInt16 uc')
        then set_escape t HighSurrogate uc' (Some uc') ls ins
        else set_escape t Normal uc' (if truthy hs then None else hs) ls ins
      else set_escape t Normal uc None ls ins
  | HighSurrogate =>
      if char =? BACKSLASH then set_escape t Escaped uc hs ls ins
      else set_escape t Normal uc hs ls ins
  | LowSurrogate1 | LowSurrogate2 | LowSurrogate3 =>
      if is_hex char
      then set_escape t (incr (escapeState t)) uc hs (ls ++ [char]) ins
      else set_escape t Normal uc None ls ins
  | LowSurrogate4 =>
      if is_hex char then
        let ls' := ls ++ [char] in
        let lowCodePoint := parseInt16 ls' in
        if in_range 0xdc00 0xdfff lowCodePoint && truthy hs then
          let highCodePoint := default 0 (hs ≫= parseInt16) in
          let combinedCodePoint :=
            Z.shiftl (highCodePoint - 0xd800) 10
            + (default 0 lowCodePoint - 0xdc00) + 0x10000 in
          set_escape t Normal (toString16 combinedCodePoint) None ls' ins
        else set_escape t (escapeState t) uc None ls' ins
      else set_escape t Normal uc None ls ins
  end.

Definition set_buffer (t : JsonTransformer P) (b : jsstring) : JsonTransformer P :=
  {| buffer := b; tokens := tokens t; parser := parser t;
     depth := depth t; inString := inString t; escapeState := escapeState t;
     unicodeChars := unicodeChars t; highSurrogate := highSurrogate t;
     lowSurrogate := lowSurrogate t |}.

(** One iteration of the character loop: the switch, then
    [transformer.buffer += char]. *)
Definition step_char (t : JsonTransformer P) (char : Z) : JsonTransformer P :=
  let t' := step_escape t char in
  set_buffer t' (buffer t' ++ [char]).

Definition ends_with_backslash (b : jsstring) : bool :=
  match last b with Some c => c =? BACKSLASH | None => false end.

Definition is_escaped (e : EscapeState) : bool :=
  match e with Escaped => true | _ => false end.

Definition is_high (e : EscapeState) : bool :=
  match e with HighSurrogate => true | _ => false end.

(** [transform(chunk, controller)] *)
Definition transform (tc : JsonTransformer P * Controller) (chunk : jsstring)
    : JsonTransformer P * Controller :=
  let '(t, c) := tc in
  let t1 := fold_left step_char chunk t in
  let t2 :=
    if is_escaped (escapeState t1) && negb (ends_with_backslash (buffer t1))
    then set_buffer t1 (buffer t1 ++ [BACKSLASH]) else t1 in
  if is_escaped (escapeState t2) then (t2, c)
  else
    match tokens t2 with
    | [] => (t2, c)
    | _ :: _ => (with_tokens t2 (depth t2) [], enqueue c (concat (tokens t2)))
    end.

(** The first statement of [flush]: the pending high surrogate is put in
    front of the buffer. *)
Definition flush_reinject (t : JsonTransformer P) : JsonTransformer P :=
  if is_high (escapeState t) then
    let hs := default (str "null") (highSurrogate t) in
    set_escape (set_buffer t ([BACKSLASH; LOWER_U] ++ hs ++ buffer t))
      Normal (unicodeChars t) None (lowSurrogate t) (inString t)
  else t.

(** The text [flush] hands to [parser.write], if it calls it. *)
Definition parser_input (t : JsonTransformer P) : option jsstring :=
  match buffer (flush_reinject t) with
  | [] => None
  | b => Some b
  end.

Definition set_parser (t : JsonTransformer P) (p : parser_state P)
    : JsonTransformer P :=
  {| buffer := buffer t; tokens := tokens t; parser := p;
     depth := depth t; inString := inString t; escapeState := escapeState t;
     unicodeChars := unicodeChars t; highSurrogate := highSurrogate t;
     lowSurrogate := lowSurrogate t |}.

(** A parser call: the callbacks run in order while the call executes. *)
Definition run_events (tc : JsonTransformer P * Controller) (evs : list Event)
    : JsonTransformer P * Controller :=
  fold_left on_event evs tc.

(** [flush(controller)] *)
Definition flush (tc : JsonTransformer P * Controller)
    : JsonTransformer P * Controller :=
  let '(t0, c) := tc in
  let t := flush_reinject t0 in
  let written :=
    match parser_input t0 with
    | None => (t, c, false)
    | Some b =>
        let '(p, evs, threw) := parser_write P (parser t) b in
        let '(t', c') := run_events (set_parser t p, c) evs in
        (t', c', threw)
    end in
  let '(t1, c1, threw1) := written in
  if threw1 then (t1, error c1)
  else
    let '(p, evs, threw2) := parser_close P (parser t1) in
    let '(t2, c2) := run_events (set_parser t1 p, c1) evs in
    if threw2 then (t2, error c2)
    else
      match tokens t2 with
      | [] => (t2, c2)
      | _ :: _ => (with_tokens t2 (depth t2) [], enqueue c2 (concat (tokens t2)))
      end.

(** The stream driven over [chunks]: the state after the last [transform]. *)
Definition feed (chunks : list jsstring) : JsonTransformer P * Controller :=
  fold_left transform chunks (start, {| enqueued := []; errored := false |}).

(** The whole run: every [transform], then [flush]. *)
Definition rewriteJsonStream (chunks : list jsstring) : Controller :=
  snd (flush (feed chunks)).

(** What the escape machine knows about the end of the buffer. *)
Definition tail_inv (t : JsonTransformer P) : Prop :=
  match escapeState t with
  | Escaped => exists pre, buffer t = pre ++ [BACKSLASH]
  | Unicode1 | Unicode2 | Unicode3 | Unicode4 =>
      exists pre, buffer t = pre ++ [BACKSLASH; LOWER_U] ++ unicodeChars t
  | HighSurrogate =>
      (exists pre, buffer t = pre ++ [BACKSLASH; LOWER_U] ++ unicodeChars t)
      /\ highSurrogate t = Some (unicodeChars t)
  | _ => True
  end.

(** The state between two chunks, [chunks] having been delivered. *)
Definition idle (chunks : list jsstring) (tc : JsonTransformer P * Controller)
    : Prop :=
  enqueued (snd tc) = [] /\ errored (snd tc) = false
  /\ tokens (fst tc) = [] /\ parser (fst tc) = parser_new P
  /\ buffer (fst tc) = concat chunks
  /\ tail_inv (fst tc).

End WithPlatform.

(** A platform whose parser reports nothing, to run the character loop on
    concrete chunks. *)
Definition silent : Platform :=
  {| parser_state := unit;
     parser_new := tt;
     parser_write := fun p _ => (p, [], false);
     parser_close := fun p => (p, [], false);
     stringify_string := fun s => [0x22] ++ s ++ [0x22];
     stringify_number := fun _ => str "0" |}.

(** A stream that ends inside a string, right after a high surrogate
    escape: an opening bracket, a double quote, then the six characters of
    the escape for D834. *)
Definition truncated : list jsstring := [[0x5b; 0x22] ++ str "\uD834"].

End JsonStream.

(* ===================================================================== *)
(** * The buffered path: [unwrapProxy] and [deepReplace]                 *)
(* ===================================================================== *)
Module Deep.
Import Regex.

(** JavaScript values.  Objects and arrays live in a store and are denoted
    by their address, so that two references to one object are the same
    value and a store may hold cycles.  Numbers are integers here: the code
    passes a number through, and [unwrapProxy] tests whether it is zero. *)
Inductive Value :=
  | VUndefined
  | VNull
  | VBool (b : bool)
  | VNumber (n : Z)
  | VString (s : jsstring)
  | VRef (l : nat).

Inductive PropKey :=
  | KString (s : jsstring)
  | KSymbol (id : nat).

(** An own data property. *)
Record Property := { key : PropKey; enumerable : bool; value : Value }.

(** An array (its elements) or a plain object (its own properties, in the
    order of [Reflect.ownKeys]). *)
Inductive Cell :=
  | Arr (elems : list Value)
  | Obj (props : list Property).

(** The store: address [l] holds [heap !! l]; allocation appends. *)
Abbreviation Heap := (list Cell).

Inductive PathElem := PKey (k : jsstring) | PIndex (i : nat).

(** What a call of [deepReplace] can read and change: the store, the
    [seen] WeakSet, [regex.lastIndex], and the paths passed to
    [console.warn]. *)
Record State := {
  heap : Heap;
  seen : gset nat;
  lastIndex : nat;
  warnings : list (list PathElem);
}.

Global Instance Value_eq_dec : EqDecision Value.
Proof. solve_decision. Defined.
Global Instance PropKey_eq_dec : EqDecision PropKey.
Proof. solve_decision. Defined.

(** [Reflect.get(value, key)] on a plain object: the own property's value. *)
Fixpoint get_prop (k : PropKey) (props : list Property) : option Value :=
  match props with
  | [] => None
  | p :: rest => if bool_decide (key p = k) then Some (value p) else get_prop k rest
  end.

(** JavaScript truthiness. *)
Definition truthy (v : Value) : bool :=
  match v with
  | VUndefined | VNull => false
  | VBool b => b
  | VNumber n => negb (n =? 0)
  | VString s => match s with [] => false | _ => true end
  | VRef _ => true
  end.

(** [unwrapProxy(value)] *)
Definition unwrapProxy (h : Heap) (v : Value) : Value :=
  match v with
  | VRef l =>
      match h !! l with
      | Some (Obj props) =>
          match get_prop (KString (str "__raw__")) props with
          | Some raw => if truthy raw then raw else v
          | None => v
          end
      | _ => v
      end
  | _ => v
  end.

(** [new] object or array: the next free address. *)
Definition alloc (c : Cell) (st : State) : nat * State :=
  (List.length (heap st),
   {| heap := heap st ++ [c]; seen := seen st;
      lastIndex := lastIndex st; warnings := warnings st |}).

Definition set_heap (st : State) (h : Heap) : State :=
  {| heap := h; seen := seen st; lastIndex := lastIndex st;
     warnings := warnings st |}.

(** [replacedObj[key] = v] on the own properties of a plain object: the
    property is overwritten in place or appended.  The one key that is
    treated apart is ["__proto__"]: where [Object.prototype] has its
    accessor of that name (Node, Bun, browsers) the assignment runs the
    setter and creates no own property, which is what [assign] does; Deno
    removes the accessor, and there the key is assigned like any other.
    What is stated below about the keys of a result leaves this key out,
    and holds on both. *)
Fixpoint assign_prop (k : jsstring) (v : Value) (props : list Property)
    : list Property :=
  match props with
  | [] => [{| key := KString k; enumerable := true; value := v |}]
  | p :: rest =>
      if bool_decide (key p = KString k)
      then {| key := key p; enumerable := enumerable p; value := v |} :: rest
      else p :: assign_prop k v rest
  end.

Definition assign (k : jsstring) (v : Value) (props : list Property)
    : list Property :=
  if bool_decide (k = str "__proto__") then props else assign_prop k v props.

Definition push_elem (lnew : nat) (v : Value) (st : State) : State :=
  match heap st !! lnew with
  | Some (Arr vs) => set_heap st (<[lnew := Arr (vs ++ [v])]> (heap st))
  | _ => st
  end.

Definition write_prop (lnew : nat) (k : jsstring) (v : Value) (st : State)
    : State :=
  match heap st !! lnew with
  | Some (Obj ps) => set_heap st (<[lnew := Obj (assign k v ps)]> (heap st))
  | _ => st
  end.

Section WithRegex.
Variable rx : RegExp.

(** The callback of [value.map]: elements [i, i+1, ...] of the (dense)
    array are mapped through [rec], the recursive call, and stored in the
    new array [lnew], which [map] creates before the first call. *)
Fixpoint map_elems (rec : Value -> list PathElem -> State -> option (Value * State))
    (lnew : nat) (path : list PathElem) (elems : list Value) (i : nat)
    (st : State) : option State :=
  match elems with
  | [] => Some st
  | v :: rest =>
      match rec (unwrapProxy (heap st) v) (path ++ [PIndex i]) st with
      | None => None
      | Some (v', st') => map_elems rec lnew path rest (S i) (push_elem lnew v' st')
      end
  end.

(** The [for (const key of Reflect.ownKeys(value))] loop, over the own
    properties the object has when the loop starts (no call in between
    writes to an existing cell, lemma [deepReplace_preserving], so reading
    each descriptor and value at its turn gives the same). *)
Fixpoint each_key (rec : Value -> list PathElem -> State -> option (Value * State))
    (lnew : nat) (path : list PathElem) (props : list Property)
    (st : State) : option State :=
  match props with
  | [] => Some st
  | p :: rest =>
      match key p with
      | KSymbol _ => each_key rec lnew path rest st
      | KString k =>
          if negb (enumerable p) then each_key rec lnew path rest st
          else
            match rec (unwrapProxy (heap st) (value p)) (path ++ [PKey k]) st with
            | None => None
            | Some (v', st') =>
                each_key rec lnew path rest (write_prop lnew k v' st')
            end
      end
  end.

(** [deepReplace(value, seen, path)].  [fuel] bounds the depth of the
    recursion; [None] means the bound was reached (or an address outside
    the store was followed).  Lemma [rewriteBuffered_total] shows that one
    more than the number of cells of the store is always enough. *)
Fixpoint deepReplace (fuel : nat) (v : Value) (path : list PathElem)
    (st : State) : option (Value * State) :=
  match fuel with
  | O => None
  | S fuel' =>
      let value := unwrapProxy (heap st) v in
      match value with
      | VString s =>
          let '(s', li) := String_replace rx (lastIndex st) s in
          Some (VString s',
                {| heap := heap st; seen := seen st; lastIndex := li;
                   warnings := warnings st |})
      | VRef l =>
          if bool_decide (l ∈ seen st) then
            Some (value,
                  {| heap := heap st; seen := seen st;
                     lastIndex := lastIndex st;
                     warnings := warnings st ++ [path] |})
          else
            let st1 := {| heap := heap st; seen := {[l]} ∪ seen st;
                          lastIndex := lastIndex st;
                          warnings := warnings st |} in
            match heap st1 !! l with
            | None => None
            | Some (Arr elems) =>
                (* seen.add(value), a second time *)
                let st1' := {| heap := heap st1; seen := {[l]} ∪ seen st1;
                               lastIndex := lastIndex st1;
                               warnings := warnings st1 |} in
                let '(lnew, st2) := alloc (Arr []) st1' in
                match map_elems (deepReplace fuel') lnew path elems 0 st2 with
                | None => None
                | Some st3 => Some (VRef lnew, st3)
                end
            | Some (Obj props) =>
                let '(lnew, st2) := alloc (Obj []) st1 in
                match each_key (deepReplace fuel') lnew path props st2 with
                | None => None
                | Some st3 => Some (VRef lnew, st3)
                end
            end
      | _ => Some (value, st)
      end
  end.

(** A top-level call: [deepReplace(jsonData, new WeakSet())]. *)
Definition rewriteBuffered (h : Heap) (li : nat) (v : Value)
    : option (Value * State) :=
  deepReplace (S (List.length h)) v []
    {| heap := h; seen := ∅; lastIndex := li; warnings := [] |}.

End WithRegex.

(** ** Well-formed stores *)

Definition value_closed (n : nat) (v : Value) : Prop :=
  match v with VRef l => (l < n)%nat | _ => True end.

Definition cell_values (c : Cell) : list Value :=
  match c with
  | Arr vs => vs
  | Obj ps => map value ps
  end.

(** Every reference held by a cell of the store points into the store. *)
Definition heap_closed (h : Heap) : Prop :=
  forall l c, h !! l = Some c ->
    Forall (value_closed (List.length h)) (cell_values c).

Definition value_closedb (n : nat) (v : Value) : bool :=
  match v with VRef l => (l <? n)%nat | _ => true end.

Definition heap_closedb (h : Heap) : bool :=
  forallb (fun c => forallb (value_closedb (List.length h)) (cell_values c)) h.

(** ** Predicates of the statements *)

(** Every cell of [h] is still there, unchanged, in [h']. *)
Definition ext (h h' : Heap) : Prop :=
  forall l c, h !! l = Some c -> h' !! l = Some c.

(** The same, except possibly at address [x]. *)
Definition ext_but (x : nat) (h h' : Heap) : Prop :=
  forall l c, l <> x -> h !! l = Some c -> h' !! l = Some c.

(** A call that changes no existing cell and only adds to [seen]. *)
Definition preserving
    (rec : Value -> list PathElem -> State -> option (Value * State)) : Prop :=
  forall v p st r st', rec v p st = Some (r, st') ->
    ext (heap st) (heap st') /\ seen st ⊆ seen st'.

(** The addresses below [n] that are not yet in [seen]: every descent into
    a composite removes one. *)
Definition unseen (n : nat) (s : gset nat) : nat :=
  size (set_seq 0 n ∖ s : gset nat).

(** A value built by a call on a store of [n0] cells: a scalar, a cell
    allocated by the call (address from [n0] on), or an original composite
    that is in [seen]. *)
Definition val_ok (n0 : nat) (s : gset nat) (n : nat) (v : Value) : Prop :=
  match v with
  | VRef l => ((l < n0)%nat /\ l ∈ s) \/ (n0 <= l < n)%nat
  | _ => True
  end.

(** Every cell allocated since the store had [n0] cells holds such values. *)
Definition fresh_ok (n0 : nat) (st : State) : Prop :=
  forall l c, (n0 <= l)%nat -> heap st !! l = Some c ->
    Forall (val_ok n0 (seen st) (List.length (heap st))) (cell_values c).

(** What a call on (an extension of) the closed store [h0] guarantees about
    its result. *)
Definition shaping (h0 : Heap)
    (rec : Value -> list PathElem -> State -> option (Value * State)) : Prop :=
  forall v p st r st', rec v p st = Some (r, st') ->
    ext h0 (heap st) -> value_closed (List.length h0) v ->
    fresh_ok (List.length h0) st ->
    val_ok (List.length h0) (seen st') (List.length (heap st')) r
    /\ fresh_ok (List.length h0) st'.

(** An own property of the new object comes from an enumerable,
    string-keyed property of the source object. *)
Definition copied_from (props : list Property) (q : Property) : Prop :=
  enumerable q = true
  /\ exists k p, key q = KString k /\ In p props /\ key p = KString k
                 /\ enumerable p = true.

(** A property the key loop passes over. *)
Definition skipped (p : Property) : Prop :=
  enumerable p = false \/ (exists id, key p = KSymbol id).

(** Two states that differ at most in [regex.lastIndex]. *)
Definition agree (st1 st2 : State) : Prop :=
  heap st1 = heap st2 /\ seen st1 = seen st2 /\ warnings st1 = warnings st2.

Definition agree_result (o1 o2 : option (Value * State)) : Prop :=
  match o1, o2 with
  | Some (r1, s1), Some (r2, s2) => r1 = r2 /\ agree s1 s2
  | None, None => True
  | _, _ => False
  end.

Definition agree_state (o1 o2 : option State) : Prop :=
  match o1, o2 with
  | Some s1, Some s2 => agree s1 s2
  | None, None => True
  | _, _ => False
  end.

(** The own properties of the object a call returned. *)
Definition result_props (o : option (Value * State)) : option (list Property) :=
  match o with
  | Some (VRef l, st) =>
      match heap st !! l with
      | Some (Obj ps) => Some ps
      | _ => None
      end
  | _ => None
  end.

Definition data (k : String.string) (v : Value) : Property :=
  {| key := KString (str k); enumerable := true; value := v |}.

(** [a = { name: "an original", self: a }], at address 0. *)
Definition cyclic : Heap :=
  [Obj [data "name" (VString (str "an original")); data "self" (VRef 0)]].

(** An object with an enumerable, a non-enumerable and a symbol-keyed
    property. *)
Definition with_hidden : Heap :=
  [Obj [data "name" (VString (str "original"));
        {| key := KString (str "hidden"); enumerable := false;
           value := VString (str "original") |};
        {| key := KSymbol 0; enumerable := true;
           value := VString (str "original") |}]].

End Deep.

(* ===================================================================== *)
(** * The multipart branch of [replaceInResponse]                        *)
(* ===================================================================== *)
Module Multipart.
Import Regex Deep.

(** [S.split(sep)] *)
Fixpoint split_go (sep : jsstring) (S : jsstring) (skip : nat) (cur : jsstring)
    : list jsstring :=
  match S with
  | [] => [cur]
  | c :: S' =>
      match skip with
      | Datatypes.S k => split_go sep S' k cur
      | O =>
          if starts_with sep S
          then cur :: split_go sep S' (List.length sep - 1) []
          else split_go sep S' 0 (cur ++ [c])
      end
  end.

Definition split (sep : jsstring) (S : jsstring) : list jsstring :=
  match sep with
  | [] => map (fun c => [c]) S
  | _ :: _ => split_go sep S 0 []
  end.

(** [parts.join(sep)] *)
Fixpoint join (sep : jsstring) (parts : list jsstring) : jsstring :=
  match parts with
  | [] => []
  | [p] => p
  | p :: rest => p ++ sep ++ join sep rest
  end.

(** White space and line terminators: what [trim] strips and [\s] matches. *)
Definition is_space (c : Z) : bool :=
  ((0x09 <=? c) && (c <=? 0x0d)) || (c =? 0x20) || (c =? 0xa0) || (c =? 0x1680)
  || ((0x2000 <=? c) && (c <=? 0x200a)) || (c =? 0x2028) || (c =? 0x2029)
  || (c =? 0x202f) || (c =? 0x205f) || (c =? 0x3000) || (c =? 0xfeff).

Fixpoint trim_start (S : jsstring) : jsstring :=
  match S with
  | c :: S' => if is_space c then trim_start S' else S
  | [] => []
  end.

(** [S.trim()] *)
Definition trim (S : jsstring) : jsstring :=
  rev (trim_start (rev (trim_start S))).

(** [S.toLowerCase()], as far as a later [includes] of a lower-case ASCII
    word can tell (no other character lower-cases to one of its letters). *)
Definition lower (c : Z) : Z := if (0x41 <=? c) && (c <=? 0x5a) then c + 32 else c.
Definition toLowerCase (S : jsstring) : jsstring := map lower S.

(** [S.includes(word)] *)
Fixpoint includes (word S : jsstring) : bool :=
  starts_with word S
  || match S with
     | [] => false
     | _ :: S' => includes word S'
     end.

(** The literal prefix of [/content-type:\s*([^;\r\n]+)/i], compared
    without regard to (ASCII) case. *)
Fixpoint starts_with_ci (pat S : jsstring) : bool :=
  match pat, S with
  | [], _ => true
  | _ :: _, [] => false
  | p :: pat', c :: S' => (lower p =? lower c) && starts_with_ci pat' S'
  end.

Fixpoint take_while (f : Z -> bool) (S : jsstring) : jsstring :=
  match S with
  | c :: S' => if f c then c :: take_while f S' else []
  | [] => []
  end.

(** [[^;\r\n]] *)
Definition value_char (c : Z) : bool :=
  negb ((c =? 0x3b) || (c =? 0x0d) || (c =? 0x0a)).

(** The group [([^;\r\n]+)] after [\s*] has taken [j], [j-1], ..., [0]
    characters of [S] (the greedy quantifier giving characters back). *)
Fixpoint capture_after (S : jsstring) (j : nat) : option jsstring :=
  match take_while value_char (drop j S) with
  | (_ :: _) as v => Some v
  | [] => match j with
          | O => None
          | Datatypes.S j' => capture_after S j'
          end
  end.

(** [/content-type:\s*([^;\r\n]+)/i.exec(headers)]: the first group of the
    leftmost match. *)
Fixpoint contentTypeMatch (headers : jsstring) : option jsstring :=
  let here :=
    if starts_with_ci (str "content-type:") headers then
      let after := drop 13 headers in
      capture_after after (List.length (take_while is_space after))
    else None in
  match here with
  | Some v => Some v
  | None => match headers with
            | [] => None
            | _ :: rest => contentTypeMatch rest
            end
  end.

(** [JSON.parse] and [JSON.stringify] belong to the platform: parsing yields
    a value in a store of its own or throws ([None]); serialising yields
    the text or throws. *)
Record Json := {
  JSON_parse : jsstring -> option (Value * Heap);
  JSON_stringify : Heap -> Value -> option jsstring;
}.

Definition CRLFCRLF : jsstring := [0x0d; 0x0a; 0x0d; 0x0a].

(** The [try] block of a JSON part; [None] stands for the [catch]. *)
Definition rewrite_json (rx : RegExp) (J : Json) (body : jsstring)
    : option jsstring :=
  match JSON_parse J body with
  | None => None
  | Some (jsonData, h) =>
      match rewriteBuffered rx h 0 jsonData with
      | None => None
      | Some (replacedJson, st) => JSON_stringify J (heap st) replacedJson
      end
  end.

(** The callback of [parts.map]. *)
Definition processPart (rx : RegExp) (J : Json) (part : jsstring) : jsstring :=
  if bool_decide (trim part = []) || bool_decide (trim part = str "--")
  then part
  else
    let pieces := split CRLFCRLF part in
    let headers := hd [] pieces in
    let bodyParts := tl pieces in
    let body := join CRLFCRLF bodyParts in
    let unmodified := headers ++ CRLFCRLF ++ body in
    match contentTypeMatch headers with
    | Some ct =>
        let partContentType := toLowerCase ct in
        if includes (str "json") partContentType then
          match rewrite_json rx J body with
          | Some text => headers ++ CRLFCRLF ++ text
          | None => headers ++ CRLFCRLF ++ replaceAll rx body
          end
        else if includes (str "text") partContentType
                || includes (str "html") partContentType
                || includes (str "xml") partContentType
        then headers ++ CRLFCRLF ++ replaceAll rx body
        else unmodified
    | None => unmodified
    end.

(** The multipart branch, from [originalText] to [modifiedText]. *)
Definition rewriteMultipart (rx : RegExp) (J : Json)
    (originalText boundary : jsstring) : jsstring :=
  let marker := str "--" ++ boundary in
  let parts := split marker originalText in
  let processedParts := map (processPart rx J) parts in
  join marker processedParts.

Definition CRLF : jsstring := [0x0d; 0x0a].

(** A [JSON] that is never reached (no part below is a JSON part). *)
Definition no_json : Json :=
  {| JSON_parse := fun _ => None; JSON_stringify := fun _ _ => None |}.

(** A body whose only part declares [image/png] and has an empty body, so
    that no blank line follows its header:
    [--b CRLF Content-Type: image/png CRLF --b-- CRLF].  The boundary is
    in lower case: the caller takes it from the lower-cased content type,
    so a body is cut at its markers only when they are in lower case. *)
Definition headers_only : jsstring :=
  str "--b" ++ CRLF ++ str "Content-Type: image/png" ++ CRLF
  ++ str "--b--" ++ CRLF.

(** A body with a preamble before the first boundary. *)
Definition with_preamble : jsstring :=
  str "preamble" ++ CRLF
  ++ str "--b" ++ CRLF ++ str "Content-Type: text/plain" ++ CRLF ++ CRLF
  ++ str "an original" ++ CRLF ++ str "--b--" ++ CRLF.

End Multipart.

(* ===================================================================== *)
(** * Runs of text the window never cuts                                 *)
(* ===================================================================== *)
Module Window.
Import Utf8 Regex TextStream.

(** A code point after which [transform] records no safe index when no CJK
    character came before it: it is no member of
    [DEFAULT_SAFE_BREAK_POINTS] and no CJK character (a Latin letter, a
    digit, a character of any other script). *)
Definition quietb (codePoint : Z) : bool :=
  negb (existsb (Z.eqb codePoint) DEFAULT_SAFE_BREAK_POINTS)
  && negb (is_script CJK (script_of codePoint)).

Definition quiet (c : jsstring) : Prop := forallb quietb c = true.


(** [transform] hands the pending code points to
    [String.fromCodePoint(...codePoints)], one argument each, and an engine
    takes a limited number of arguments in one call (beyond it the call
    throws a [RangeError]).  The limit depends on the engine and on its
    stack; the number below, sixteen windows, is under the limit of the
    engines the package names, and the model of [transform] is used for
    spreads of at most that many code points. *)
Definition MAX_SPREAD : nat := 16 * 1024.

(** A chunk whose code points can be spread in one call. *)
Definition spreadable (c : jsstring) : Prop :=
  (List.length c <= MAX_SPREAD)%nat.

End Window.

(* ===================================================================== *)
(** * What the parser callbacks are measured against                     *)
(* ===================================================================== *)
Module Callbacks.
Import Regex JsonStream.

(** One of the three tokens the comma test of [onvalue] looks for. *)
Definition is_opener (tok : jsstring) : bool :=
  bool_decide (tok = str "[") || bool_decide (tok = str "{")
  || bool_decide (tok = str ":").

(** [JSON.stringify] of a string or a number is never one of those tokens
    (a string comes back quoted, a number as digits). *)
Definition proper (P : Platform) : Prop :=
  (forall s, is_opener (stringify_string P s) = false)
  /\ (forall n, is_opener (stringify_number P n) = false).

Section WithPlatform.
Context {P : Platform}.
Variable rx : RegExp.

(** The text of a scalar in the output: a string is replaced, then
    serialised; any other scalar is serialised as it is. *)
Definition value_text (v : Scalar) : jsstring :=
  match v with
  | SString s => stringify_string P (replaceAll rx s)
  | _ => stringify (P := P) v
  end.

(** The text of an object member: the key is serialised as it is. *)
Definition member_text (m : jsstring * Scalar) : jsstring :=
  stringify_string P (fst m) ++ str ":" ++ value_text (snd m).

(** [texts.join(",")] *)
Fixpoint commas (texts : list jsstring) : jsstring :=
  match texts with
  | [] => []
  | [x] => x
  | x :: rest => x ++ str "," ++ commas rest
  end.

(** The callbacks the parser fires for an array of scalars. *)
Definition array_events (vs : list Scalar) : list Event :=
  [openarray] ++ map value_ vs ++ [closearray].

(** The callbacks the parser fires for an object with scalar members, the
    first key arriving with [onopenobject], the others with [onkey]. *)
Definition object_events (m : jsstring * Scalar) (ms : list (jsstring * Scalar))
    : list Event :=
  [openobject (Some (fst m)); value_ (snd m)]
  ++ flat_map (fun m => [key_ (fst m); value_ (snd m)]) ms
  ++ [closeobject].

(** The callbacks the parser fires for an array whose scalar elements
    [vs] are followed by one more element, the array of the scalars [ws]. *)
Definition nested_array_events (vs ws : list Scalar) : list Event :=
  [openarray] ++ map value_ vs ++ array_events ws ++ [closearray].

(** The text is not empty and does not end in a hexadecimal digit, as any
    text that ends in a closing bracket, brace or quote; the escape machine
    can then not be left waiting for a low surrogate. *)
Definition ends_plain (S : jsstring) : Prop :=
  match last S with Some c => is_hex c = false | None => False end.

End WithPlatform.

(** A platform whose parser reports the given callbacks for whatever it is
    written, to run the callbacks on concrete events. *)
Definition canned (evs : list Event) : Platform :=
  {| parser_state := unit;
     parser_new := tt;
     parser_write := fun p _ => (p, evs, false);
     parser_close := fun p => (p, [], false);
     stringify_string := fun s => [0x22] ++ s ++ [0x22];
     stringify_number := fun _ => str "0" |}.

(** A platform whose parser rejects whatever it is written, through
    [onerror]. *)
Definition rejecting : Platform :=
  {| parser_state := unit;
     parser_new := tt;
     parser_write := fun p _ => (p, [error_], false);
     parser_close := fun p => (p, [], false);
     stringify_string := fun s => [0x22] ++ s ++ [0x22];
     stringify_number := fun _ => str "0" |}.

End Callbacks.

(* ===================================================================== *)
(** * The kinds of part the multipart callback distinguishes             *)
(* ===================================================================== *)
Module Parts.
Import Regex Multipart.

(** [!part.trim() || part.trim() === '--'] *)
Definition blankb (part : jsstring) : bool :=
  bool_decide (trim part = []) || bool_decide (trim part = str "--").

(** The content type of a text part: it includes none of [json] and one of
    [text], [html], [xml]. *)
Definition text_type (ct : jsstring) : bool :=
  negb (includes (str "json") (toLowerCase ct))
  && (includes (str "text") (toLowerCase ct)
      || includes (str "html") (toLowerCase ct)
      || includes (str "xml") (toLowerCase ct)).

(** A content type the callback does not know. *)
Definition opaque_type (ct : jsstring) : bool :=
  negb (includes (str "json") (toLowerCase ct))
  && negb (includes (str "text") (toLowerCase ct))
  && negb (includes (str "html") (toLowerCase ct))
  && negb (includes (str "xml") (toLowerCase ct)).

(** A part the callback has no reason to change: a blank one, or one with
    a blank line after its headers and no content type the callback knows. *)
Definition keptb (part : jsstring) : bool :=
  blankb part
  || ((2 <=? List.length (split CRLFCRLF part))%nat
      && match contentTypeMatch (hd [] (split CRLFCRLF part)) with
         | None => true
         | Some ct => opaque_type ct
         end).

End Parts.

(* ===================================================================== *)
(** * References to input composites in the result                       *)
(* ===================================================================== *)
Module Sharing.
Import Regex Deep.

(** A reference to a composite of the input: for a call on a store of
    [n0] cells these are the addresses below [n0]. *)
Definition is_original (n0 : nat) (v : Value) : bool :=
  match v with VRef l => (l <? n0)%nat | _ => false end.

(** The number of such references a cell holds. *)
Definition originals (n0 : nat) (c : Cell) : nat :=
  List.length (List.filter (is_original n0) (cell_values c)).

(** The number of them held by the cells allocated since the store had
    [n0] cells. *)
Definition held (n0 : nat) (h : Heap) : nat :=
  list_sum (map (originals n0) (drop n0 h)).

End Sharing.

(* ===================================================================== *)
(** * JSON documents in the store                                        *)
(* ===================================================================== *)
Module Tree.
Import Regex Deep.

(** What [JSON.parse] yields: a tree of plain objects, arrays and scalars,
    in which no object or array is referenced twice. *)
#[local] Unset Elimination Schemes.
Inductive JsonValue :=
  | JNull
  | JBool (b : bool)
  | JNumber (n : Z)
  | JString (s : jsstring)
  | JArray (items : list JsonValue)
  | JObject (members : list (jsstring * JsonValue)).
#[local] Set Elimination Schemes.

Section Stored.
Variable build : JsonValue -> Heap -> Value * Heap.

Fixpoint build_items (items : list JsonValue) (h : Heap) : list Value * Heap :=
  match items with
  | [] => ([], h)
  | j :: rest =>
      let '(v, h1) := build j h in
      let '(vs, h2) := build_items rest h1 in
      (v :: vs, h2)
  end.

Fixpoint build_members (members : list (jsstring * JsonValue)) (h : Heap)
    : list Property * Heap :=
  match members with
  | [] => ([], h)
  | m :: rest =>
      let '(v, h1) := build (snd m) h in
      let '(ps, h2) := build_members rest h1 in
      ({| key := KString (fst m); enumerable := true; value := v |} :: ps, h2)
  end.

End Stored.

(** The document [j] put into the store [h]: every array and every object
    gets a cell of its own, after the cells of its elements; the value
    denoting [j] and the store afterwards. *)
Fixpoint build (j : JsonValue) (h : Heap) : Value * Heap :=
  match j with
  | JNull => (VNull, h)
  | JBool b => (VBool b, h)
  | JNumber n => (VNumber n, h)
  | JString s => (VString s, h)
  | JArray items =>
      let '(vs, h') := build_items build items h in
      (VRef (List.length h'), h' ++ [Arr vs])
  | JObject members =>
      let '(ps, h') := build_members build members h in
      (VRef (List.length h'), h' ++ [Obj ps])
  end.

Section Read.
Variable read : Value -> option JsonValue.

Fixpoint read_items (vs : list Value) : option (list JsonValue) :=
  match vs with
  | [] => Some []
  | v :: rest =>
      match read v, read_items rest with
      | Some j, Some js => Some (j :: js)
      | _, _ => None
      end
  end.

Fixpoint read_members (ps : list Property)
    : option (list (jsstring * JsonValue)) :=
  match ps with
  | [] => Some []
  | p :: rest =>
      match key p, enumerable p, read (value p), read_members rest with
      | KString k, true, Some j, Some ms => Some ((k, j) :: ms)
      | _, _, _, _ => None
      end
  end.

End Read.

(** The document a value denotes in a store, read to depth [fuel] through
    cells at addresses from [m] on only: [None] when the value is no such
    document (an address below [m], a symbol key or a non-enumerable
    property, [undefined], or a depth above [fuel]). *)
Fixpoint read_above (m : nat) (fuel : nat) (h : Heap) (v : Value)
    : option JsonValue :=
  match v with
  | VUndefined => None
  | VNull => Some JNull
  | VBool b => Some (JBool b)
  | VNumber n => Some (JNumber n)
  | VString s => Some (JString s)
  | VRef l =>
      if (l <? m)%nat then None
      else
        match fuel with
        | O => None
        | S fuel' =>
            match h !! l with
            | Some (Arr vs) =>
                option_map JArray (read_items (read_above m fuel' h) vs)
            | Some (Obj ps) =>
                option_map JObject (read_members (read_above m fuel' h) ps)
            | None => None
            end
        end
  end.

(** The document with [f] applied to every string value; keys stay. *)
Fixpoint jmap (f : jsstring -> jsstring) (j : JsonValue) : JsonValue :=
  match j with
  | JString s => JString (f s)
  | JArray items => JArray (map (jmap f) items)
  | JObject members =>
      JObject (map (fun m => (fst m, jmap f (snd m))) members)
  | _ => j
  end.

(** The nesting depth of a document. *)
Fixpoint height (j : JsonValue) : nat :=
  match j with
  | JArray items => S (list_max (map height items))
  | JObject members => S (list_max (map (fun m => height (snd m)) members))
  | _ => O
  end.

(** The documents [deepReplace] treats member by member: in every object
    the keys are distinct and none is ["__raw__"] (which [unwrapProxy]
    follows) or ["__proto__"] (whose assignment creates a property on
    some hosts only). *)
Fixpoint plain (j : JsonValue) : bool :=
  match j with
  | JArray items => forallb plain items
  | JObject members =>
      bool_decide (NoDup (map fst members))
      && forallb (fun m => negb (bool_decide (fst m = str "__raw__"))
                           && negb (bool_decide (fst m = str "__proto__"))
                           && plain (snd m)) members
  | _ => true
  end.

(** What a call of [deepReplace] on a stored plain document achieves: for
    the document [j] stored at the addresses from [|h0|] up to [|h1|], in
    any state whose store holds these cells and whose [seen] set holds none
    of them, a call with enough fuel returns; no existing cell is changed;
    [seen] grows by cells of [j] only; the result reads back, through cells
    allocated by the call only, as [j] with every string replaced; and no
    warning is issued. *)
Definition rewrites (rx : RegExp) (j : JsonValue) : Prop :=
  plain j = true ->
  forall h0 v h1 fuel path st,
    build j h0 = (v, h1) -> (height j < fuel)%nat ->
    ext h1 (heap st) ->
    (forall l, (List.length h0 <= l < List.length h1)%nat -> l ∉ seen st) ->
    exists r st',
      deepReplace rx fuel v path st = Some (r, st')
      /\ ext (heap st) (heap st')
      /\ (forall l, l ∈ seen st' ->
            l ∈ seen st \/ (List.length h0 <= l < List.length h1)%nat)
      /\ read_above (List.length (heap st)) (height j) (heap st') r
         = Some (jmap (replaceAll rx) j)
      /\ warnings st' = warnings st.

End Tree.

(* ===================================================================== *)
(** * The head of [replaceInResponse]                                    *)
(* ===================================================================== *)
Module Orchestrator.
Import Regex Multipart.

(** ** The source of the regex built from a search string *)

(** The class [[.*+?^${}()|[\]\\]]: the syntax characters of a pattern. *)
Definition syntax_char (c : Z) : bool :=
  existsb (Z.eqb c)
    [0x2e; 0x2a; 0x2b; 0x3f; 0x5e; 0x24; 0x7b; 0x7d; 0x28; 0x29; 0x7c;
     0x5b; 0x5d; 0x5c].

(** First index [>= i] of a syntax character in [i]-shifted [S]. *)
Fixpoint find_syntax (S : jsstring) (i : nat) : option nat :=
  match S with
  | [] => None
  | c :: S' => if syntax_char c then Some i else find_syntax S' (Datatypes.S i)
  end.

(** The global regex of that class, for a call whose replacement text is
    a backslash followed by [$&], the matched character. *)
Definition escaper : RegExp :=
  {| exec_at S i :=
       match find_syntax (drop i S) i with
       | Some s => Some (s, Datatypes.S s)
       | None => None
       end;
     substitution S s e := [0x5c] ++ take (e - s) (drop s S) |}.

(** [search.replace(/[.*+?^${}()|[\]\\]/g, '\\$&')] *)
Definition escapeSearch (search : jsstring) : jsstring :=
  replaceAll escaper search.

(** The matches the loop of [replace] collects in [i]-shifted [S]. *)
Fixpoint syntax_matches (S : jsstring) (i : nat) : list (nat * nat) :=
  match S with
  | [] => []
  | c :: S' =>
      if syntax_char c
      then (i, Datatypes.S i) :: syntax_matches S' (Datatypes.S i)
      else syntax_matches S' (Datatypes.S i)
  end.

(** What the call puts for one character of the search string. *)
Definition escaped (c : Z) : jsstring :=
  if syntax_char c then [0x5c; c] else [c].

(** The text a pattern source spells when it consists of pattern characters
    and of escaped syntax characters only; [None] for any other source (an
    unescaped syntax character, a backslash before another character). *)
Fixpoint read_literal (source : jsstring) : option jsstring :=
  match source with
  | [] => Some []
  | c :: rest =>
      if c =? 0x5c then
        match rest with
        | d :: rest' =>
            if syntax_char d then option_map (cons d) (read_literal rest')
            else None
        | [] => None
        end
      else if syntax_char c then None
      else option_map (cons c) (read_literal rest)
  end.

(** ** The regex object and its [lastIndex] *)

(** A [RegExp] object: its [flags], and what the matcher of its source
    computes under these flags for the call's replacement text, [engine].
    The flag [g] has no part in matching; with [y] it decides how [exec]
    and [replace] read and write the object's [lastIndex]. *)
Record RegExpObject := { flags : jsstring; engine : RegExp }.

(** [flags.includes(f)] for a flag [f]. *)
Definition has_flag (f : Z) (flags : jsstring) : bool :=
  existsb (Z.eqb f) flags.

Definition flag_g : Z := 0x67.
Definition flag_y : Z := 0x79.

(** The argument [search: string | RegExp]. *)
Inductive Search :=
  | SearchString (s : jsstring)
  | SearchRegExp (r : RegExpObject).

(** [regex]: for a string, the regex of its escaped text with the flag
    [g]; for a [RegExp], a new object with the same source and the same
    flags, [g] added when it is missing. *)
Definition normalize (search : Search) (replacement : jsstring)
    : RegExpObject :=
  match search with
  | SearchString s => {| flags := str "g"; engine := literal s replacement |}
  | SearchRegExp r =>
      {| flags := if has_flag flag_g (flags r) then flags r
                  else flags r ++ str "g";
         engine := engine r |}
  end.

(** [RegExpBuiltinExec(R, S)] when [R.lastIndex] is [lastIndex]: the match
    and [lastIndex] afterwards.  Without [g] and [y] the search starts at 0
    and [lastIndex] is left as it is; with one of them the search starts
    at [lastIndex], which a failure resets to 0 and a match moves to the
    end of the match. *)
Definition RegExpBuiltinExec (R : RegExpObject) (S : jsstring)
    (lastIndex : nat) : option (nat * nat) * nat :=
  let tracked := has_flag flag_g (flags R) || has_flag flag_y (flags R) in
  let start := if tracked then lastIndex else 0%nat in
  if (List.length S <? start)%nat
  then (None, if tracked then 0%nat else lastIndex)
  else match exec_at (engine R) S start with
       | None => (None, if tracked then 0%nat else lastIndex)
       | Some (s, e) => (Some (s, e), if tracked then e else lastIndex)
       end.

(** The match loop of [RegExp.prototype[Symbol.replace]]: one [exec] for a
    regex without [g]; for a global one, [exec] until it answers null, an
    empty match advancing [lastIndex] by one. *)
Fixpoint replace_loop (R : RegExpObject) (S : jsstring) (fuel : nat)
    (lastIndex : nat) (results : list (nat * nat)) : list (nat * nat) * nat :=
  match fuel with
  | O => (results, lastIndex)
  | Datatypes.S fuel' =>
      match RegExpBuiltinExec R S lastIndex with
      | (None, lastIndex') => (results, lastIndex')
      | (Some (s, e), lastIndex') =>
          if has_flag flag_g (flags R) then
            replace_loop R S fuel'
              (if (e =? s)%nat then Datatypes.S lastIndex' else lastIndex')
              (results ++ [(s, e)])
          else (results ++ [(s, e)], lastIndex')
      end
  end.

(** [S.replace(R, replacement)] for any regex object, when [R.lastIndex] is
    [lastIndex]: the result and [lastIndex] afterwards.  Only a global
    regex has its [lastIndex] set to 0 before the loop. *)
Definition Symbol_replace (R : RegExpObject) (lastIndex : nat) (S : jsstring)
    : jsstring * nat :=
  let lastIndex0 := if has_flag flag_g (flags R) then 0%nat else lastIndex in
  let '(results, lastIndex') :=
    replace_loop R S (List.length S + 2) lastIndex0 [] in
  (assemble (engine R) S results [] 0%nat, lastIndex').

(** The matcher of a sticky regex for a literal text: a match at the start
    index or none. *)
Definition anchored (search replacement : jsstring) : RegExp :=
  {| exec_at S i :=
       if starts_with search (drop i S)
       then Some (i, (i + List.length search)%nat) else None;
     substitution _ _ _ := replacement |}.

(** ** The content type and the route *)

(** [\w] *)
Definition is_word (c : Z) : bool :=
  ((0x30 <=? c) && (c <=? 0x39)) || ((0x41 <=? c) && (c <=? 0x5a))
  || ((0x61 <=? c) && (c <=? 0x7a)) || (c =? 0x5f).

(** [/^application\/(\w+\+)?json/.test(contentType)]: after the prefix
    comes [json], or a run of word characters (all of them, [+] being none),
    [+] and [json]. *)
Definition isJson (contentType : jsstring) : bool :=
  starts_with (str "application/") contentType
  && (let rest := drop 12 contentType in
      starts_with (str "json") rest
      || match take_while is_word rest with
         | [] => false
         | w => starts_with (str "+json") (drop (List.length w) rest)
         end).

(** [contentType.startsWith('multipart/')] *)
Definition isMultipart (contentType : jsstring) : bool :=
  starts_with (str "multipart/") contentType.

Definition isTextLike (contentType : jsstring) : bool :=
  includes (str "text") contentType || includes (str "html") contentType
  || includes (str "xml") contentType || includes (str "csv") contentType.

(** [/boundary=([^;]+)/i.exec(contentType)]: the first group of the
    leftmost match. *)
Fixpoint boundaryMatch (contentType : jsstring) : option jsstring :=
  let here :=
    if starts_with_ci (str "boundary=") contentType then
      match take_while (fun c => negb (c =? 0x3b)) (drop 9 contentType) with
      | [] => None
      | v => Some v
      end
    else None in
  match here with
  | Some v => Some v
  | None => match contentType with
            | [] => None
            | _ :: rest => boundaryMatch rest
            end
  end.

(** [boundary], the empty string when there is none. *)
Definition boundary_of (contentType : jsstring) : jsstring :=
  if isMultipart contentType then
    match boundaryMatch contentType with
    | Some b => b
    | None => []
    end
  else [].

(** The branch [replaceInResponse] takes for the body. *)
Inductive Route :=
  | Unmodified
  | NoBody
  | MultipartBuffered (boundary : jsstring)
  | JsonBuffered
  | JsonStreamed
  | TextStreamed.

(** The branch taken, from what [updatedHeaders.get('content-type')]
    answers after the headers were rewritten ([None] is [null]), the two
    tests for a [transfer-encoding] header, and whether [response.body] is
    non-null.  [toLowerCase] changes the ASCII letters, which is all the
    tests below can see: a header value holds no character above U+00FF,
    and lower-casing such a character never gives an ASCII one. *)
Definition route (contentTypeHeader : option jsstring)
    (isChunked hadTransferEncoding hasBody : bool) : Route :=
  let contentType :=
    toLowerCase (match contentTypeHeader with Some v => v | None => [] end) in
  let boundary := boundary_of contentType in
  if negb (isJson contentType) && negb (isMultipart contentType)
     && negb (isTextLike contentType)
  then Unmodified
  else if negb hasBody then NoBody
  else if isMultipart contentType
          && match boundary with [] => false | _ => true end
  then MultipartBuffered boundary
  else if isJson contentType then
    if negb isChunked && negb hadTransferEncoding then JsonBuffered
    else JsonStreamed
  else TextStreamed.

(** No upper-case ASCII letter. *)
Definition lower_case (c : Z) : Prop := ~ (0x41 <= c <= 0x5a).

(** ** The accumulation of the transformed stream *)

(** [finalBytes.set(chunk, offset)] on a typed array long enough. *)
Definition set_at (finalBytes chunk : list Z) (offset : nat) : list Z :=
  take offset finalBytes ++ chunk
  ++ drop (offset + List.length chunk) finalBytes.

(** The loop [for (const chunk of chunks)] with its [offset]. *)
Fixpoint set_all (finalBytes : list Z) (chunks : list (list Z)) (offset : nat)
    : list Z :=
  match chunks with
  | [] => finalBytes
  | chunk :: rest =>
      set_all (set_at finalBytes chunk offset) rest (offset + List.length chunk)
  end.

(** [finalBytes] after the loop: a zero-filled array of the total length,
    every chunk copied at its offset. *)
Definition accumulate (chunks : list (list Z)) : list Z :=
  let total := fold_left (fun acc chunk => (acc + List.length chunk)%nat) chunks 0%nat in
  set_all (repeat 0 total) chunks 0.

End Orchestrator.

(* ===================================================================== *)
(** * Properties                                                         *)
(* ===================================================================== *)

Module RegexFacts.
Import Regex.
Local Open Scope nat_scope.

(** The bound of the match loop is never reached by a matcher that answers
    inside the subject, at or after the index it was started from: the loop
    ends because a search fails, which leaves [lastIndex = 0]. *)
Lemma collect_ends_by_null (rx : RegExp) (S : jsstring) :
  sane rx ->
  forall fuel lastIndex results,
    lastIndex <= List.length S + 1 ->
    List.length S + 2 <= fuel + lastIndex ->
    snd (collect rx S fuel lastIndex results) = 0.
Proof.
  intros Hs. induction fuel as [| fuel IH]; intros li acc Hli Hf; [lia |].
  cbn [collect].
  destruct (Nat.ltb_spec (List.length S) li); [reflexivity |].
  destruct (exec_at rx S li) as [[s e] |] eqn:E; [| reflexivity].
  destruct (Hs S li s e ltac:(lia) E) as (H1 & H2 & H3).
  apply IH; destruct (Nat.eqb_spec e s); lia.
Qed.

Lemma String_replace_resets (rx : RegExp) (li : nat) (S : jsstring) :
  sane rx -> snd (String_replace rx li S) = 0.
Proof.
  intros Hs. unfold String_replace.
  pose proof (collect_ends_by_null rx S Hs (List.length S + 2) 0 []) as H.
  destruct (collect rx S (List.length S + 2) 0 []) as [results li'].
  cbn in *. apply H; lia.
Qed.

Lemma starts_with_length pat S :
  starts_with pat S = true -> List.length pat <= List.length S.
Proof.
  revert S. induction pat as [| p pat IH]; intros S H; cbn; [lia |].
  destruct S as [| c S]; [discriminate |]. cbn in H.
  apply andb_true_iff in H. destruct H as [_ H]. apply IH in H. cbn. lia.
Qed.

Lemma find_from_bounds pat S : forall i s,
  find_from pat S i = Some s ->
  i <= s /\ s + List.length pat <= i + List.length S.
Proof.
  induction S as [| c S IH]; intros i s H; cbn [find_from] in H.
  - destruct (starts_with pat []) eqn:E; [| discriminate].
    inversion H; subst. apply starts_with_length in E. cbn in *. lia.
  - destruct (starts_with pat (c :: S)) eqn:E.
    + inversion H; subst. apply starts_with_length in E. cbn in *. lia.
    + apply IH in H. cbn. lia.
Qed.

Lemma literal_sane search replacement : sane (literal search replacement).
Proof.
  intros S i s e Hi H. cbn in H.
  destruct (find_from search (drop i S) i) as [s' |] eqn:E; [| discriminate].
  inversion H; subst. apply find_from_bounds in E.
  rewrite length_drop in E. lia.
Qed.

(** ** The regex of a search string on texts with and without it *)

Lemma starts_with_refl pat : forall T, starts_with pat (pat ++ T) = true.
Proof.
  induction pat as [| p pat IH]; intros T; [reflexivity |].
  cbn. rewrite Z.eqb_refl. apply IH.
Qed.

(** A text shorter than the search string holds no occurrence of it. *)
Lemma find_from_short pat : forall S i,
  List.length S < List.length pat -> find_from pat S i = None.
Proof.
  induction S as [| c S IH]; intros i H; cbn [find_from].
  - destruct (starts_with pat []) eqn:E; [| reflexivity].
    apply starts_with_length in E. lia.
  - destruct (starts_with pat (c :: S)) eqn:E.
    + apply starts_with_length in E. lia.
    + apply IH. cbn [List.length] in H. lia.
Qed.

(** Without an occurrence the text is returned as it is. *)
Lemma replaceAll_no_match search replacement S :
  find_from search S 0 = None -> replaceAll (literal search replacement) S = S.
Proof.
  unfold replaceAll, String_replace. intros H.
  replace (List.length S + 2) with (Datatypes.S (List.length S + 1)) by lia.
  cbn [collect literal exec_at]. rewrite drop_0, H.
  cbn [Nat.ltb Nat.leb fst assemble].
  destruct S; reflexivity.
Qed.

(** The search string itself is replaced by the replacement text. *)
Lemma replaceAll_self search replacement :
  search <> [] -> replaceAll (literal search replacement) search = replacement.
Proof.
  intros Hne. unfold replaceAll, String_replace.
  assert (Hlen : List.length search <> 0) by (destruct search; [congruence | discriminate]).
  replace (List.length search + 2)
    with (Datatypes.S (Datatypes.S (List.length search))) by lia.
  cbn [collect literal exec_at].
  change (List.length search <? 0) with false. cbv iota.
  rewrite drop_0.
  assert (E0 : find_from search search 0 = Some 0).
  { pose proof (starts_with_refl search []) as H. rewrite app_nil_r in H.
    destruct search; cbn [find_from]; rewrite H; reflexivity. }
  rewrite E0. cbn [Nat.add].
  replace (List.length search =? 0) with false by (symmetry; apply Nat.eqb_neq; lia).
  rewrite Nat.ltb_irrefl, drop_all.
  assert (E1 : find_from search [] (List.length search) = None).
  { apply find_from_short. cbn. lia. }
  rewrite E1. cbn [app fst assemble].
  rewrite Nat.min_0_l. cbn [Nat.leb Nat.sub Nat.add take app].
  rewrite Nat.sub_0_r, Nat.leb_refl. reflexivity.
Qed.

(** The model on the examples of the README and of the test-suite. *)
Example replace_hello :
  replaceAll (literal (str "world") (str "Deno")) (str "Hello world!")
  = str "Hello Deno!".
Proof. vm_compute. reflexivity. Qed.

Example replace_all_occurrences :
  String_replace rx_original 7 (str "original in original")
  = (str "replaced in replaced", 0).
Proof. vm_compute. reflexivity. Qed.

Example replace_empty_pattern :
  replaceAll (literal [] (str "-")) (str "ab") = str "-a-b-".
Proof. vm_compute. reflexivity. Qed.

End RegexFacts.

Module Utf8Facts.
Import Utf8.

(** ** Bit operations as arithmetic *)

Lemma land_mask (b n : Z) : 0 <= n -> Z.land b (2 ^ n - 1) = b mod 2 ^ n.
Proof.
  intros Hn. rewrite <- Z.land_ones by assumption.
  f_equal. rewrite Z.ones_equiv. lia.
Qed.

Lemma lor_mul_pow2 (a b n : Z) :
  0 <= n -> 0 <= b < 2 ^ n -> Z.lor (a * 2 ^ n) b = a * 2 ^ n + b.
Proof.
  intros Hn Hb. symmetry. apply Z.add_nocarry_lor.
  apply Z.bits_inj'. intros i Hi.
  rewrite Z.land_spec, Z.bits_0.
  destruct (Z.lt_ge_cases i n) as [Hlt | Hge].
  - rewrite Z.mul_pow2_bits_low by lia. reflexivity.
  - destruct (Z.eq_dec b 0) as [-> | Hb0].
    + rewrite Z.bits_0. apply andb_false_r.
    + rewrite (Z.bits_above_log2 b i); [apply andb_false_r | lia |].
      apply Z.log2_lt_pow2; [lia |].
      apply Z.lt_le_trans with (2 ^ n); [lia |].
      apply Z.pow_le_mono_r; lia.
Qed.

Lemma byte_cases (P : Z -> bool) :
  forallb P all_bytes = true -> forall b, is_byte b -> P b = true.
Proof.
  intros H b [Hlo Hhi].
  rewrite forallb_forall in H. apply H.
  unfold all_bytes. apply in_map_iff. exists (Z.to_nat b). split; [lia |].
  apply in_seq. lia.
Qed.

(** What the lead byte decides. *)
Lemma info_length_spec (b : Z) :
  is_byte b ->
  Utf8.length (getUtf8SequenceInfo b) =
    if b <=? 0x7f then 1%nat
    else if b <=? 0xbf then 0%nat
    else if b <=? 0xdf then 2%nat
    else if b <=? 0xef then 3%nat
    else if b <=? 0xf7 then 4%nat
    else 0%nat.
Proof.
  intros Hb.
  pose (P := fun b =>
    bool_decide (Utf8.length (getUtf8SequenceInfo b) =
      if b <=? 0x7f then 1%nat
      else if b <=? 0xbf then 0%nat
      else if b <=? 0xdf then 2%nat
      else if b <=? 0xef then 3%nat
      else if b <=? 0xf7 then 4%nat
      else 0%nat)).
  assert (H : P b = true) by (apply byte_cases; [vm_compute; reflexivity | exact Hb]).
  unfold P in H. apply bool_decide_eq_true in H. exact H.
Qed.


Lemma decode2_arith (b0 b1 : Z) :
  0xc0 <= b0 <= 0xdf -> 0x80 <= b1 <= 0xbf ->
  Z.lor (Z.shiftl (Z.land b0 0x1f) 6) (Z.land b1 0x3f)
  = (b0 - 0xc0) * 64 + (b1 - 0x80).
Proof.
  intros H0 H1.
  change 0x1f with (2 ^ 5 - 1). change 0x3f with (2 ^ 6 - 1).
  rewrite !land_mask by lia. rewrite Z.shiftl_mul_pow2 by lia.
  rewrite lor_mul_pow2 by (try lia; apply Z.mod_pos_bound; lia).
  change (2 ^ 5) with 32. change (2 ^ 6) with 64.
  Z.div_mod_to_equations. lia.
Qed.

Lemma decode3_arith (b0 b1 b2 : Z) :
  0xe0 <= b0 <= 0xef -> 0x80 <= b1 <= 0xbf -> 0x80 <= b2 <= 0xbf ->
  Z.lor (Z.lor (Z.shiftl (Z.land b0 0x0f) 12) (Z.shiftl (Z.land b1 0x3f) 6))
        (Z.land b2 0x3f)
  = (b0 - 0xe0) * 4096 + (b1 - 0x80) * 64 + (b2 - 0x80).
Proof.
  intros H0 H1 H2.
  change 0x0f with (2 ^ 4 - 1). change 0x3f with (2 ^ 6 - 1).
  rewrite !land_mask by lia. rewrite !Z.shiftl_mul_pow2 by lia.
  assert (E0 : b0 mod 2 ^ 4 = b0 - 0xe0)
    by (change (2 ^ 4) with 16; Z.div_mod_to_equations; lia).
  assert (E1 : b1 mod 2 ^ 6 = b1 - 0x80)
    by (change (2 ^ 6) with 64; Z.div_mod_to_equations; lia).
  assert (E2 : b2 mod 2 ^ 6 = b2 - 0x80)
    by (change (2 ^ 6) with 64; Z.div_mod_to_equations; lia).
  rewrite E0, E1, E2.
  rewrite (lor_mul_pow2 (b0 - 0xe0) ((b1 - 0x80) * 2 ^ 6) 12) by lia.
  replace ((b0 - 0xe0) * 2 ^ 12 + (b1 - 0x80) * 2 ^ 6)
    with (((b0 - 0xe0) * 64 + (b1 - 0x80)) * 2 ^ 6) by lia.
  rewrite lor_mul_pow2 by lia. lia.
Qed.

Lemma decode4_arith (b0 b1 b2 b3 : Z) :
  0xf0 <= b0 <= 0xf7 -> 0x80 <= b1 <= 0xbf -> 0x80 <= b2 <= 0xbf ->
  0x80 <= b3 <= 0xbf ->
  Z.lor (Z.lor (Z.lor (Z.shiftl (Z.land b0 0x07) 18)
                      (Z.shiftl (Z.land b1 0x3f) 12))
               (Z.shiftl (Z.land b2 0x3f) 6))
        (Z.land b3 0x3f)
  = (b0 - 0xf0) * 262144 + (b1 - 0x80) * 4096 + (b2 - 0x80) * 64 + (b3 - 0x80).
Proof.
  intros H0 H1 H2 H3.
  change 0x07 with (2 ^ 3 - 1). change 0x3f with (2 ^ 6 - 1).
  rewrite !land_mask by lia. rewrite !Z.shiftl_mul_pow2 by lia.
  assert (E0 : b0 mod 2 ^ 3 = b0 - 0xf0)
    by (change (2 ^ 3) with 8; Z.div_mod_to_equations; lia).
  assert (E1 : b1 mod 2 ^ 6 = b1 - 0x80)
    by (change (2 ^ 6) with 64; Z.div_mod_to_equations; lia).
  assert (E2 : b2 mod 2 ^ 6 = b2 - 0x80)
    by (change (2 ^ 6) with 64; Z.div_mod_to_equations; lia).
  assert (E3 : b3 mod 2 ^ 6 = b3 - 0x80)
    by (change (2 ^ 6) with 64; Z.div_mod_to_equations; lia).
  rewrite E0, E1, E2, E3.
  rewrite (lor_mul_pow2 (b0 - 0xf0) ((b1 - 0x80) * 2 ^ 12) 18) by lia.
  replace ((b0 - 0xf0) * 2 ^ 18 + (b1 - 0x80) * 2 ^ 12)
    with (((b0 - 0xf0) * 64 + (b1 - 0x80)) * 2 ^ 12) by lia.
  rewrite (lor_mul_pow2 _ ((b2 - 0x80) * 2 ^ 6) 12) by lia.
  replace (((b0 - 0xf0) * 64 + (b1 - 0x80)) * 2 ^ 12 + (b2 - 0x80) * 2 ^ 6)
    with ((((b0 - 0xf0) * 64 + (b1 - 0x80)) * 64 + (b2 - 0x80)) * 2 ^ 6) by lia.
  rewrite lor_mul_pow2 by lia. lia.
Qed.

(** Boolean comparisons to propositions, case by case. *)
Ltac cmp :=
  repeat match goal with
  | H : context [?a <? ?b] |- _ => destruct (Z.ltb_spec a b); simpl in H
  | H : context [?a >? ?b] |- _ => rewrite (Z.gtb_ltb a b) in H
  | H : context [?a <=? ?b] |- _ => destruct (Z.leb_spec a b); simpl in H
  | H : context [?a =? ?b] |- _ => destruct (Z.eqb_spec a b); simpl in H
  | |- context [?a <? ?b] => destruct (Z.ltb_spec a b); simpl
  | |- context [?a >? ?b] => rewrite (Z.gtb_ltb a b)
  | |- context [?a <=? ?b] => destruct (Z.leb_spec a b); simpl
  | |- context [?a =? ?b] => destruct (Z.eqb_spec a b); simpl
  end.

Lemma decode_encode_gated (bytes : list Z) :
  Forall is_byte bytes -> gated bytes -> isValidUtf8Sequence bytes = true ->
  exists cp, codePointFromUtf8 bytes = Some cp /\ is_scalar cp
             /\ utf8_encode cp = bytes.
Proof.
  intros Hb Hg Hv. unfold codePointFromUtf8. rewrite Hv. cbn [negb].
  unfold gated in Hg.
  destruct bytes as [| b0 [| b1 [| b2 [| b3 [| b4 rest]]]]];
    try (unfold isValidUtf8Sequence in Hv; cbn [List.length] in Hv; discriminate).
  - (* one byte *)
    unfold isValidUtf8Sequence, at_ in Hv. cbn [List.length nth] in Hv.
    exists b0. cbn [List.length at_ nth]. unfold at_; cbn [nth].
    inversion Hb as [| ? ? [? ?] _]; subst.
    apply Z.leb_le in Hv.
    split; [reflexivity |]. split; [unfold is_scalar; lia |].
    unfold utf8_encode. cmp; try lia. reflexivity.
  - (* two bytes *)
    unfold isValidUtf8Sequence, at_, continuation_ok in Hv.
    cbn [List.length nth tl forallb] in Hv.
    unfold at_. cbn [List.length nth].
    eexists. split; [reflexivity |].
    inversion Hb as [| ? ? [? ?] Hb1]; subst.
    inversion Hb1 as [| ? ? [? ?] _]; subst.
    cmp; try discriminate.
    rewrite decode2_arith by lia.
    split; [unfold is_scalar; lia |].
    unfold utf8_encode. cmp; try lia.
    f_equal; [| f_equal]; Z.div_mod_to_equations; lia.
  - (* three bytes *)
    unfold at_ in Hg. cbn [List.length nth] in Hg.
    inversion Hb as [| ? ? Hb0 Hb1]; subst.
    inversion Hb1 as [| ? ? [? ?] Hb2]; subst.
    inversion Hb2 as [| ? ? [? ?] _]; subst.
    rewrite info_length_spec in Hg by assumption.
    destruct Hb0.
    unfold isValidUtf8Sequence, at_, continuation_ok in Hv.
    cbn [List.length nth tl forallb] in Hv.
    unfold at_. cbn [List.length nth].
    eexists. split; [reflexivity |].
    cmp; try discriminate.
    all: rewrite decode3_arith by lia.
    all: (split; [unfold is_scalar; lia |]).
    all: unfold utf8_encode; cmp; try lia.
    all: f_equal; [| f_equal; [| f_equal]]; Z.div_mod_to_equations; lia.
  - (* four bytes *)
    inversion Hb as [| ? ? [? ?] Hb1]; subst.
    inversion Hb1 as [| ? ? [? ?] Hb2]; subst.
    inversion Hb2 as [| ? ? [? ?] Hb3]; subst.
    inversion Hb3 as [| ? ? [? ?] _]; subst.
    unfold isValidUtf8Sequence, at_, continuation_ok in Hv.
    cbn [List.length nth tl forallb] in Hv.
    unfold at_. cbn [List.length nth].
    eexists. split; [reflexivity |].
    cmp; try discriminate.
    all: rewrite decode4_arith by lia.
    all: (split; [unfold is_scalar; lia |]).
    all: unfold utf8_encode; cmp; try lia.
    all: f_equal; [| f_equal; [| f_equal; [| f_equal]]]; Z.div_mod_to_equations; lia.
Qed.


(** The other direction: the codec reads back what the standard encoder
    writes. *)
Lemma encode_decode (cp : Z) :
  is_scalar cp ->
  Forall is_byte (utf8_encode cp)
  /\ Utf8.length (getUtf8SequenceInfo (at_ (utf8_encode cp) 0))
     = List.length (utf8_encode cp)
  /\ isValidUtf8Sequence (utf8_encode cp) = true
  /\ codePointFromUtf8 (utf8_encode cp) = Some cp.
Proof.
  intros [Hr Hs]. unfold utf8_encode.
  destruct (Z.ltb_spec cp 0x80) as [L1 | L1];
    [| destruct (Z.ltb_spec cp 0x800) as [L2 | L2];
       [| destruct (Z.ltb_spec cp 0x10000) as [L3 | L3]]].
  - assert (Hb : is_byte cp) by (unfold is_byte; lia).
    split; [repeat constructor; unfold is_byte; lia |].
    unfold at_; cbn [nth List.length].
    split; [rewrite info_length_spec by exact Hb; cmp; try lia; reflexivity |].
    unfold codePointFromUtf8, isValidUtf8Sequence, at_; cbn [nth List.length].
    assert (E : (cp <=? 0x7f) = true) by (apply Z.leb_le; lia).
    rewrite E. split; reflexivity.
  - set (b0 := 0xc0 + cp / 64). set (b1 := 0x80 + cp mod 64).
    assert (B0 : 0xc2 <= b0 <= 0xdf) by (unfold b0; Z.div_mod_to_equations; lia).
    assert (B1 : 0x80 <= b1 <= 0xbf) by (unfold b1; Z.div_mod_to_equations; lia).
    split; [repeat constructor; unfold is_byte; lia |].
    unfold at_; cbn [nth List.length].
    split; [rewrite info_length_spec by (unfold is_byte; lia); cmp; try lia; reflexivity |].
    assert (V : isValidUtf8Sequence [b0; b1] = true).
    { unfold isValidUtf8Sequence, at_, continuation_ok.
      cbn [List.length nth tl forallb]. cmp; try lia; reflexivity. }
    split; [exact V |].
    unfold codePointFromUtf8. rewrite V. cbn [negb List.length].
    unfold at_; cbn [nth]. rewrite decode2_arith by lia.
    f_equal. unfold b0, b1. Z.div_mod_to_equations. lia.
  - set (b0 := 0xe0 + cp / 4096). set (b1 := 0x80 + (cp / 64) mod 64).
    set (b2 := 0x80 + cp mod 64).
    assert (B0 : 0xe0 <= b0 <= 0xef) by (unfold b0; Z.div_mod_to_equations; lia).
    assert (B1 : 0x80 <= b1 <= 0xbf) by (unfold b1; Z.div_mod_to_equations; lia).
    assert (B2 : 0x80 <= b2 <= 0xbf) by (unfold b2; Z.div_mod_to_equations; lia).
    assert (Hov : b0 = 0xe0 -> 0xa0 <= b1)
      by (unfold b0, b1; Z.div_mod_to_equations; lia).
    assert (Hsu : b0 = 0xed -> b1 <= 0x9f)
      by (unfold b0, b1; Z.div_mod_to_equations; lia).
    split; [repeat constructor; unfold is_byte; lia |].
    unfold at_; cbn [nth List.length].
    split; [rewrite info_length_spec by (unfold is_byte; lia); cmp; try lia; reflexivity |].
    assert (V : isValidUtf8Sequence [b0; b1; b2] = true).
    { unfold isValidUtf8Sequence, at_, continuation_ok.
      cbn [List.length nth tl forallb]. cmp; try lia; reflexivity. }
    split; [exact V |].
    unfold codePointFromUtf8. rewrite V. cbn [negb List.length].
    unfold at_; cbn [nth]. rewrite decode3_arith by lia.
    f_equal. unfold b0, b1, b2. Z.div_mod_to_equations. lia.
  - set (b0 := 0xf0 + cp / 262144). set (b1 := 0x80 + (cp / 4096) mod 64).
    set (b2 := 0x80 + (cp / 64) mod 64). set (b3 := 0x80 + cp mod 64).
    assert (B0 : 0xf0 <= b0 <= 0xf4) by (unfold b0; Z.div_mod_to_equations; lia).
    assert (B1 : 0x80 <= b1 <= 0xbf) by (unfold b1; Z.div_mod_to_equations; lia).
    assert (B2 : 0x80 <= b2 <= 0xbf) by (unfold b2; Z.div_mod_to_equations; lia).
    assert (B3 : 0x80 <= b3 <= 0xbf) by (unfold b3; Z.div_mod_to_equations; lia).
    assert (Hov : b0 = 0xf0 -> 0x90 <= b1)
      by (unfold b0, b1; Z.div_mod_to_equations; lia).
    assert (Hmx : b0 = 0xf4 -> b1 <= 0x8f)
      by (unfold b0, b1; Z.div_mod_to_equations; lia).
    split; [repeat constructor; unfold is_byte; lia |].
    unfold at_; cbn [nth List.length].
    split; [rewrite info_length_spec by (unfold is_byte; lia); cmp; try lia; reflexivity |].
    assert (V : isValidUtf8Sequence [b0; b1; b2; b3] = true).
    { unfold isValidUtf8Sequence, at_, continuation_ok.
      cbn [List.length nth tl forallb]. cmp; try lia; reflexivity. }
    split; [exact V |].
    unfold codePointFromUtf8. rewrite V. cbn [negb List.length].
    unfold at_; cbn [nth]. rewrite decode4_arith by lia.
    f_equal. unfold b0, b1, b2, b3. Z.div_mod_to_equations. lia.
Qed.

Lemma invalid_gives_null (bytes : list Z) :
  isValidUtf8Sequence bytes = false -> codePointFromUtf8 bytes = None.
Proof. intros H. unfold codePointFromUtf8. rewrite H. reflexivity. Qed.


(** Claim C4 as stated fails: the three-byte sequence 41 80 80, whose first
    byte announces a one-byte sequence, is accepted by
    [isValidUtf8Sequence]; [codePointFromUtf8] decodes it to U+1000, whose
    minimal encoding is E1 80 80 and not the sequence itself. *)
Lemma unannounced_lead_accepted :
  Forall is_byte [0x41; 0x80; 0x80]
  /\ isValidUtf8Sequence [0x41; 0x80; 0x80] = true
  /\ codePointFromUtf8 [0x41; 0x80; 0x80] = Some 0x1000
  /\ utf8_encode 0x1000 = [0xe1; 0x80; 0x80]
  /\ utf8_encode 0x1000 <> [0x41; 0x80; 0x80].
Proof.
  split; [repeat (apply List.Forall_cons; [unfold is_byte; lia |]); apply List.Forall_nil |].
  repeat split; try reflexivity. vm_compute. discriminate.
Qed.

(** Claim C4, amended: for every byte sequence whose length is the one
    [getUtf8SequenceInfo] announces for its first byte (the only sequences
    the code passes to the codec), if [isValidUtf8Sequence] accepts it then
    [codePointFromUtf8] returns a Unicode scalar value whose minimal UTF-8
    encoding is exactly that sequence, and if [isValidUtf8Sequence] rejects
    it then [codePointFromUtf8] returns null. *)
Theorem codec_round_trip (bytes : list Z) :
  Forall is_byte bytes -> gated bytes ->
  (isValidUtf8Sequence bytes = true ->
   exists cp, codePointFromUtf8 bytes = Some cp /\ is_scalar cp
              /\ utf8_encode cp = bytes)
  /\ (isValidUtf8Sequence bytes = false -> codePointFromUtf8 bytes = None).
Proof.
  intros Hb Hg. split.
  - apply decode_encode_gated; assumption.
  - apply invalid_gives_null.
Qed.

Lemma codec_round_trip_witness :
  exists cp, codePointFromUtf8 [0xe6; 0xb5; 0x8b] = Some cp /\ is_scalar cp
             /\ utf8_encode cp = [0xe6; 0xb5; 0x8b].
Proof.
  refine (proj1 (codec_round_trip [0xe6; 0xb5; 0x8b] _ _) _).
  - repeat (apply List.Forall_cons; [unfold is_byte; lia |]). apply List.Forall_nil.
  - reflexivity.
  - reflexivity.
Defined.

End Utf8Facts.

Module TextFacts.
Import Utf8 Regex TextStream RegexFacts Utf8Facts.

Section Scan.
Variable rx : RegExp.
Variable wordLike : Z -> bool.
Variable t : TextTransformer.

Lemma scan_nil fuel sc : scan rx wordLike t fuel [] sc = sc.
Proof. destruct fuel; reflexivity. Qed.

(** The loop bound is adequate: with at least [|rest|] units the loop runs
    to its end. *)
Lemma scan_fuel fuel1 : forall fuel2 rest sc,
  (List.length rest <= fuel1)%nat -> (List.length rest <= fuel2)%nat ->
  scan rx wordLike t fuel1 rest sc = scan rx wordLike t fuel2 rest sc.
Proof.
  induction fuel1 as [| fuel1 IH]; intros fuel2 rest sc H1 H2.
  - destruct rest; [| cbn in H1; lia]. rewrite !scan_nil. reflexivity.
  - destruct rest as [| b rest]; [rewrite !scan_nil; reflexivity |].
    destruct fuel2 as [| fuel2]; [cbn in H2; lia |].
    cbn [scan].
    destruct ((Utf8.length (getUtf8SequenceInfo b) =? 0)%nat
              || (List.length (b :: rest) <? Utf8.length (getUtf8SequenceInfo b))%nat)
      eqn:E; [reflexivity |].
    apply orb_false_iff in E. destruct E as [E1 E2].
    apply Nat.eqb_neq in E1.
    assert (D1 : (List.length (drop 1 (b :: rest)) <= fuel1)%nat)
      by (rewrite length_drop; cbn in *; lia).
    assert (D2 : (List.length (drop 1 (b :: rest)) <= fuel2)%nat)
      by (rewrite length_drop; cbn in *; lia).
    assert (D3 : (List.length (drop (Utf8.length (getUtf8SequenceInfo b)) (b :: rest))
                  <= fuel1)%nat)
      by (rewrite length_drop; cbn in *; lia).
    assert (D4 : (List.length (drop (Utf8.length (getUtf8SequenceInfo b)) (b :: rest))
                  <= fuel2)%nat)
      by (rewrite length_drop; cbn in *; lia).
    destruct (negb (isValidUtf8Sequence _)); [apply IH; assumption |].
    destruct (codePointFromUtf8 _) as [cp |]; [| apply IH; assumption].
    destruct (cp >? 0x10ffff); apply IH; assumption.
Qed.

Lemma encode_cons_scalar cp c :
  is_scalar cp -> encode (cp :: c) = utf8_encode cp ++ encode c.
Proof.
  intros [_ Hs]. unfold encode. cbn [map concat]. unfold encode_cp.
  destruct (Z.leb_spec 0xd800 cp), (Z.leb_spec cp 0xdfff); cbn [andb];
    try reflexivity. lia.
Qed.

Lemma utf8_encode_length cp :
  (1 <= List.length (utf8_encode cp) <= 4)%nat.
Proof. unfold utf8_encode. cmp; cbn [List.length]; lia. Qed.

(** One iteration on a well-formed sequence: the code point is pushed and
    the loop goes on behind the sequence. *)
Lemma scan_step fuel cp rest sc :
  is_scalar cp ->
  scan rx wordLike t (S fuel) (utf8_encode cp ++ rest) sc
  = scan rx wordLike t fuel rest (after_push rx wordLike t cp sc).
Proof.
  intros Hcp. destruct (encode_decode cp Hcp) as (_ & Hlen & Hv & Hd).
  pose proof (utf8_encode_length cp) as Hl.
  destruct (utf8_encode cp) as [| b bs] eqn:E; [cbn in Hl; lia |].
  unfold at_ in Hlen. cbn [nth] in Hlen.
  cbn [scan app]. rewrite Hlen.
  replace ((List.length (b :: bs) =? 0)%nat) with false
    by (symmetry; apply Nat.eqb_neq; cbn; lia).
  replace ((List.length (b :: bs ++ rest) <? List.length (b :: bs))%nat) with false
    by (symmetry; apply Nat.ltb_ge; cbn [List.length]; rewrite length_app; lia).
  cbn [orb].
  change (b :: bs ++ rest) with ((b :: bs) ++ rest).
  rewrite take_app_length, drop_app_length, Hv, Hd. cbn [negb].
  destruct Hcp as [[_ Hhi] _].
  replace (cp >? 0x10ffff) with false
    by (symmetry; rewrite Z.gtb_ltb; apply Z.ltb_ge; lia).
  reflexivity.
Qed.

Lemma scan_encode c : forall fuel sc,
  Forall is_scalar c -> (List.length (encode c) <= fuel)%nat ->
  scan rx wordLike t fuel (encode c) sc = pushes rx wordLike t c sc.
Proof.
  induction c as [| cp c IH]; intros fuel sc Hc Hf.
  - apply scan_nil.
  - inversion Hc as [| ? ? Hcp Hc']; subst.
    rewrite encode_cons_scalar in * by assumption.
    rewrite length_app in Hf. pose proof (utf8_encode_length cp).
    destruct fuel as [| fuel]; [lia |].
    rewrite scan_step by assumption. cbn [pushes fold_left].
    apply IH; [assumption | lia].
Qed.

(** Below the window size nothing is forced out. *)
Lemma after_push_small cp sc :
  Z.of_nat (S (List.length (codePoints sc))) <= maxWindowSize t ->
  codePoints (after_push rx wordLike t cp sc) = codePoints sc ++ [cp]
  /\ enqueued (after_push rx wordLike t cp sc) = enqueued sc
  /\ carried (after_push rx wordLike t cp sc) = carried sc.
Proof.
  intros Hs. unfold after_push.
  match goal with
  | |- context [if (?x >? ?y) && ?z then _ else _] =>
      replace (x >? y) with false
  end.
  - cbn [andb codePoints enqueued carried]. auto.
  - symmetry. rewrite Z.gtb_ltb. apply Z.ltb_ge.
    rewrite length_app. cbn [List.length]. lia.
Qed.

Lemma pushes_small c : forall sc,
  Z.of_nat (List.length (codePoints sc) + List.length c) <= maxWindowSize t ->
  codePoints (pushes rx wordLike t c sc) = codePoints sc ++ c
  /\ enqueued (pushes rx wordLike t c sc) = enqueued sc
  /\ carried (pushes rx wordLike t c sc) = carried sc.
Proof.
  induction c as [| cp c IH]; intros sc Hs.
  - cbn. rewrite app_nil_r. auto.
  - cbn [pushes fold_left]. cbn [List.length] in Hs.
    destruct (after_push_small cp sc) as (E1 & E2 & E3); [lia |].
    destruct (IH (after_push rx wordLike t cp sc)) as (F1 & F2 & F3).
    { rewrite E1, length_app. cbn [List.length]. lia. }
    unfold pushes in *. rewrite F1, F2, F3, E1, E2, E3.
    rewrite <- app_assoc. auto.
Qed.

(** [transform] on a chunk of at most [maxWindowSize] scalar values: the
    chunk is replaced and enqueued as a whole, and nothing is carried. *)
Lemma transform_small c :
  utf8Buffer t = [] -> Forall is_scalar c ->
  Z.of_nat (List.length c) <= maxWindowSize t ->
  snd (transform rx wordLike t c)
    = match c with [] => [] | _ => [replaceAll rx c] end
  /\ utf8Buffer (fst (transform rx wordLike t c)) = []
  /\ maxWindowSize (fst (transform rx wordLike t c)) = maxWindowSize t.
Proof.
  intros Hb Hc Hs. unfold transform. rewrite Hb. cbn [app].
  rewrite scan_encode by (try assumption; lia).
  match goal with |- context [pushes rx wordLike t c ?s] => set (sc0 := s) end.
  destruct (pushes_small c sc0) as (E1 & E2 & E3); [cbn; lia |].
  cbn [codePoints enqueued] in E1, E2.
  rewrite E1, E2. cbn [app].
  destruct c; cbn; auto.
Qed.

End Scan.

Lemma feed_small rx wordLike chunks : forall t,
  utf8Buffer t = [] ->
  Forall (Forall is_scalar) chunks ->
  Forall (fun c => c <> [] /\ Z.of_nat (List.length c) <= maxWindowSize t) chunks ->
  snd (feed rx wordLike t chunks) = map (replaceAll rx) chunks
  /\ utf8Buffer (fst (feed rx wordLike t chunks)) = [].
Proof.
  induction chunks as [| c chunks IH]; intros t Hb Hs Hn.
  - cbn. auto.
  - inversion Hs as [| ? ? Hc Hs']; subst.
    inversion Hn as [| ? ? [Hne Hl] Hn']; subst.
    destruct (transform_small rx wordLike t c Hb Hc Hl) as (E1 & E2 & E3).
    cbn [feed].
    destruct (transform rx wordLike t c) as [t1 out1]. cbn [fst snd] in *.
    destruct (IH t1) as (F1 & F2); [assumption | assumption | |].
    { rewrite E3. assumption. }
    destruct (feed rx wordLike t1 chunks) as [t2 out2]. cbn [fst snd] in *.
    subst. split; [| assumption].
    destruct c; [congruence | reflexivity].
Qed.


(** Whatever the loop set aside in [utf8Buffer], [transform] ends by
    overwriting it with the encoding of the emptied [codePoints]: no byte is
    ever carried from one chunk to the next by the transform itself. *)
Lemma carry_is_overwritten rx wordLike t chunk :
  utf8Buffer (fst (transform rx wordLike t chunk)) = [].
Proof.
  unfold transform.
  destruct (codePoints (scan _ _ _ _ _ _)); reflexivity.
Qed.

(** Whenever the window check fires (one more string is enqueued), nothing
    is left pending. *)
Lemma forced_emission_keeps_nothing rx wordLike t cp sc :
  enqueued (after_push rx wordLike t cp sc) <> enqueued sc ->
  codePoints (after_push rx wordLike t cp sc) = []
  /\ lastSafeIndex (after_push rx wordLike t cp sc) = 0%nat.
Proof.
  unfold after_push.
  match goal with
  | |- context [if (?a >? ?b) && ?c then _ else _] => destruct ((a >? b) && c)
  end; cbn [codePoints lastSafeIndex enqueued]; intros H.
  - rewrite drop_nil. auto.
  - congruence.
Qed.

Lemma flush_empty rx t : utf8Buffer t = [] -> flush rx t = [].
Proof. intros H. unfold flush. rewrite H. reflexivity. Qed.

Lemma concat_length_le (c : jsstring) (chunks : list jsstring) :
  In c chunks -> (List.length c <= List.length (concat chunks))%nat.
Proof.
  induction chunks as [| d chunks IH]; intros Hin; [destruct Hin |].
  cbn [concat]. rewrite length_app. destruct Hin as [-> | Hin]; [lia |].
  specialize (IH Hin). lia.
Qed.

(** A text of at most [DEFAULT_MAX_WINDOW] code points, delivered as
    non-empty chunks of scalar values: the window check never fires, and the
    stream's output is the replacement applied to each chunk on its own. *)
Lemma small_chunks_replaced rx wordLike (chunks : list jsstring) :
  Forall (Forall is_scalar) chunks ->
  Forall (fun c => c <> []) chunks ->
  Z.of_nat (List.length (concat chunks)) <= DEFAULT_MAX_WINDOW ->
  output_text (rewriteTextStream rx wordLike chunks)
    = concat (map (replaceAll rx) chunks).
Proof.
  intros Hs Hne Hlen.
  unfold rewriteTextStream, output_text.
  destruct (feed_small rx wordLike chunks start) as (E1 & E2);
    [reflexivity | assumption | |].
  - rewrite Forall_forall in *. intros c Hc. split; [auto |].
    apply list_elem_of_In in Hc.
    pose proof (concat_length_le c chunks Hc). cbn [maxWindowSize start]. lia.
  - destruct (feed rx wordLike start chunks) as [t out]. cbn [fst snd] in *.
    rewrite flush_empty by assumption. rewrite app_nil_r. congruence.
Qed.

Lemma is_scalarb_spec cp : is_scalarb cp = true -> is_scalar cp.
Proof. unfold is_scalarb, is_scalar. cmp; try discriminate; lia. Qed.

Lemma scalars_ok1 (c : jsstring) :
  forallb is_scalarb c = true -> Forall is_scalar c.
Proof.
  intros H. apply List.Forall_forall. intros cp Hcp.
  rewrite forallb_forall in H. apply is_scalarb_spec. auto.
Qed.


(** Claim C1 on the code: an occurrence of the search text that is cut by
    a chunk boundary is not replaced.  For every search text of at most
    [DEFAULT_MAX_WINDOW] scalar values, cut into two non-empty chunks [s1]
    and [s2], the stream replaces the text delivered as one chunk and
    leaves it as it is when it is delivered as [s1], [s2]: the two outputs
    differ.  After the first chunk nothing is carried over to the second
    ([utf8Buffer] is empty), so the first chunk is emitted before the second
    is seen. *)
Theorem straddling_occurrence_missed (s1 s2 replacement : jsstring) wordLike :
  s1 <> [] -> s2 <> [] ->
  Forall is_scalar (s1 ++ s2) ->
  Z.of_nat (List.length (s1 ++ s2)) <= DEFAULT_MAX_WINDOW ->
  replacement <> s1 ++ s2 ->
  let rx := literal (s1 ++ s2) replacement in
  output_text (rewriteTextStream rx wordLike [s1 ++ s2]) = replacement
  /\ output_text (rewriteTextStream rx wordLike [s1; s2]) = s1 ++ s2
  /\ utf8Buffer (fst (transform rx wordLike start s1)) = []
  /\ output_text (rewriteTextStream rx wordLike [s1; s2])
     <> output_text (rewriteTextStream rx wordLike [s1 ++ s2]).
Proof.
  intros H1 H2 Hs Hlen Hr rx.
  assert (Hne : s1 ++ s2 <> []) by (destruct s1; [congruence | discriminate]).
  assert (L1 : (0 < List.length s1)%nat)
    by (destruct s1; [congruence | cbn; lia]).
  assert (L2 : (0 < List.length s2)%nat)
    by (destruct s2; [congruence | cbn; lia]).
  apply Forall_app in Hs. destruct Hs as [Hs1 Hs2].
  assert (A : output_text (rewriteTextStream rx wordLike [s1 ++ s2]) = replacement).
  { rewrite small_chunks_replaced.
    - cbn [map concat]. rewrite app_nil_r. apply replaceAll_self. exact Hne.
    - constructor; [apply Forall_app; auto | constructor].
    - constructor; [exact Hne | constructor].
    - cbn [concat]. rewrite app_nil_r. exact Hlen. }
  assert (B : output_text (rewriteTextStream rx wordLike [s1; s2]) = s1 ++ s2).
  { rewrite small_chunks_replaced.
    - cbn [map concat]. rewrite app_nil_r. unfold rx.
      rewrite !replaceAll_no_match; [reflexivity | |];
        apply find_from_short; rewrite length_app; lia.
    - repeat constructor; assumption.
    - repeat constructor; assumption.
    - cbn [concat]. rewrite app_nil_r. exact Hlen. }
  split; [exact A |]. split; [exact B |].
  split; [apply carry_is_overwritten |].
  rewrite A, B. congruence.
Qed.

(** Witness of C1's theorem: "original" delivered as "orig", "inal". *)
Lemma straddling_occurrence_missed_witness :
  output_text (rewriteTextStream rx_original (fun _ => true) [str "original"])
    = str "replaced"
  /\ output_text (rewriteTextStream rx_original (fun _ => true)
                    [str "orig"; str "inal"])
    = str "original".
Proof.
  destruct (straddling_occurrence_missed (str "orig") (str "inal") (str "replaced")
              (fun _ => true)) as (A & B & _).
  - discriminate.
  - discriminate.
  - apply scalars_ok1. vm_compute. reflexivity.
  - vm_compute. discriminate.
  - discriminate.
  - split; [exact A | exact B].
Defined.

(** The same happens when the cut falls inside a multi-byte character of
    the occurrence: the decoder in front of the transform delivers whole
    characters, so the occurrence still arrives in two chunks. *)
Example straddling_occurrence_cjk :
  let rx := literal [0x6d4b; 0x8bd5] (str "test") in
  output_text (rewriteTextStream rx (fun _ => true) [[0x6d4b]; [0x8bd5]])
    = [0x6d4b; 0x8bd5]
  /\ output_text (rewriteTextStream rx (fun _ => true) [[0x6d4b; 0x8bd5]])
    = str "test".
Proof. split; vm_compute; reflexivity. Qed.

(** Claim C5 on the code: for the chunk [long_run] (a break point after
    two code points, then 1025 letters) the window check fires at the last
    letter; the two code points up to the safe index are emitted, and the
    1025 pending ones are not retained: they appear in no later output of
    the stream, flush included. *)
Theorem forced_window_drops rx wordLike :
  rewriteTextStream rx wordLike [long_run] = [replaceAll rx (str "a ")].
Proof. vm_compute. reflexivity. Qed.

(** The stream on chunks of the test-suite: every occurrence lies inside a
    chunk. *)
Example stream_of_whole_occurrences :
  output_text (rewriteTextStream rx_original (fun _ => true)
                 [str "original " ++ [0x30c6; 0x30b9; 0x30c8];
                  str "original " ++ [0x1f30d];
                  str " original original"])
  = str "replaced " ++ [0x30c6; 0x30b9; 0x30c8] ++ str "replaced " ++ [0x1f30d]
    ++ str " replaced replaced".
Proof. vm_compute. reflexivity. Qed.

End TextFacts.

Module JsonFacts.
Import Regex JsonStream.

Section WithPlatform.
Context {P : Platform}.
Variable rx : RegExp.

(** The character loop never touches the tokens, the parser or the depth. *)
Lemma step_char_frame (t : JsonTransformer P) (char : Z) :
  tokens (step_char t char) = tokens t
  /\ parser (step_char t char) = parser t
  /\ depth (step_char t char) = depth t
  /\ buffer (step_char t char) = buffer t ++ [char].
Proof.
  unfold step_char, step_escape.
  destruct (escapeState t);
    repeat match goal with
    | |- context [if ?c then _ else _] => destruct c
    end; cbn; auto.
Qed.

Lemma step_char_inv (t : JsonTransformer P) (char : Z) :
  tail_inv t -> tail_inv (step_char t char).
Proof.
  unfold tail_inv, step_char, step_escape.
  destruct (escapeState t) eqn:E; intros Ht;
    repeat match goal with
    | |- context [if ?c then _ else _] => destruct c eqn:?
    end; cbn; auto;
    try match goal with
    | H : (char =? ?k) = true |- _ => apply Z.eqb_eq in H; subst char
    end.
  all: try (rewrite E; exact I).
  all: try (eexists; reflexivity).
  all: lazymatch type of Ht with
       | True => idtac
       | _ /\ _ => destruct Ht as [[pre Hpre] Hhs]; rewrite Hpre
       | _ => destruct Ht as [pre Hpre]; rewrite Hpre
       end.
  all: try (split; [| reflexivity]).
  all: first [ exists pre; rewrite <- ?app_assoc; reflexivity
             | exists (pre ++ [0x5c; 0x75]); rewrite <- ?app_assoc; reflexivity ].
Qed.

Lemma fold_step_frame (chunk : jsstring) : forall t : JsonTransformer P,
  tokens (fold_left step_char chunk t) = tokens t
  /\ parser (fold_left step_char chunk t) = parser t
  /\ depth (fold_left step_char chunk t) = depth t
  /\ buffer (fold_left step_char chunk t) = buffer t ++ chunk
  /\ (tail_inv t -> tail_inv (fold_left step_char chunk t)).
Proof.
  induction chunk as [| c chunk IH]; intros t.
  - cbn. rewrite app_nil_r. auto.
  - cbn [fold_left].
    destruct (step_char_frame t c) as (E1 & E2 & E3 & E4).
    destruct (IH (step_char t c)) as (F1 & F2 & F3 & F4 & F5).
    rewrite F1, F2, F3, F4, E1, E2, E3, E4, <- app_assoc.
    repeat split; auto using step_char_inv.
Qed.

Lemma escaped_ends_with_backslash (t : JsonTransformer P) :
  tail_inv t -> is_escaped (escapeState t) = true ->
  ends_with_backslash (buffer t) = true.
Proof.
  unfold tail_inv. intros Ht He.
  destruct (escapeState t); try discriminate.
  destruct Ht as [pre ->]. unfold ends_with_backslash.
  rewrite last_snoc. reflexivity.
Qed.

Lemma transform_idle chunks (tc : JsonTransformer P * Controller) chunk :
  idle chunks tc -> idle (chunks ++ [chunk]) (transform tc chunk).
Proof.
  destruct tc as [t c]. unfold idle. cbn [fst snd].
  intros (Hq & He & Htk & Hp & Hb & Hi).
  unfold transform.
  destruct (fold_step_frame chunk t) as (F1 & F2 & F3 & F4 & F5).
  specialize (F5 Hi).
  set (t1 := fold_left step_char chunk t) in *.
  assert (Hsame :
    (if is_escaped (escapeState t1) && negb (ends_with_backslash (buffer t1))
     then set_buffer t1 (buffer t1 ++ [0x5c]) else t1) = t1).
  { destruct (is_escaped (escapeState t1)) eqn:Ee; [| reflexivity].
    rewrite escaped_ends_with_backslash by assumption. reflexivity. }
  rewrite Hsame.
  assert (Hcat : buffer t1 = concat (chunks ++ [chunk])).
  { rewrite F4, Hb, concat_app. cbn. rewrite app_nil_r. reflexivity. }
  destruct (is_escaped (escapeState t1)); cbn [fst snd].
  - rewrite F1, F2. auto 10.
  - rewrite F1, Htk. cbn [fst snd]. rewrite F1, F2. auto 10.
Qed.

Lemma feed_idle_from chunks : forall done (tc : JsonTransformer P * Controller),
  idle done tc -> idle (done ++ chunks) (fold_left transform chunks tc).
Proof.
  induction chunks as [| c chunks IH]; intros done tc H.
  - cbn. rewrite app_nil_r. exact H.
  - cbn [fold_left].
    replace (done ++ c :: chunks) with ((done ++ [c]) ++ chunks)
      by (rewrite <- app_assoc; reflexivity).
    apply IH. apply transform_idle. exact H.
Qed.

Lemma feed_idle chunks : idle chunks (feed (P := P) chunks).
Proof.
  unfold feed. apply (feed_idle_from chunks []).
  unfold idle. cbn. auto 10.
Qed.

End WithPlatform.

(** Claim C2 on the code: whatever the chunks, no [transform] enqueues
    anything: after the last chunk the controller queue is empty, no token
    was produced, the parser is still in its initial state, and the whole
    document sits in [buffer].  All output is produced by [flush]. *)
Theorem transform_never_enqueues (P : Platform)
    (chunks : list jsstring) :
  enqueued (snd (feed (P := P) chunks)) = []
  /\ tokens (fst (feed (P := P) chunks)) = []
  /\ parser (fst (feed (P := P) chunks)) = parser_new P
  /\ buffer (fst (feed (P := P) chunks)) = concat chunks.
Proof.
  destruct (feed_idle (P := P) chunks) as (H1 & H2 & H3 & H4 & H5 & H6).
  auto.
Qed.

(** Claim C3 on the code: whenever the stream ends in [HighSurrogate], the
    text delivered so far ends with the escape (backslash, u, four digits),
    and the text handed to the parser is that escape followed by the whole
    text: the escape occurs twice, once in front and once in its place. *)
Theorem pending_high_surrogate_duplicated (P : Platform)
    (chunks : list jsstring) :
  escapeState (fst (feed (P := P) chunks)) = HighSurrogate ->
  exists pre hs,
    concat chunks = pre ++ [0x5c; 0x75] ++ hs
    /\ parser_input (fst (feed (P := P) chunks))
       = Some ([0x5c; 0x75] ++ hs ++ pre ++ [0x5c; 0x75] ++ hs).
Proof.
  intros He.
  destruct (feed_idle (P := P) chunks) as (_ & _ & _ & _ & Hb & Hi).
  unfold tail_inv in Hi. rewrite He in Hi. destruct Hi as [[pre Hpre] Hhs].
  exists pre, (unicodeChars (fst (feed (P := P) chunks))).
  split; [congruence |].
  unfold parser_input, flush_reinject. rewrite He, Hhs. cbn.
  rewrite Hpre. reflexivity.
Qed.


(** Witness of C3's theorem: the stream [truncated]. *)
Lemma pending_high_surrogate_duplicated_witness :
  exists pre hs,
    concat truncated = pre ++ [0x5c; 0x75] ++ hs
    /\ parser_input (fst (feed (P := silent) truncated))
       = Some ([0x5c; 0x75] ++ hs ++ pre ++ [0x5c; 0x75] ++ hs).
Proof.
  apply (pending_high_surrogate_duplicated silent truncated).
  reflexivity.
Defined.

Example truncated_parser_input :
  parser_input (fst (feed (P := silent) truncated))
  = Some (str "\uD834" ++ [0x5b; 0x22] ++ str "\uD834").
Proof. vm_compute. reflexivity. Qed.

(** The escape machine on a surrogate pair split between two chunks: the
    pair is combined to U+1D11E and the machine is back in [Normal]. *)
Example surrogate_pair_combined :
  escapeState (fst (feed (P := silent) [str "\uD834\u"; str "DD1E"])) = Normal
  /\ unicodeChars (fst (feed (P := silent) [str "\uD834\u"; str "DD1E"]))
     = str "1d11e"
  /\ highSurrogate (fst (feed (P := silent) [str "\uD834\u"; str "DD1E"])) = None.
Proof. repeat split; vm_compute; reflexivity. Qed.

End JsonFacts.

Module DeepFacts.
Import Regex Deep Sharing Orchestrator.
Local Open Scope nat_scope.

Lemma ext_refl h : ext h h.
Proof. intros l c H. exact H. Qed.

Lemma ext_trans h1 h2 h3 : ext h1 h2 -> ext h2 h3 -> ext h1 h3.
Proof. intros H12 H23 l c H. auto. Qed.

Lemma ext_but_refl x h : ext_but x h h.
Proof. intros l c _ H. exact H. Qed.

Lemma ext_but_trans x h1 h2 h3 :
  ext_but x h1 h2 -> ext_but x h2 h3 -> ext_but x h1 h3.
Proof. intros H12 H23 l c Hne H. auto. Qed.

Lemma ext_ext_but x h h' : ext h h' -> ext_but x h h'.
Proof. intros H l c _ Hl. auto. Qed.

Lemma ext_length h h' : ext h h' -> List.length h <= List.length h'.
Proof.
  intros H. destruct (le_lt_dec (List.length h) (List.length h')) as [|Hlt]; [assumption |].
  destruct (lookup_lt_is_Some_2 h (List.length h')) as [c Hc]; [lia |].
  apply H in Hc. apply lookup_lt_Some in Hc. lia.
Qed.

Lemma push_elem_ext_but lnew v st :
  ext_but lnew (heap st) (heap (push_elem lnew v st))
  /\ seen (push_elem lnew v st) = seen st.
Proof.
  unfold push_elem. destruct (heap st !! lnew) as [[vs | ps] |] eqn:E;
    cbn; split; try reflexivity; try apply ext_but_refl.
  intros l c Hne Hl. rewrite list_lookup_insert_ne by congruence. exact Hl.
Qed.

Lemma write_prop_ext_but lnew k v st :
  ext_but lnew (heap st) (heap (write_prop lnew k v st))
  /\ seen (write_prop lnew k v st) = seen st.
Proof.
  unfold write_prop. destruct (heap st !! lnew) as [[vs | ps] |] eqn:E;
    cbn; split; try reflexivity; try apply ext_but_refl.
  intros l c Hne Hl. rewrite list_lookup_insert_ne by congruence. exact Hl.
Qed.

Section Loops.
Variable rec : Value -> list PathElem -> State -> option (Value * State).
Hypothesis Hrec : preserving rec.

Lemma map_elems_ext lnew path elems : forall i st st',
  map_elems rec lnew path elems i st = Some st' ->
  ext_but lnew (heap st) (heap st') /\ seen st ⊆ seen st'.
Proof.
  induction elems as [| v elems IH]; intros i st st' H; cbn [map_elems] in H.
  - inversion H; subst. split; [apply ext_but_refl | reflexivity].
  - destruct (rec _ _ st) as [[v' st1] |] eqn:E; [| discriminate].
    destruct (Hrec _ _ _ _ _ E) as [H1 H2].
    destruct (push_elem_ext_but lnew v' st1) as [H3 H4].
    destruct (IH _ _ _ H) as [H5 H6].
    split.
    + eapply ext_but_trans; [apply ext_ext_but; exact H1 |].
      eapply ext_but_trans; eassumption.
    + rewrite H4 in H6. set_solver.
Qed.

Lemma each_key_ext lnew path props : forall st st',
  each_key rec lnew path props st = Some st' ->
  ext_but lnew (heap st) (heap st') /\ seen st ⊆ seen st'.
Proof.
  induction props as [| p props IH]; intros st st' H; cbn [each_key] in H.
  - inversion H; subst. split; [apply ext_but_refl | reflexivity].
  - destruct (key p) as [k | id]; [| eauto].
    destruct (enumerable p); cbn [negb] in H; [| eauto].
    destruct (rec _ _ st) as [[v' st1] |] eqn:E; [| discriminate].
    destruct (Hrec _ _ _ _ _ E) as [H1 H2].
    destruct (write_prop_ext_but lnew k v' st1) as [H3 H4].
    destruct (IH _ _ H) as [H5 H6].
    split.
    + eapply ext_but_trans; [apply ext_ext_but; exact H1 |].
      eapply ext_but_trans; eassumption.
    + rewrite H4 in H6. set_solver.
Qed.

End Loops.

Section WithRegex.
Variable rx : RegExp.

Lemma alloc_ext c st :
  ext (heap st) (heap (snd (alloc c st)))
  /\ fst (alloc c st) = List.length (heap st)
  /\ heap (snd (alloc c st)) !! List.length (heap st) = Some c
  /\ seen (snd (alloc c st)) = seen st.
Proof.
  unfold alloc. cbn. repeat split.
  - intros l c' H. apply lookup_app_l_Some. exact H.
  - rewrite lookup_app_r by lia. rewrite Nat.sub_diag. reflexivity.
Qed.

(** Frame: a call changes no cell that existed before it, and only adds to
    [seen]. *)
Lemma deepReplace_preserving fuel : preserving (deepReplace rx fuel).
Proof.
  induction fuel as [| fuel IH]; intros v p st r st' H; [discriminate |].
  cbn [deepReplace] in H.
  destruct (unwrapProxy (heap st) v) as [| | b | n | s | l] eqn:Eu;
    try (inversion H; subst; split; [apply ext_refl | reflexivity]).
  - destruct (String_replace rx (lastIndex st) s) as [s' li].
    inversion H; subst. cbn. split; [apply ext_refl | reflexivity].
  - destruct (bool_decide (l ∈ seen st)) eqn:Es.
    + inversion H; subst. cbn. split; [apply ext_refl | reflexivity].
    + cbn [heap] in H.
      destruct (heap st !! l) as [[elems | props] |] eqn:El; [| | discriminate].
      * unfold alloc in H. cbn [heap seen lastIndex warnings] in H.
        destruct (map_elems _ _ _ _ _ _) as [st3 |] eqn:Em; [| discriminate].
        inversion H; subst.
        destruct (map_elems_ext _ IH _ _ _ _ _ _ Em) as [H1 H2]. cbn in H1, H2.
        split; [| set_solver].
        intros l' c Hl'. apply H1.
        -- apply lookup_lt_Some in Hl'. lia.
        -- apply lookup_app_l_Some. exact Hl'.
      * unfold alloc in H. cbn [heap seen lastIndex warnings] in H.
        destruct (each_key _ _ _ _ _) as [st3 |] eqn:Em; [| discriminate].
        inversion H; subst.
        destruct (each_key_ext _ IH _ _ _ _ _ Em) as [H1 H2]. cbn in H1, H2.
        split; [| set_solver].
        intros l' c Hl'. apply H1.
        -- apply lookup_lt_Some in Hl'. lia.
        -- apply lookup_app_l_Some. exact Hl'.
Qed.


(** ** Termination *)

Lemma unseen_empty n : unseen n ∅ = n.
Proof.
  unfold unseen. replace (set_seq 0 n ∖ ∅ : gset nat) with (set_seq 0 n : gset nat)
    by set_solver.
  apply size_set_seq.
Qed.

Lemma unseen_mono n (s s' : gset nat) : s ⊆ s' -> unseen n s' <= unseen n s.
Proof. intros H. unfold unseen. apply subseteq_size. set_solver. Qed.

Lemma unseen_add n l (s : gset nat) :
  l < n -> l ∉ s -> unseen n ({[l]} ∪ s) < unseen n s.
Proof.
  intros Hl Hs. unfold unseen. apply subset_size.
  apply strict_spec_alt. split; [set_solver |].
  intros Heq.
  assert (Hin : l ∈ (set_seq 0 n ∖ s : gset nat)).
  { apply elem_of_difference. split; [| assumption].
    apply elem_of_set_seq. lia. }
  rewrite <- Heq in Hin. set_solver.
Qed.

Lemma get_prop_In k props v :
  get_prop k props = Some v -> In v (map value props).
Proof.
  induction props as [| p props IH]; cbn; [discriminate |].
  destruct (bool_decide (key p = k)); intros H.
  - inversion H. auto.
  - auto.
Qed.

Section Closed.
Variable h0 : Heap.
Hypothesis Hclosed : heap_closed h0.
#[local] Abbreviation N0 := (List.length h0).

Lemma ext_lookup h l c :
  ext h0 h -> l < N0 -> h !! l = Some c -> h0 !! l = Some c.
Proof.
  intros He Hl Hc. destruct (lookup_lt_is_Some_2 h0 l Hl) as [c' Hc'].
  pose proof (He _ _ Hc') as Hc''. congruence.
Qed.

Lemma cell_closed h l c :
  ext h0 h -> l < N0 -> h !! l = Some c ->
  Forall (value_closed N0) (cell_values c).
Proof. intros He Hl Hc. eapply Hclosed. eapply ext_lookup; eassumption. Qed.

Lemma unwrap_closed h v :
  ext h0 h -> value_closed N0 v -> value_closed N0 (unwrapProxy h v).
Proof.
  intros He Hv. destruct v as [| | b | n | s | l]; try exact I.
  cbn [unwrapProxy]. cbn in Hv.
  destruct (h !! l) as [[elems | props] |] eqn:El; try exact Hv.
  destruct (get_prop _ props) as [raw |] eqn:Er; [| exact Hv].
  destruct (truthy raw); [| exact Hv].
  pose proof (cell_closed h l _ He Hv El) as Hc. cbn in Hc.
  rewrite List.Forall_forall in Hc. apply Hc. eapply get_prop_In. eassumption.
Qed.

Lemma ext_but_fresh lnew h h' :
  N0 <= lnew -> ext h0 h -> ext_but lnew h h' -> ext h0 h'.
Proof.
  intros Hn He Hb l c Hl. apply Hb; [| auto].
  apply lookup_lt_Some in Hl. lia.
Qed.

Section LoopsTotal.
Variable rec : Value -> list PathElem -> State -> option (Value * State).
Variable bound : nat.
Hypothesis Hrec : preserving rec.
Hypothesis Htotal : forall v p st,
  ext h0 (heap st) -> value_closed N0 v -> unseen N0 (seen st) < bound ->
  exists r st', rec v p st = Some (r, st').

Lemma map_elems_total lnew path elems : forall i st,
  N0 <= lnew -> ext h0 (heap st) -> Forall (value_closed N0) elems ->
  unseen N0 (seen st) < bound ->
  exists st', map_elems rec lnew path elems i st = Some st'.
Proof.
  induction elems as [| v elems IH]; intros i st Hn He Hc Hu; cbn [map_elems].
  - eauto.
  - inversion Hc as [| ? ? Hv Hc']; subst.
    destruct (Htotal (unwrapProxy (heap st) v) (path ++ [PIndex i]) st)
      as (v' & st1 & E); [assumption | apply unwrap_closed; assumption | assumption |].
    rewrite E. destruct (Hrec _ _ _ _ _ E) as [H1 H2].
    destruct (push_elem_ext_but lnew v' st1) as [H3 H4].
    apply IH; [assumption | | assumption |].
    + eapply ext_but_fresh; [eassumption | | eassumption].
      eapply ext_trans; eassumption.
    + rewrite H4. pose proof (unseen_mono N0 _ _ H2). lia.
Qed.

Lemma each_key_total lnew path props : forall st,
  N0 <= lnew -> ext h0 (heap st) -> Forall (value_closed N0) (map value props) ->
  unseen N0 (seen st) < bound ->
  exists st', each_key rec lnew path props st = Some st'.
Proof.
  induction props as [| p props IH]; intros st Hn He Hc Hu; cbn [each_key].
  - eauto.
  - cbn [map] in Hc. inversion Hc as [| ? ? Hv Hc']; subst.
    destruct (key p) as [k | id]; [| auto].
    destruct (enumerable p); cbn [negb]; [| auto].
    destruct (Htotal (unwrapProxy (heap st) (value p)) (path ++ [PKey k]) st)
      as (v' & st1 & E); [assumption | apply unwrap_closed; assumption | assumption |].
    rewrite E. destruct (Hrec _ _ _ _ _ E) as [H1 H2].
    destruct (write_prop_ext_but lnew k v' st1) as [H3 H4].
    apply IH; [assumption | | assumption |].
    + eapply ext_but_fresh; [eassumption | | eassumption].
      eapply ext_trans; eassumption.
    + rewrite H4. pose proof (unseen_mono N0 _ _ H2). lia.
Qed.

End LoopsTotal.

Lemma deepReplace_total fuel : forall v p st,
  ext h0 (heap st) -> value_closed N0 v -> unseen N0 (seen st) < fuel ->
  exists r st', deepReplace rx fuel v p st = Some (r, st').
Proof.
  induction fuel as [| fuel IH]; intros v p st He Hv Hu; [lia |].
  cbn [deepReplace].
  pose proof (unwrap_closed _ _ He Hv) as Hv'.
  destruct (unwrapProxy (heap st) v) as [| | b | n | s | l] eqn:Eu; eauto.
  - destruct (String_replace rx (lastIndex st) s) as [s' li]. eauto.
  - cbn in Hv'. destruct (bool_decide (l ∈ seen st)) eqn:Es; [eauto |].
    apply bool_decide_eq_false in Es.
    pose proof (unseen_add N0 l (seen st) Hv' Es) as Hlt.
    pose proof (ext_length _ _ He) as Hlen.
    cbn [heap].
    destruct (lookup_lt_is_Some_2 (heap st) l) as [c Hc]; [lia |].
    rewrite Hc.
    pose proof (cell_closed _ _ _ He Hv' Hc) as Hcc.
    destruct c as [elems | props]; unfold alloc;
      cbn [heap seen lastIndex warnings].
    + destruct (map_elems_total (deepReplace rx fuel) fuel
                  (deepReplace_preserving fuel) IH
                  (List.length (heap st)) p elems 0
                  {| heap := heap st ++ [Arr []];
                     seen := {[l]} ∪ ({[l]} ∪ seen st);
                     lastIndex := lastIndex st; warnings := warnings st |})
        as [st3 E]; [lia | | exact Hcc | | rewrite E; eauto].
      * cbn. intros l' c' Hl'. apply lookup_app_l_Some. auto.
      * cbn. replace ({[l]} ∪ ({[l]} ∪ seen st)) with ({[l]} ∪ seen st) by set_solver.
        lia.
    + destruct (each_key_total (deepReplace rx fuel) fuel
                  (deepReplace_preserving fuel) IH
                  (List.length (heap st)) p props
                  {| heap := heap st ++ [Obj []];
                     seen := {[l]} ∪ seen st;
                     lastIndex := lastIndex st; warnings := warnings st |})
        as [st3 E]; [lia | | exact Hcc | | rewrite E; eauto].
      * cbn. intros l' c' Hl'. apply lookup_app_l_Some. auto.
      * cbn. lia.
Qed.

End Closed.

(** ** The shape of the result *)

Lemma val_ok_mono n0 (s s' : gset nat) n n' v :
  s ⊆ s' -> n <= n' -> val_ok n0 s n v -> val_ok n0 s' n' v.
Proof.
  intros Hs Hn. destruct v; cbn; auto.
  intros [[H1 H2] | H]; [left; split; [assumption | set_solver] | right; lia].
Qed.

Lemma assign_values n0 s n k v ps :
  val_ok n0 s n v -> Forall (val_ok n0 s n) (map value ps) ->
  Forall (val_ok n0 s n) (map value (assign k v ps)).
Proof.
  intros Hv Hps. unfold assign. destruct (bool_decide (k = _)); [assumption |].
  induction ps as [| p ps IH]; cbn [assign_prop map].
  - constructor; [assumption | constructor].
  - cbn [map] in Hps. inversion Hps; subst.
    destruct (bool_decide (key p = KString k)); cbn [map value];
      constructor; auto.
Qed.

Lemma push_elem_length lnew v st :
  List.length (heap (push_elem lnew v st)) = List.length (heap st).
Proof.
  unfold push_elem. destruct (heap st !! lnew) as [[vs | ps] |]; cbn;
    rewrite ?length_insert; reflexivity.
Qed.

Lemma write_prop_length lnew k v st :
  List.length (heap (write_prop lnew k v st)) = List.length (heap st).
Proof.
  unfold write_prop. destruct (heap st !! lnew) as [[vs | ps] |]; cbn;
    rewrite ?length_insert; reflexivity.
Qed.

Lemma push_elem_fresh_ok n0 lnew v st :
  n0 <= lnew -> fresh_ok n0 st ->
  val_ok n0 (seen st) (List.length (heap st)) v ->
  fresh_ok n0 (push_elem lnew v st).
Proof.
  intros Hn Hf Hv. unfold push_elem.
  destruct (heap st !! lnew) as [[vs | ps] |] eqn:E; try exact Hf.
  intros l c Hl Hc. cbn in *. rewrite length_insert.
  destruct (decide (l = lnew)) as [-> | Hne].
  - rewrite list_lookup_insert_eq in Hc by (eapply lookup_lt_Some; eassumption).
    inversion Hc; subst. cbn. apply Forall_app. split.
    + apply (Hf lnew (Arr vs) Hn E).
    + constructor; [assumption | constructor].
  - rewrite list_lookup_insert_ne in Hc by congruence. eapply Hf; eassumption.
Qed.

Lemma write_prop_fresh_ok n0 lnew k v st :
  n0 <= lnew -> fresh_ok n0 st ->
  val_ok n0 (seen st) (List.length (heap st)) v ->
  fresh_ok n0 (write_prop lnew k v st).
Proof.
  intros Hn Hf Hv. unfold write_prop.
  destruct (heap st !! lnew) as [[vs | ps] |] eqn:E; try exact Hf.
  intros l c Hl Hc. cbn in *. rewrite length_insert.
  destruct (decide (l = lnew)) as [-> | Hne].
  - rewrite list_lookup_insert_eq in Hc by (eapply lookup_lt_Some; eassumption).
    inversion Hc; subst. cbn. apply assign_values; [assumption |].
    apply (Hf lnew (Obj ps) Hn E).
  - rewrite list_lookup_insert_ne in Hc by congruence. eapply Hf; eassumption.
Qed.

Lemma fresh_ok_grow n0 st st' :
  heap st' = heap st -> seen st ⊆ seen st' -> fresh_ok n0 st -> fresh_ok n0 st'.
Proof.
  intros Hh Hs Hf l c Hl Hc. rewrite Hh in *.
  eapply Forall_impl; [eapply Hf; eassumption |].
  intros v. apply val_ok_mono; [assumption | lia].
Qed.

Lemma alloc_fresh_ok n0 c st :
  cell_values c = [] -> fresh_ok n0 st -> fresh_ok n0 (snd (alloc c st)).
Proof.
  intros Hc Hf l c' Hl Hl'. unfold alloc in *. cbn in *.
  rewrite length_app. cbn.
  destruct (decide (l < List.length (heap st))) as [Hlt | Hge].
  - rewrite lookup_app_l in Hl' by assumption.
    eapply Forall_impl; [eapply Hf; eassumption |].
    intros v. apply val_ok_mono; [reflexivity | lia].
  - rewrite lookup_app_r in Hl' by lia.
    destruct (l - List.length (heap st)) as [| d]; cbn in Hl'; [| discriminate].
    inversion Hl'; subst. rewrite Hc. constructor.
Qed.

Section Shape.
Variable h0 : Heap.
Hypothesis Hclosed : heap_closed h0.
#[local] Abbreviation N0 := (List.length h0).

Section LoopsShape.
Variable rec : Value -> list PathElem -> State -> option (Value * State).
Hypothesis Hrec : preserving rec.
Hypothesis Hshape : shaping h0 rec.

Lemma map_elems_shape lnew path elems : forall i st st',
  map_elems rec lnew path elems i st = Some st' ->
  N0 <= lnew -> ext h0 (heap st) -> Forall (value_closed N0) elems ->
  fresh_ok N0 st ->
  fresh_ok N0 st' /\ List.length (heap st) <= List.length (heap st').
Proof.
  induction elems as [| v elems IH]; intros i st st' H Hn He Hc Hf;
    cbn [map_elems] in H.
  - inversion H; subst. auto.
  - inversion Hc as [| ? ? Hv Hc']; subst.
    destruct (rec _ _ st) as [[v' st1] |] eqn:E; [| discriminate].
    destruct (Hrec _ _ _ _ _ E) as [H1 H2].
    destruct (Hshape _ _ _ _ _ E He (unwrap_closed h0 Hclosed _ _ He Hv) Hf)
      as [H3 H4].
    destruct (push_elem_ext_but lnew v' st1) as [H5 H6].
    destruct (IH _ _ _ H) as [H7 H8]; try assumption.
    + eapply ext_but_fresh; [eassumption | | eassumption].
      eapply ext_trans; eassumption.
    + apply push_elem_fresh_ok; assumption.
    + split; [assumption |].
      rewrite push_elem_length in H8. pose proof (ext_length _ _ H1). lia.
Qed.

Lemma each_key_shape lnew path props : forall st st',
  each_key rec lnew path props st = Some st' ->
  N0 <= lnew -> ext h0 (heap st) -> Forall (value_closed N0) (map value props) ->
  fresh_ok N0 st ->
  fresh_ok N0 st' /\ List.length (heap st) <= List.length (heap st').
Proof.
  induction props as [| q props IH]; intros st st' H Hn He Hc Hf;
    cbn [each_key] in H.
  - inversion H; subst. auto.
  - cbn [map] in Hc. inversion Hc as [| ? ? Hv Hc']; subst.
    destruct (key q) as [k | id]; [| eauto].
    destruct (enumerable q); cbn [negb] in H; [| eauto].
    destruct (rec _ _ st) as [[v' st1] |] eqn:E; [| discriminate].
    destruct (Hrec _ _ _ _ _ E) as [H1 H2].
    destruct (Hshape _ _ _ _ _ E He (unwrap_closed h0 Hclosed _ _ He Hv) Hf)
      as [H3 H4].
    destruct (write_prop_ext_but lnew k v' st1) as [H5 H6].
    destruct (IH _ _ H) as [H7 H8]; try assumption.
    + eapply ext_but_fresh; [eassumption | | eassumption].
      eapply ext_trans; eassumption.
    + apply write_prop_fresh_ok; assumption.
    + split; [assumption |].
      rewrite write_prop_length in H8. pose proof (ext_length _ _ H1). lia.
Qed.

End LoopsShape.

Lemma deepReplace_shaping fuel : shaping h0 (deepReplace rx fuel).
Proof.
  induction fuel as [| fuel IH]; intros v p st r st' H He Hv Hf; [discriminate |].
  cbn [deepReplace] in H.
  pose proof (unwrap_closed h0 Hclosed _ _ He Hv) as Hv'.
  destruct (unwrapProxy (heap st) v) as [| | b | n | s | l] eqn:Eu;
    try (inversion H; subst; split; [exact I | exact Hf]).
  - destruct (String_replace rx (lastIndex st) s) as [s' li].
    inversion H; subst. split; [exact I |].
    eapply fresh_ok_grow; [| | exact Hf]; reflexivity.
  - cbn in Hv'. destruct (bool_decide (l ∈ seen st)) eqn:Es.
    + apply bool_decide_eq_true in Es. inversion H; subst. cbn. split.
      * left. auto.
      * eapply fresh_ok_grow; [| | exact Hf]; reflexivity.
    + pose proof (ext_length _ _ He) as Hlen.
      cbn [heap] in H.
      destruct (heap st !! l) as [[elems | props] |] eqn:El; [| | discriminate].
      * pose proof (cell_closed h0 Hclosed _ _ _ He Hv' El) as Hcc.
        unfold alloc in H. cbn [heap seen lastIndex warnings] in H.
        destruct (map_elems _ _ _ _ _ _) as [st3 |] eqn:Em; [| discriminate].
        inversion H; subst.
        destruct (map_elems_shape _ (deepReplace_preserving fuel) IH _ _ _ _ _ _ Em)
          as [H1 H2]; try assumption; try lia.
        -- cbn. intros l' c' Hl'. apply lookup_app_l_Some. auto.
        -- assert (Hf1 : fresh_ok N0
                    {| heap := heap st; seen := {[l]} ∪ ({[l]} ∪ seen st);
                       lastIndex := lastIndex st; warnings := warnings st |})
             by (eapply fresh_ok_grow; [| | exact Hf];
                 [reflexivity | cbn; set_solver]).
           exact (alloc_fresh_ok N0 (Arr []) _ eq_refl Hf1).
        -- split; [| assumption]. cbn in H2. rewrite length_app in H2. cbn in H2.
           right. lia.
      * pose proof (cell_closed h0 Hclosed _ _ _ He Hv' El) as Hcc.
        unfold alloc in H. cbn [heap seen lastIndex warnings] in H.
        destruct (each_key _ _ _ _ _) as [st3 |] eqn:Em; [| discriminate].
        inversion H; subst.
        destruct (each_key_shape _ (deepReplace_preserving fuel) IH _ _ _ _ _ Em)
          as [H1 H2]; try assumption; try lia.
        -- cbn. intros l' c' Hl'. apply lookup_app_l_Some. auto.
        -- assert (Hf1 : fresh_ok N0
                    {| heap := heap st; seen := {[l]} ∪ seen st;
                       lastIndex := lastIndex st; warnings := warnings st |})
             by (eapply fresh_ok_grow; [| | exact Hf];
                 [reflexivity | cbn; set_solver]).
           exact (alloc_fresh_ok N0 (Obj []) _ eq_refl Hf1).
        -- split; [| assumption]. cbn in H2. rewrite length_app in H2. cbn in H2.
           right. lia.
Qed.

End Shape.

(** ** The object built for an object *)

Lemma write_prop_at lnew k v st acc :
  heap st !! lnew = Some (Obj acc) ->
  heap (write_prop lnew k v st) !! lnew = Some (Obj (assign k v acc)).
Proof.
  intros H. unfold write_prop. rewrite H. cbn.
  apply list_lookup_insert_eq. eapply lookup_lt_Some. eassumption.
Qed.

Lemma assign_get_same k v ps :
  k <> str "__proto__" -> get_prop (KString k) (assign k v ps) = Some v.
Proof.
  intros Hk. unfold assign. rewrite bool_decide_eq_false_2 by assumption.
  induction ps as [| p ps IH]; cbn [assign_prop get_prop].
  - cbn. rewrite bool_decide_eq_true_2 by reflexivity. reflexivity.
  - destruct (bool_decide (key p = KString k)) eqn:E; cbn [get_prop key value].
    + rewrite E. reflexivity.
    + rewrite E. exact IH.
Qed.

Lemma assign_get_other k k' v ps :
  k' <> k -> get_prop (KString k) (assign k' v ps) = get_prop (KString k) ps.
Proof.
  intros Hk. unfold assign. destruct (bool_decide (k' = _)); [reflexivity |].
  induction ps as [| p ps IH]; cbn [assign_prop get_prop].
  - cbn. rewrite bool_decide_eq_false_2 by congruence. reflexivity.
  - destruct (bool_decide (key p = KString k')) eqn:E; cbn [get_prop key value].
    + apply bool_decide_eq_true in E.
      rewrite !bool_decide_eq_false_2 by congruence. reflexivity.
    + destruct (bool_decide (key p = KString k)); [reflexivity | exact IH].
Qed.

Lemma assign_copied props k v p acc :
  In p props -> key p = KString k -> enumerable p = true ->
  Forall (copied_from props) acc -> Forall (copied_from props) (assign k v acc).
Proof.
  intros Hin Hk He Hacc. unfold assign. destruct (bool_decide (k = _)); [assumption |].
  induction acc as [| q acc IH]; cbn [assign_prop].
  - constructor; [| constructor]. split; [reflexivity |]. exists k, p. auto.
  - inversion Hacc as [| ? ? Hq Hacc']; subst.
    destruct (bool_decide (key q = KString k)) eqn:E.
    + constructor; [| assumption]. destruct Hq as [Hq1 Hq2]. split; assumption.
    + constructor; auto.
Qed.

Section LoopsObj.
Variable rec : Value -> list PathElem -> State -> option (Value * State).
Hypothesis Hrec : preserving rec.

Lemma each_key_copied all lnew path props : forall st st' acc,
  each_key rec lnew path props st = Some st' ->
  incl props all ->
  heap st !! lnew = Some (Obj acc) -> Forall (copied_from all) acc ->
  exists acc', heap st' !! lnew = Some (Obj acc') /\ Forall (copied_from all) acc'.
Proof.
  induction props as [| p props IH]; intros st st' acc H Hi Hl Hacc;
    cbn [each_key] in H.
  - inversion H; subst. eauto.
  - assert (Hi' : incl props all) by (intros x Hx; apply Hi; right; exact Hx).
    assert (Hp : In p all) by (apply Hi; left; reflexivity).
    destruct (key p) as [k | id] eqn:Ek; [| eauto].
    destruct (enumerable p) eqn:Ee; cbn [negb] in H; [| eauto].
    destruct (rec _ _ st) as [[v' st1] |] eqn:E; [| discriminate].
    destruct (Hrec _ _ _ _ _ E) as [H1 _].
    eapply IH; [exact H | exact Hi' | |].
    + apply write_prop_at. apply H1. exact Hl.
    + eapply assign_copied; eassumption.
Qed.

Lemma each_key_keeps k lnew path props : forall st st' acc,
  each_key rec lnew path props st = Some st' ->
  ~ In (KString k) (map key props) ->
  heap st !! lnew = Some (Obj acc) ->
  exists acc', heap st' !! lnew = Some (Obj acc')
               /\ get_prop (KString k) acc' = get_prop (KString k) acc.
Proof.
  induction props as [| p props IH]; intros st st' acc H Hn Hl;
    cbn [each_key] in H.
  - inversion H; subst. eauto.
  - cbn [map] in Hn.
    assert (Hn' : ~ In (KString k) (map key props)) by (intros X; apply Hn; right; exact X).
    destruct (key p) as [k' | id] eqn:Ek; [| eauto].
    destruct (enumerable p) eqn:Ee; cbn [negb] in H; [| eauto].
    destruct (rec _ _ st) as [[v' st1] |] eqn:E; [| discriminate].
    destruct (Hrec _ _ _ _ _ E) as [H1 _].
    destruct (IH _ _ _ H Hn' (write_prop_at lnew k' v' st1 acc (H1 _ _ Hl)))
      as (acc' & F1 & F2).
    exists acc'. split; [exact F1 |]. rewrite F2.
    apply assign_get_other. intros ->. apply Hn. left. reflexivity.
Qed.

Lemma each_key_app lnew path pre post st :
  each_key rec lnew path (pre ++ post) st
  = match each_key rec lnew path pre st with
    | Some st1 => each_key rec lnew path post st1
    | None => None
    end.
Proof.
  revert st. induction pre as [| p pre IH]; intros st; cbn [app each_key].
  - reflexivity.
  - destruct (key p); [| apply IH].
    destruct (negb (enumerable p)); [apply IH |].
    destruct (rec _ _ st) as [[v' st1] |]; [apply IH | reflexivity].
Qed.

End LoopsObj.

(** A reference to an object that is already in [seen] comes back as it
    is. *)
Lemma deepReplace_seen fuel st l props path :
  heap st !! l = Some (Obj props) ->
  get_prop (KString (str "__raw__")) props = None ->
  l ∈ seen st ->
  deepReplace rx (S fuel) (unwrapProxy (heap st) (VRef l)) path st
  = Some (VRef l, {| heap := heap st; seen := seen st;
                     lastIndex := lastIndex st;
                     warnings := warnings st ++ [path] |}).
Proof.
  intros Hl Hr Hs.
  assert (Hu : unwrapProxy (heap st) (VRef l) = VRef l).
  { cbn [unwrapProxy]. rewrite Hl, Hr. reflexivity. }
  rewrite Hu. cbn [deepReplace]. rewrite Hu.
  rewrite bool_decide_eq_true_2 by assumption. reflexivity.
Qed.

(** ** [lastIndex] is not observed *)

Lemma String_replace_lastIndex li1 li2 s :
  String_replace rx li1 s = String_replace rx li2 s.
Proof. reflexivity. Qed.

Lemma push_elem_agree lnew v st1 st2 :
  agree st1 st2 -> agree (push_elem lnew v st1) (push_elem lnew v st2).
Proof.
  intros (H1 & H2 & H3). unfold push_elem, agree. rewrite H1.
  destruct (heap st2 !! lnew) as [[vs | ps] |]; cbn; auto.
Qed.

Lemma write_prop_agree lnew k v st1 st2 :
  agree st1 st2 -> agree (write_prop lnew k v st1) (write_prop lnew k v st2).
Proof.
  intros (H1 & H2 & H3). unfold write_prop, agree. rewrite H1.
  destruct (heap st2 !! lnew) as [[vs | ps] |]; cbn; auto.
Qed.

Section LoopsAgree.
Variable rec : Value -> list PathElem -> State -> option (Value * State).
Hypothesis Hrec : forall v p st1 st2,
  agree st1 st2 -> agree_result (rec v p st1) (rec v p st2).

Lemma map_elems_agree lnew path elems : forall i st1 st2,
  agree st1 st2 ->
  agree_state (map_elems rec lnew path elems i st1)
              (map_elems rec lnew path elems i st2).
Proof.
  induction elems as [| v elems IH]; intros i st1 st2 Ha; cbn [map_elems].
  - exact Ha.
  - pose proof (Hrec (unwrapProxy (heap st1) v) (path ++ [PIndex i]) _ _ Ha) as Hr.
    destruct Ha as (E1 & E2 & E3). rewrite <- E1.
    destruct (rec _ _ st1) as [[r1 s1] |], (rec _ _ st2) as [[r2 s2] |];
      cbn in Hr; try contradiction; [| exact I].
    destruct Hr as [-> Hs]. apply IH. apply push_elem_agree. exact Hs.
Qed.

Lemma each_key_agree lnew path props : forall st1 st2,
  agree st1 st2 ->
  agree_state (each_key rec lnew path props st1)
              (each_key rec lnew path props st2).
Proof.
  induction props as [| q props IH]; intros st1 st2 Ha; cbn [each_key].
  - exact Ha.
  - destruct (key q) as [k | id]; [| auto].
    destruct (negb (enumerable q)); [auto |].
    pose proof (Hrec (unwrapProxy (heap st1) (value q)) (path ++ [PKey k]) _ _ Ha) as Hr.
    destruct Ha as (E1 & E2 & E3). rewrite <- E1.
    destruct (rec _ _ st1) as [[r1 s1] |], (rec _ _ st2) as [[r2 s2] |];
      cbn in Hr; try contradiction; [| exact I].
    destruct Hr as [-> Hs]. apply IH. apply write_prop_agree. exact Hs.
Qed.

End LoopsAgree.

Lemma deepReplace_agree fuel : forall v p st1 st2,
  agree st1 st2 ->
  agree_result (deepReplace rx fuel v p st1) (deepReplace rx fuel v p st2).
Proof.
  induction fuel as [| fuel IH]; intros v p st1 st2 Ha; [exact I |].
  cbn [deepReplace]. pose proof Ha as (E1 & E2 & E3). rewrite <- E1, <- E2.
  destruct (unwrapProxy (heap st1) v) as [| | b | n | s | l];
    try (cbn; split; [reflexivity | exact Ha]).
  - rewrite (String_replace_lastIndex (lastIndex st1) (lastIndex st2)).
    destruct (String_replace rx (lastIndex st2) s) as [s' li].
    cbn. unfold agree. cbn. auto.
  - cbn [heap seen lastIndex warnings].
    destruct (bool_decide (l ∈ seen st1)).
    + cbn. unfold agree. cbn. rewrite E3. auto.
    + destruct (heap st1 !! l) as [[elems | props] |]; [| | exact I].
      * unfold alloc. cbn [heap seen lastIndex warnings].
        match goal with
        | |- agree_result
               match map_elems ?r ?n ?p ?e ?i ?a with _ => _ end
               match map_elems ?r ?n ?p ?e ?i ?b with _ => _ end =>
            pose proof (map_elems_agree r IH n p e i a b) as Hm
        end.
        lapply Hm; [clear Hm; intros Hm | unfold agree; cbn; auto].
        destruct (map_elems _ _ _ _ _ _) as [s1 |],
                 (map_elems _ _ _ _ _ _) as [s2 |];
          cbn in Hm; try contradiction; cbn; auto.
      * unfold alloc. cbn [heap seen lastIndex warnings].
        match goal with
        | |- agree_result
               match each_key ?r ?n ?p ?e ?a with _ => _ end
               match each_key ?r ?n ?p ?e ?b with _ => _ end =>
            pose proof (each_key_agree r IH n p e a b) as Hm
        end.
        lapply Hm; [clear Hm; intros Hm | unfold agree; cbn; auto].
        destruct (each_key _ _ _ _ _) as [s1 |],
                 (each_key _ _ _ _ _) as [s2 |];
          cbn in Hm; try contradiction; cbn; auto.
Qed.

Lemma rewriteBuffered_total h li v :
  heap_closed h -> value_closed (List.length h) v ->
  exists r st', rewriteBuffered rx h li v = Some (r, st').
Proof.
  intros Hc Hv. unfold rewriteBuffered.
  apply (deepReplace_total h Hc); [apply ext_refl | exact Hv |].
  cbn. rewrite unseen_empty. lia.
Qed.


(** A top-level call on a plain object, unfolded to its key loop. *)
Lemma rewriteBuffered_object h li l props :
  h !! l = Some (Obj props) ->
  get_prop (KString (str "__raw__")) props = None ->
  rewriteBuffered rx h li (VRef l)
  = match each_key (deepReplace rx (List.length h)) (List.length h) [] props
            {| heap := h ++ [Obj []]; seen := {[l]} ∪ ∅;
               lastIndex := li; warnings := [] |} with
    | Some st3 => Some (VRef (List.length h), st3)
    | None => None
    end.
Proof.
  intros Hl Hr. unfold rewriteBuffered. cbn [deepReplace heap seen].
  assert (Hu : unwrapProxy h (VRef l) = VRef l)
    by (cbn [unwrapProxy]; rewrite Hl, Hr; reflexivity).
  rewrite Hu. rewrite bool_decide_eq_false_2 by set_solver.
  cbn [heap]. rewrite Hl. reflexivity.
Qed.

End WithRegex.

(** ** Where a result can come from *)

(** A call returns a reference in two ways only: the value was in [seen]
    and comes back as it is, or the reference is to the cell the call
    allocated first. *)
Lemma deepReplace_result rx fuel v p st r st' :
  deepReplace rx fuel v p st = Some (r, st') ->
  match r with
  | VRef l => l ∈ seen st \/ l = List.length (heap st)
  | _ => True
  end.
Proof.
  destruct fuel as [| fuel]; [discriminate |]. cbn [deepReplace]. intros H.
  destruct (unwrapProxy (heap st) v) as [| | b | n | s | l] eqn:Eu;
    try (inversion H; subst; exact I).
  - destruct (String_replace rx (lastIndex st) s) as [s' li].
    inversion H; subst. exact I.
  - destruct (bool_decide (l ∈ seen st)) eqn:Es.
    + inversion H; subst. left. apply bool_decide_eq_true_1 in Es. exact Es.
    + cbn [heap] in H.
      destruct (heap st !! l) as [[elems | props] |]; [| | discriminate];
        unfold alloc in H; cbn [heap seen lastIndex warnings] in H.
      * destruct (map_elems _ _ _ _ _ _) as [st3 |]; [| discriminate].
        inversion H; subst. right. reflexivity.
      * destruct (each_key _ _ _ _ _) as [st3 |]; [| discriminate].
        inversion H; subst. right. reflexivity.
Qed.

(** ** References to input composites are paid for by warnings *)

Lemma list_sum_insert {A : Type} (f : A -> nat) (l : list A) : forall i a b,
  l !! i = Some a ->
  list_sum (map f (<[i := b]> l)) + f a = list_sum (map f l) + f b.
Proof.
  induction l as [| x l IH]; intros i a b H; [discriminate |].
  destruct i as [| i]; simpl in H |- *.
  - inversion H; subst. lia.
  - specialize (IH i a b H). lia.
Qed.

Lemma held_insert n0 (h : Heap) lnew c c' :
  n0 <= lnew -> h !! lnew = Some c ->
  held n0 (<[lnew := c']> h) + originals n0 c = held n0 h + originals n0 c'.
Proof.
  intros Hn Hl. unfold held. rewrite drop_insert_ge by exact Hn.
  apply list_sum_insert. rewrite lookup_drop.
  replace (n0 + (lnew - n0)) with lnew by lia. exact Hl.
Qed.

Lemma held_alloc n0 (h : Heap) c :
  n0 <= List.length h -> held n0 (h ++ [c]) = held n0 h + originals n0 c.
Proof.
  intros Hn. unfold held. rewrite drop_app_le by exact Hn.
  rewrite map_app, list_sum_app. cbn. lia.
Qed.

Lemma held_start (h : Heap) : held (List.length h) h = 0.
Proof. unfold held. rewrite drop_all. reflexivity. Qed.

Lemma originals_push n0 vs v :
  originals n0 (Arr (vs ++ [v]))
  = originals n0 (Arr vs) + Nat.b2n (is_original n0 v).
Proof.
  unfold originals. cbn [cell_values].
  rewrite List.filter_app, length_app. cbn [List.filter].
  destruct (is_original n0 v); reflexivity.
Qed.

Lemma originals_assign n0 k v ps :
  originals n0 (Obj (assign k v ps))
  <= originals n0 (Obj ps) + Nat.b2n (is_original n0 v).
Proof.
  unfold assign. destruct (bool_decide (k = _)); [lia |].
  unfold originals. cbn [cell_values].
  induction ps as [| p ps IH]; cbn [assign_prop map List.filter value].
  - destruct (is_original n0 v); cbn; lia.
  - destruct (bool_decide (key p = KString k)); cbn [map List.filter value].
    + destruct (is_original n0 v), (is_original n0 (value p));
        cbn [List.length Nat.b2n]; lia.
    + destruct (is_original n0 (value p)); cbn [List.length]; lia.
Qed.

Lemma push_elem_held n0 lnew v st :
  n0 <= lnew ->
  held n0 (heap (push_elem lnew v st))
  <= held n0 (heap st) + Nat.b2n (is_original n0 v).
Proof.
  intros Hn. unfold push_elem.
  destruct (heap st !! lnew) as [[vs | ps] |] eqn:E; try lia.
  cbn [heap set_heap].
  pose proof (held_insert n0 (heap st) lnew (Arr vs) (Arr (vs ++ [v])) Hn E) as H.
  rewrite originals_push in H. lia.
Qed.

Lemma write_prop_held n0 lnew k v st :
  n0 <= lnew ->
  held n0 (heap (write_prop lnew k v st))
  <= held n0 (heap st) + Nat.b2n (is_original n0 v).
Proof.
  intros Hn. unfold write_prop.
  destruct (heap st !! lnew) as [[vs | ps] |] eqn:E; try lia.
  cbn [heap set_heap].
  pose proof (held_insert n0 (heap st) lnew (Obj ps) (Obj (assign k v ps)) Hn E) as H.
  pose proof (originals_assign n0 k v ps). lia.
Qed.

Lemma push_elem_warnings lnew v st :
  warnings (push_elem lnew v st) = warnings st.
Proof.
  unfold push_elem. destruct (heap st !! lnew) as [[vs | ps] |]; reflexivity.
Qed.

Lemma write_prop_warnings lnew k v st :
  warnings (write_prop lnew k v st) = warnings st.
Proof.
  unfold write_prop. destruct (heap st !! lnew) as [[vs | ps] |]; reflexivity.
Qed.

Section Paid.
Variable n0 : nat.

Section LoopsPaid.
Variable rec : Value -> list PathElem -> State -> option (Value * State).
Hypothesis Hrec : preserving rec.
Hypothesis Hpaid : forall v p st r st', rec v p st = Some (r, st') ->
  n0 <= List.length (heap st) ->
  held n0 (heap st') + Nat.b2n (is_original n0 r) + List.length (warnings st)
  <= held n0 (heap st) + List.length (warnings st').

Lemma map_elems_paid lnew path elems : forall i st st',
  map_elems rec lnew path elems i st = Some st' ->
  n0 <= lnew -> n0 <= List.length (heap st) ->
  held n0 (heap st') + List.length (warnings st)
  <= held n0 (heap st) + List.length (warnings st').
Proof.
  induction elems as [| v elems IH]; intros i st st' E Hn Hl;
    cbn [map_elems] in E.
  - inversion E; subst. lia.
  - destruct (rec _ _ st) as [[v' st1] |] eqn:Er; [| discriminate].
    pose proof (Hpaid _ _ _ _ _ Er Hl) as H1.
    destruct (Hrec _ _ _ _ _ Er) as [X _]. apply ext_length in X.
    pose proof (push_elem_held n0 lnew v' st1 Hn) as H2.
    pose proof (push_elem_length lnew v' st1) as H3.
    pose proof (push_elem_warnings lnew v' st1) as H4.
    specialize (IH _ _ _ E Hn ltac:(lia)). rewrite H4 in IH. lia.
Qed.

Lemma each_key_paid lnew path props : forall st st',
  each_key rec lnew path props st = Some st' ->
  n0 <= lnew -> n0 <= List.length (heap st) ->
  held n0 (heap st') + List.length (warnings st)
  <= held n0 (heap st) + List.length (warnings st').
Proof.
  induction props as [| q props IH]; intros st st' E Hn Hl;
    cbn [each_key] in E.
  - inversion E; subst. lia.
  - destruct (key q) as [k | id]; [| eapply IH; eassumption].
    destruct (negb (enumerable q)); [eapply IH; eassumption |].
    destruct (rec _ _ st) as [[v' st1] |] eqn:Er; [| discriminate].
    pose proof (Hpaid _ _ _ _ _ Er Hl) as H1.
    destruct (Hrec _ _ _ _ _ Er) as [X _]. apply ext_length in X.
    pose proof (write_prop_held n0 lnew k v' st1 Hn) as H2.
    pose proof (write_prop_length lnew k v' st1) as H3.
    pose proof (write_prop_warnings lnew k v' st1) as H4.
    specialize (IH _ _ E Hn ltac:(lia)). rewrite H4 in IH. lia.
Qed.

End LoopsPaid.

(** Every reference to an input composite that a call returns or stores in
    a cell it allocated is matched by a warning of that call: it got there
    by the [seen] short-circuit and in no other way. *)
Lemma deepReplace_paid rx fuel : forall v p st r st',
  deepReplace rx fuel v p st = Some (r, st') ->
  n0 <= List.length (heap st) ->
  held n0 (heap st') + Nat.b2n (is_original n0 r) + List.length (warnings st)
  <= held n0 (heap st) + List.length (warnings st').
Proof.
  induction fuel as [| fuel IH]; intros v p st r st' H Hl; [discriminate |].
  cbn [deepReplace] in H.
  destruct (unwrapProxy (heap st) v) as [| | b | n | s | l] eqn:Eu;
    try (inversion H; subst; cbn; lia).
  - destruct (String_replace rx (lastIndex st) s) as [s' li].
    inversion H; subst. cbn. lia.
  - destruct (bool_decide (l ∈ seen st)) eqn:Es.
    + inversion H; subst. cbn [heap warnings]. rewrite length_app.
      cbn [List.length]. destruct (is_original n0 (VRef l)); cbn [Nat.b2n]; lia.
    + cbn [heap] in H.
      assert (Hfresh : is_original n0 (VRef (List.length (heap st))) = false)
        by (cbn [is_original]; apply Nat.ltb_ge; exact Hl).
      destruct (heap st !! l) as [[elems | props] |]; [| | discriminate];
        unfold alloc in H; cbn [heap seen lastIndex warnings] in H.
      * destruct (map_elems _ _ _ _ _ _) as [st3 |] eqn:Em; [| discriminate].
        inversion H; subst. rewrite Hfresh. cbn [Nat.b2n].
        pose proof (map_elems_paid _ (deepReplace_preserving rx fuel) IH
                      _ _ _ _ _ _ Em Hl) as Hp.
        cbn [heap warnings] in Hp. rewrite length_app in Hp.
        rewrite (held_alloc n0 (heap st) (Arr []) Hl) in Hp.
        cbn in Hp. specialize (Hp ltac:(lia)). lia.
      * destruct (each_key _ _ _ _ _) as [st3 |] eqn:Em; [| discriminate].
        inversion H; subst. rewrite Hfresh. cbn [Nat.b2n].
        pose proof (each_key_paid _ (deepReplace_preserving rx fuel) IH
                      _ _ _ _ _ Em Hl) as Hp.
        cbn [heap warnings] in Hp. rewrite length_app in Hp.
        rewrite (held_alloc n0 (heap st) (Obj []) Hl) in Hp.
        cbn in Hp. specialize (Hp ltac:(lia)). lia.
Qed.

End Paid.

(** ** The normalised regex is global *)

Lemma normalize_global search replacement :
  has_flag flag_g (flags (normalize search replacement)) = true.
Proof.
  destruct search as [s | r]; cbn [normalize flags]; [reflexivity |].
  destruct (has_flag flag_g (flags r)) eqn:E; [exact E |].
  unfold has_flag. rewrite existsb_app. cbn. apply orb_true_r.
Qed.

(** For a global regex the loop of [replace] reads [lastIndex] as the loop
    of the model of [String_replace] does. *)
Lemma replace_loop_global R S :
  has_flag flag_g (flags R) = true ->
  forall fuel li acc,
    replace_loop R S fuel li acc = collect (engine R) S fuel li acc.
Proof.
  intros Hg. induction fuel as [| fuel IH]; intros li acc;
    cbn [replace_loop collect]; [reflexivity |].
  unfold RegExpBuiltinExec. rewrite Hg. cbn [orb].
  destruct (List.length S <? li); [reflexivity |].
  destruct (exec_at (engine R) S li) as [[s e] |]; [| reflexivity].
  apply IH.
Qed.

Lemma Symbol_replace_global R li S :
  has_flag flag_g (flags R) = true ->
  Symbol_replace R li S = String_replace (engine R) li S.
Proof.
  intros Hg. unfold Symbol_replace, String_replace.
  rewrite Hg, replace_loop_global by exact Hg. reflexivity.
Qed.

Lemma NoDup_key_inj (props : list Property) (p q : Property) :
  NoDup (map key props) -> In p props -> In q props -> key p = key q -> p = q.
Proof.
  induction props as [| x props IH]; intros Hnd Hp Hq Hk; [destruct Hp |].
  cbn [map] in Hnd. apply NoDup_cons in Hnd. destruct Hnd as [Hx Hnd].
  destruct Hp as [-> | Hp], Hq as [-> | Hq]; auto.
  - exfalso. apply Hx. rewrite Hk. apply list_elem_of_In, in_map. exact Hq.
  - exfalso. apply Hx. rewrite <- Hk. apply list_elem_of_In, in_map. exact Hp.
Qed.

(** Claim C7, amended: when [deepReplace] processes a plain object, the
    returned object holds own properties for enumerable, string-keyed
    properties of the source only; every non-enumerable and every
    symbol-keyed property is passed over: it is absent from the returned
    object and stays, untouched, on the source object. *)
Theorem skipped_properties_absent rx h li l props :
  heap_closed h ->
  h !! l = Some (Obj props) ->
  get_prop (KString (str "__raw__")) props = None ->
  NoDup (map key props) ->
  exists lnew st' props',
    rewriteBuffered rx h li (VRef l) = Some (VRef lnew, st')
    /\ heap st' !! lnew = Some (Obj props')
    /\ heap st' !! l = Some (Obj props)
    /\ Forall (copied_from props) props'
    /\ (forall p, In p props -> skipped p -> ~ In (key p) (map key props')).
Proof.
  intros Hc Hl Hr Hnd.
  assert (Hlt : l < List.length h) by (eapply lookup_lt_Some; eassumption).
  destruct (rewriteBuffered_total rx h li (VRef l) Hc Hlt) as (r & st' & E).
  pose proof E as E'. rewrite (rewriteBuffered_object rx h li l props Hl Hr) in E'.
  destruct (each_key _ _ _ _ _) as [st3 |] eqn:Ek; [| discriminate].
  inversion E'; subst r st3. clear E'.
  destruct (each_key_copied _ (deepReplace_preserving rx _) props _ _ _ _ _ []
              Ek (incl_refl _)) as (props' & F1 & F2).
  { cbn. rewrite lookup_app_r by lia. rewrite Nat.sub_diag. reflexivity. }
  { constructor. }
  destruct (each_key_ext _ (deepReplace_preserving rx _) _ _ _ _ _ Ek) as [G1 _].
  exists (List.length h), st', props'. repeat split; try assumption.
  - apply G1; [lia |]. cbn. apply lookup_app_l_Some. exact Hl.
  - intros p Hp Hs Hin. apply in_map_iff in Hin. destruct Hin as (q & Hq1 & Hq2).
    rewrite List.Forall_forall in F2. destruct (F2 q Hq2) as (_ & k & p' & K1 & K2 & K3 & K4).
    assert (p = p') by (eapply NoDup_key_inj; eauto; congruence). subst p'.
    destruct Hs as [Hs | [id Hs]]; congruence.
Qed.

(** Claim C6: on every closed store, cyclic or not, the top-level call
    returns a result (the recursion bound is not reached, nothing raises);
    and for an object [a] with an enumerable property [k] that holds [a]
    itself, the property [k] of the returned object is the reference [a],
    while [a] still has its own properties, [k] included. *)
Theorem cycle_safety rx h li v :
  heap_closed h -> value_closed (List.length h) v ->
  (exists r st', rewriteBuffered rx h li v = Some (r, st'))
  /\ (forall a props k,
        v = VRef a -> h !! a = Some (Obj props) ->
        get_prop (KString (str "__raw__")) props = None ->
        NoDup (map key props) ->
        In {| key := KString k; enumerable := true; value := VRef a |} props ->
        k <> str "__proto__" ->
        exists lnew st' props',
          rewriteBuffered rx h li v = Some (VRef lnew, st')
          /\ heap st' !! lnew = Some (Obj props')
          /\ get_prop (KString k) props' = Some (VRef a)
          /\ heap st' !! a = Some (Obj props)).
Proof.
  intros Hc Hv. split; [apply rewriteBuffered_total; assumption |].
  intros a props k -> Hl Hr Hnd Hin Hk.
  assert (Hlt : a < List.length h) by (eapply lookup_lt_Some; eassumption).
  destruct (rewriteBuffered_total rx h li (VRef a) Hc Hv) as (r & st' & E).
  pose proof E as E'. rewrite (rewriteBuffered_object rx h li a props Hl Hr) in E'.
  destruct (each_key _ _ _ _ _) as [st3 |] eqn:Ek; [| discriminate].
  inversion E'; subst r st3. clear E'.
  destruct (each_key_ext _ (deepReplace_preserving rx _) _ _ _ _ _ Ek) as [G1 _].
  apply in_split in Hin. destruct Hin as (pre & post & Hsplit).
  assert (Hpost : ~ In (KString k) (map key post)).
  { rewrite Hsplit, map_app in Hnd. cbn [map key] in Hnd.
    apply NoDup_app in Hnd. destruct Hnd as (_ & _ & Hnd).
    apply NoDup_cons in Hnd. destruct Hnd as [Hx _].
    intros X. apply Hx. apply list_elem_of_In. exact X. }
  rewrite Hsplit, each_key_app in Ek.
  destruct (each_key _ _ _ pre _) as [sta |] eqn:Epre; [| discriminate].
  destruct (each_key_ext _ (deepReplace_preserving rx _) _ _ _ _ _ Epre) as [A1 A2].
  destruct (each_key_copied _ (deepReplace_preserving rx _) pre _ _ _ _ _ []
              Epre (incl_refl _)) as (acca & B1 & _).
  { cbn. rewrite lookup_app_r by lia. rewrite Nat.sub_diag. reflexivity. }
  { constructor. }
  assert (Ha : heap sta !! a = Some (Obj props)).
  { apply A1; [lia |]. cbn. apply lookup_app_l_Some. exact Hl. }
  assert (Hs : a ∈ seen sta) by (cbn in A2; set_solver).
  cbn [each_key key enumerable negb value] in Ek.
  destruct (List.length h) as [| f] eqn:Ef; [lia |].
  rewrite (deepReplace_seen rx f sta a props _ Ha Hr Hs) in Ek.
  match type of Ek with
  | each_key _ _ _ _ (write_prop _ _ _ ?s) = _ => set (stb := s) in Ek
  end.
  destruct (each_key_keeps _ (deepReplace_preserving rx _) k _ _ _ _ _ _ Ek Hpost
              (write_prop_at _ k (VRef a) stb acca B1)) as (props' & C1 & C2).
  exists (S f), st', props'.
  repeat split; try assumption.
  - rewrite C2. apply assign_get_same. exact Hk.
  - apply G1; [lia |]. cbn. apply lookup_app_l_Some. exact Hl.
Qed.

(** Claim C9: the call returns; every cell of the input store is unchanged
    in the final store; the returned value is a scalar or a cell the call
    allocated, never a composite of the input; every value held by a cell
    the call allocated is a scalar, a cell the call allocated, or an input
    composite that is in [seen]; and the references to input composites
    held by the allocated cells are no more than the warnings issued: a
    reference to an input composite enters the result by the [seen]
    short-circuit only. *)
Theorem input_never_mutated rx h li v :
  heap_closed h -> value_closed (List.length h) v ->
  exists r st',
    rewriteBuffered rx h li v = Some (r, st')
    /\ (forall l c, h !! l = Some c -> heap st' !! l = Some c)
    /\ val_ok (List.length h) ∅ (List.length (heap st')) r
    /\ (forall l c, List.length h <= l -> heap st' !! l = Some c ->
          Forall (val_ok (List.length h) (seen st') (List.length (heap st')))
                 (cell_values c))
    /\ held (List.length h) (heap st') <= List.length (warnings st').
Proof.
  intros Hc Hv.
  destruct (rewriteBuffered_total rx h li v Hc Hv) as (r & st' & E).
  exists r, st'. split; [exact E |].
  unfold rewriteBuffered in E.
  destruct (deepReplace_preserving rx _ _ _ _ _ _ E) as [H1 _].
  destruct (deepReplace_shaping rx h Hc _ _ _ _ _ _ E) as [H2 H3];
    [apply ext_refl | exact Hv | |].
  { intros l c Hl Hlc. cbn in Hlc. apply lookup_lt_Some in Hlc. lia. }
  pose proof (deepReplace_result rx _ _ _ _ _ _ E) as H4.
  pose proof (deepReplace_paid (List.length h) rx _ _ _ _ _ _ E
                (Nat.le_refl _)) as H5.
  cbn [heap seen warnings] in H1, H4, H5. rewrite held_start in H5.
  split; [exact H1 |]. split; [| split; [exact H3 |]].
  - destruct r as [| | b | n | s | l]; cbn [val_ok] in *; auto.
    destruct H4 as [H4 | H4]; [apply elem_of_empty in H4; contradiction |].
    right. subst l. destruct H2 as [[H2 _] | H2]; lia.
  - cbn [List.length] in H5. lia.
Qed.

(** Claim C10: the regex object that [replaceInResponse] builds has the
    flag [g], for a search string and for any [RegExp], whatever its flags.
    So [replace] on it, which for a regex without [g] would start the
    search from [lastIndex] when it is sticky, returns the same text and
    leaves the same [lastIndex] whatever [lastIndex] was before the call; it
    is the function [String_replace] that [deepReplace] is defined with;
    and two calls of [deepReplace] from states that differ in [lastIndex]
    return the same result, store, [seen] set and warnings. *)
Theorem lastIndex_never_observed search replacement fuel v p st li1 li2 :
  let regex := normalize search replacement in
  (forall S, Symbol_replace regex li1 S = Symbol_replace regex li2 S)
  /\ (forall S li,
        String_replace (engine regex) li S = Symbol_replace regex li S)
  /\ agree_result
       (deepReplace (engine regex) fuel v p
          {| heap := heap st; seen := seen st; lastIndex := li1;
             warnings := warnings st |})
       (deepReplace (engine regex) fuel v p
          {| heap := heap st; seen := seen st; lastIndex := li2;
             warnings := warnings st |}).
Proof.
  intros regex.
  pose proof (normalize_global search replacement) as Hg. fold regex in Hg.
  split; [| split].
  - intros S. rewrite !Symbol_replace_global by exact Hg.
    apply String_replace_lastIndex.
  - intros S li. symmetry. apply Symbol_replace_global. exact Hg.
  - apply deepReplace_agree. unfold agree. cbn. auto.
Qed.

(** Without the normalisation [lastIndex] would be observed: a sticky
    regex without [g] is matched at its [lastIndex], so the text returned
    depends on it; the object built from it by [normalize] has [g], and
    gives one result whatever [lastIndex] is. *)
Example sticky_search_reads_lastIndex :
  let sticky := {| flags := str "y"; engine := anchored (str "a") (str "b") |} in
  Symbol_replace sticky 0 (str "ca") = (str "ca", 0)
  /\ Symbol_replace sticky 1 (str "ca") = (str "cb", 2)
  /\ flags (normalize (SearchRegExp sticky) (str "b")) = str "yg"
  /\ forall li, Symbol_replace (normalize (SearchRegExp sticky) (str "b")) li
                  (str "ca") = (str "ca", 0).
Proof.
  cbv zeta. split; [vm_compute; reflexivity |].
  split; [vm_compute; reflexivity |].
  split; [vm_compute; reflexivity |].
  intros li. rewrite Symbol_replace_global by reflexivity.
  vm_compute. reflexivity.
Qed.

(** The loop of [replace] on a global regex ends with [lastIndex] at 0, so
    every replacement step of a rewrite starts from the same state. *)
Example lastIndex_after_replace :
  Symbol_replace (normalize (SearchString (str "original")) (str "replaced")) 5
    (str "original in original")
  = (str "replaced in replaced", 0).
Proof. vm_compute. reflexivity. Qed.

Lemma heap_closedb_spec (h : Heap) : heap_closedb h = true -> heap_closed h.
Proof.
  intros H l c Hl. unfold heap_closedb in H. rewrite forallb_forall in H.
  assert (Hin : In c h) by (apply list_elem_of_In; eapply list_elem_of_lookup_2; eassumption).
  specialize (H c Hin). rewrite forallb_forall in H.
  apply List.Forall_forall. intros v Hv. specialize (H v Hv).
  destruct v; cbn in *; auto. apply Nat.ltb_lt. exact H.
Qed.

(** Witness of C6: [a = { name, self: a }]. *)
Lemma cycle_safety_witness :
  exists lnew st' props',
    rewriteBuffered rx_original cyclic 0 (VRef 0) = Some (VRef lnew, st')
    /\ heap st' !! lnew = Some (Obj props')
    /\ get_prop (KString (str "self")) props' = Some (VRef 0)
    /\ heap st' !! 0 = Some (Obj [data "name" (VString (str "an original"));
                                  data "self" (VRef 0)]).
Proof.
  refine (proj2 (cycle_safety rx_original cyclic 0 (VRef 0) _ _)
            0 _ (str "self") eq_refl eq_refl eq_refl _ _ _).
  - apply heap_closedb_spec. reflexivity.
  - cbn. lia.
  - apply (bool_decide_unpack _). vm_compute. exact I.
  - right. left. reflexivity.
  - discriminate.
Defined.

(** Claim C7 as stated fails: for an object with an enumerable, a
    non-enumerable and a symbol-keyed property, the returned object has the
    enumerable string-keyed property only. *)
Lemma hidden_properties_dropped :
  result_props (rewriteBuffered rx_original with_hidden 0 (VRef 0))
  = Some [data "name" (VString (str "replaced"))].
Proof. vm_compute. reflexivity. Qed.

(** Witness of C7 amended: the same object. *)
Lemma skipped_properties_absent_witness :
  exists lnew st' props',
    rewriteBuffered rx_original with_hidden 0 (VRef 0) = Some (VRef lnew, st')
    /\ heap st' !! lnew = Some (Obj props')
    /\ heap st' !! 0 = with_hidden !! 0
    /\ Forall (copied_from (match with_hidden !! 0 with
                            | Some (Obj ps) => ps | _ => [] end)) props'
    /\ (forall p, In p (match with_hidden !! 0 with
                        | Some (Obj ps) => ps | _ => [] end) ->
                  skipped p -> ~ In (key p) (map key props')).
Proof.
  refine (skipped_properties_absent rx_original with_hidden 0 0 _ _ eq_refl eq_refl _).
  - apply heap_closedb_spec. reflexivity.
  - apply (bool_decide_unpack _). vm_compute. exact I.
Defined.

(** Witness of C9: the cyclic store. *)
Lemma input_never_mutated_witness :
  exists r st',
    rewriteBuffered rx_original cyclic 0 (VRef 0) = Some (r, st')
    /\ (forall l c, cyclic !! l = Some c -> heap st' !! l = Some c)
    /\ val_ok 1 ∅ (List.length (heap st')) r
    /\ (forall l c, 1 <= l -> heap st' !! l = Some c ->
          Forall (val_ok 1 (seen st') (List.length (heap st'))) (cell_values c))
    /\ held 1 (heap st') <= List.length (warnings st').
Proof.
  refine (input_never_mutated rx_original cyclic 0 (VRef 0) _ _).
  - apply heap_closedb_spec. reflexivity.
  - cbn. lia.
Defined.

(** A shared (acyclic) reference is short-circuited like a cycle: the second
    occurrence of the inner object is returned as the original, with its
    text not replaced. *)
Example shared_reference_short_circuited :
  match rewriteBuffered rx_original
          [Arr [VRef 1; VRef 1]; Obj [data "t" (VString (str "original"))]]
          0 (VRef 0) with
  | Some (r, st) => Some (r, drop 2 (heap st), warnings st)
  | None => None
  end
  = Some (VRef 2,
          [Arr [VRef 3; VRef 1]; Obj [data "t" (VString (str "replaced"))]],
          [[PIndex 1]]).
Proof. vm_compute. reflexivity. Qed.

End DeepFacts.

Module MultipartFacts.
Import Regex Deep Multipart Orchestrator.

(** ** [split] and [join] are inverse *)

Lemma starts_with_app sep S :
  starts_with sep S = true -> S = sep ++ drop (List.length sep) S.
Proof.
  revert S. induction sep as [| p sep IH]; intros S H; [reflexivity |].
  destruct S as [| c S]; [discriminate |]. cbn in H.
  apply andb_true_iff in H. destruct H as [Hpc H].
  apply Z.eqb_eq in Hpc. subst c. cbn. f_equal. apply IH. exact H.
Qed.

Lemma split_go_skip sep S : forall k cur,
  (k <= List.length S)%nat ->
  split_go sep S k cur = split_go sep (drop k S) 0 cur.
Proof.
  induction S as [| c S IH]; intros k cur Hk.
  - destruct k; [reflexivity | cbn in Hk; lia].
  - destruct k as [| k]; [reflexivity |].
    cbn [split_go drop]. apply IH. cbn in Hk. lia.
Qed.

Lemma split_go_cons sep S k cur :
  exists p ps, split_go sep S k cur = p :: ps.
Proof.
  revert k cur. induction S as [| c S IH]; intros k cur; cbn [split_go].
  - eauto.
  - destruct k; [| apply IH].
    destruct (starts_with sep (c :: S)); [eauto | apply IH].
Qed.

Lemma join_cons sep a b r :
  join sep (a :: b :: r) = a ++ sep ++ join sep (b :: r).
Proof. reflexivity. Qed.

Lemma join_split_go sep : sep <> [] ->
  forall n S cur, (List.length S <= n)%nat ->
    join sep (split_go sep S 0 cur) = cur ++ S.
Proof.
  intros Hsep. induction n as [| n IH]; intros S cur Hn.
  - destruct S; [| cbn in Hn; lia]. cbn. rewrite app_nil_r. reflexivity.
  - destruct S as [| c S]; [cbn; rewrite app_nil_r; reflexivity |].
    cbn [split_go].
    destruct (starts_with sep (c :: S)) eqn:E.
    + pose proof (starts_with_app _ _ E) as Hs.
      destruct sep as [| p sep]; [congruence |].
      cbn [List.length drop] in Hs. injection Hs as Hc Hs.
      replace (List.length (p :: sep) - 1)%nat with (List.length sep)
        by (cbn [List.length]; lia).
      assert (Hlen : (List.length sep <= List.length S)%nat).
      { rewrite Hs. rewrite length_app. lia. }
      rewrite split_go_skip by exact Hlen.
      destruct (split_go_cons (p :: sep) (drop (List.length sep) S) 0 [])
        as (q & qs & Hq).
      pose proof (IH (drop (List.length sep) S) []) as Hj.
      rewrite Hq in *. rewrite join_cons.
      rewrite Hj by (rewrite length_drop; cbn in Hn; lia).
      cbn [app]. rewrite Hc. rewrite <- Hs. reflexivity.
    + rewrite IH by (cbn in Hn; lia). rewrite <- app_assoc. reflexivity.
Qed.

Lemma join_split sep S : sep <> [] -> join sep (split sep S) = S.
Proof.
  intros Hsep. unfold split. destruct sep as [| p sep]; [congruence |].
  apply (join_split_go (p :: sep) Hsep (List.length S) S []). lia.
Qed.

(** A part that has a blank line and declares no content type the callback
    knows comes back as it was: the slip of C8 is confined to parts without
    a blank line. *)
Lemma part_with_blank_line_kept (rx : RegExp) (J : Json) (part : jsstring) :
  (2 <= List.length (split CRLFCRLF part))%nat ->
  match contentTypeMatch (hd [] (split CRLFCRLF part)) with
  | None => True
  | Some ct =>
      includes (str "json") (toLowerCase ct) = false
      /\ includes (str "text") (toLowerCase ct) = false
      /\ includes (str "html") (toLowerCase ct) = false
      /\ includes (str "xml") (toLowerCase ct) = false
  end ->
  processPart rx J part = part.
Proof.
  intros Hlen Hct. unfold processPart.
  destruct (bool_decide (trim part = []) || bool_decide (trim part = str "--"));
    [reflexivity |].
  assert (Hid : hd [] (split CRLFCRLF part) ++ CRLFCRLF
                ++ join CRLFCRLF (tl (split CRLFCRLF part)) = part).
  { pose proof (join_split CRLFCRLF part ltac:(discriminate)) as Hj.
    destruct (split CRLFCRLF part) as [| h [| b bs]]; cbn in Hlen; try lia.
    exact Hj. }
  destruct (contentTypeMatch _) as [ct |]; [| exact Hid].
  destruct Hct as (H1 & H2 & H3 & H4). rewrite H1, H2, H3, H4. exact Hid.
Qed.

(** Claim C8 on the code: for the content type
    [multipart/mixed; boundary=b] the body is rewritten part by part with
    the boundary [b]; a part that declares [image/png] and has no blank
    line (an empty body) is not reproduced as it was: the callback appends
    CR LF CR LF to it, so the rejoined body differs from the original
    one. *)
Theorem part_without_blank_line_grows (rx : RegExp) (J : Json) :
  route (Some (str "multipart/mixed; boundary=b")) false false true
    = MultipartBuffered (str "b")
  /\ processPart rx J (CRLF ++ str "Content-Type: image/png" ++ CRLF)
     = (CRLF ++ str "Content-Type: image/png" ++ CRLF) ++ CRLFCRLF
  /\ rewriteMultipart rx J headers_only (str "b")
     = str "--b" ++ CRLF ++ str "Content-Type: image/png" ++ CRLF
       ++ CRLFCRLF ++ str "--b--" ++ CRLF
  /\ rewriteMultipart rx J headers_only (str "b") <> headers_only.
Proof.
  split; [vm_compute; reflexivity |].
  split; [vm_compute; reflexivity |].
  split; [vm_compute; reflexivity |].
  vm_compute. discriminate.
Qed.

Example preamble_grows :
  rewriteMultipart rx_original no_json with_preamble (str "b")
  = str "preamble" ++ CRLF ++ CRLFCRLF
    ++ str "--b" ++ CRLF ++ str "Content-Type: text/plain" ++ CRLF ++ CRLF
    ++ str "an replaced" ++ CRLF ++ str "--b--" ++ CRLF.
Proof. vm_compute. reflexivity. Qed.

End MultipartFacts.

(* ===================================================================== *)
(** * Further properties of the code                                     *)
(* ===================================================================== *)

Module CodecFacts.
Import Utf8 Regex TextStream Utf8Facts TextFacts.

(** X1: The codec reads back the standard encoder: for every Unicode scalar
    value, its minimal UTF-8 encoding has the length its first byte
    announces, is accepted by [isValidUtf8Sequence], and is decoded by
    [codePointFromUtf8] to the scalar value itself. *)
Theorem standard_encoding_read_back (cp : Z) :
  is_scalar cp ->
  gated (utf8_encode cp)
  /\ isValidUtf8Sequence (utf8_encode cp) = true
  /\ codePointFromUtf8 (utf8_encode cp) = Some cp.
Proof.
  intros Hcp. destruct (encode_decode cp Hcp) as (_ & Hlen & Hv & Hd).
  unfold gated. auto.
Qed.

(** X1 at a concrete input: U+1F30D, a four-byte sequence. *)
Lemma standard_encoding_read_back_witness :
  gated (utf8_encode 0x1f30d)
  /\ isValidUtf8Sequence (utf8_encode 0x1f30d) = true
  /\ codePointFromUtf8 (utf8_encode 0x1f30d) = Some 0x1f30d.
Proof. apply standard_encoding_read_back. unfold is_scalar. lia. Defined.

(** X2: The bit masks of [getUtf8SequenceInfo] as ranges of the byte: 00..7F
    announce one byte, C0..DF two, E0..EF three, F0..F7 four, and the
    continuation bytes 80..BF and F8..FF announce none (length 0). *)
Theorem lead_byte_ranges (b : Z) :
  is_byte b ->
  Utf8.length (getUtf8SequenceInfo b) =
    if b <=? 0x7f then 1%nat
    else if b <=? 0xbf then 0%nat
    else if b <=? 0xdf then 2%nat
    else if b <=? 0xef then 3%nat
    else if b <=? 0xf7 then 4%nat
    else 0%nat.
Proof. exact (info_length_spec b). Qed.

(** X2 at a concrete input: the lead byte E6 announces three bytes. *)
Lemma lead_byte_ranges_witness :
  Utf8.length (getUtf8SequenceInfo 0xe6) = 3%nat.
Proof. apply (lead_byte_ranges 0xe6). unfold is_byte. lia. Defined.





End CodecFacts.

Module WindowFacts.
Import Utf8 Regex TextStream Window Utf8Facts TextFacts.

Lemma feed_carry rx wordLike chunks : forall t,
  utf8Buffer t = [] -> utf8Buffer (fst (feed rx wordLike t chunks)) = [].
Proof.
  induction chunks as [| c chunks IH]; intros t Hb; [exact Hb |].
  cbn [feed].
  pose proof (carry_is_overwritten rx wordLike t c) as Hc.
  destruct (transform rx wordLike t c) as [t1 out1]. cbn [fst] in Hc.
  specialize (IH t1 Hc).
  destruct (feed rx wordLike t1 chunks) as [t2 out2]. exact IH.
Qed.

Lemma stream_is_feed rx wordLike (chunks : list jsstring) :
  rewriteTextStream rx wordLike chunks = snd (feed rx wordLike start chunks).
Proof.
  pose proof (feed_carry rx wordLike chunks start eq_refl) as Hb.
  unfold rewriteTextStream.
  destruct (feed rx wordLike start chunks) as [t out]. cbn [fst snd] in *.
  rewrite (flush_empty rx t Hb). apply app_nil_r.
Qed.

(** X4: The flush of the text stream never emits: after every [transform] the
    byte buffer is empty, so everything the stream enqueues is enqueued by
    the transforms. *)
Theorem text_flush_emits_nothing rx wordLike (chunks : list jsstring) :
  flush rx (fst (feed rx wordLike start chunks)) = []
  /\ rewriteTextStream rx wordLike chunks = snd (feed rx wordLike start chunks).
Proof.
  pose proof (feed_carry rx wordLike chunks start eq_refl) as Hb.
  unfold rewriteTextStream.
  destruct (feed rx wordLike start chunks) as [t out]. cbn [fst snd] in *.
  rewrite (flush_empty rx t Hb). rewrite app_nil_r. auto.
Qed.

Section Quiet.
Variable rx : RegExp.
Variable wordLike : Z -> bool.
Variable t : TextTransformer.
Hypothesis Hbreak : safeBreakPoints t = DEFAULT_SAFE_BREAK_POINTS.

Lemma after_push_quiet cp sc :
  quietb cp = true -> lastSafeIndex sc = 0%nat ->
  is_script CJK (currentScript sc) = false ->
  let sc' := after_push rx wordLike t cp sc in
  codePoints sc' = codePoints sc ++ [cp] /\ lastSafeIndex sc' = 0%nat
  /\ is_script CJK (currentScript sc') = false
  /\ enqueued sc' = enqueued sc.
Proof.
  intros Hq Hl Hc. unfold quietb in Hq.
  apply andb_true_iff in Hq. destruct Hq as [Hq1 Hq2].
  apply negb_true_iff in Hq1, Hq2.
  cbv zeta. unfold after_push. rewrite Hbreak, Hq1.
  destruct (script_of cp) as [[|] |]; [discriminate | |];
    rewrite ?Hc, ?Hl; cbn [is_script andb]; rewrite ?Hl; rewrite ?andb_false_r;
    change (0 <? 0)%nat with false; rewrite ?andb_false_r;
    cbn [codePoints lastSafeIndex currentScript enqueued is_script]; auto.
Qed.

Lemma pushes_quiet c : forall sc,
  forallb quietb c = true -> lastSafeIndex sc = 0%nat ->
  is_script CJK (currentScript sc) = false ->
  codePoints (pushes rx wordLike t c sc) = codePoints sc ++ c
  /\ is_script CJK (currentScript (pushes rx wordLike t c sc)) = false
  /\ enqueued (pushes rx wordLike t c sc) = enqueued sc.
Proof.
  induction c as [| cp c IH]; intros sc Hq Hl Hc.
  - cbn. rewrite app_nil_r. auto.
  - cbn [forallb] in Hq. apply andb_true_iff in Hq. destruct Hq as [Hq1 Hq2].
    destruct (after_push_quiet cp sc Hq1 Hl Hc) as (E1 & E2 & E3 & E4).
    destruct (IH _ Hq2 E2 E3) as (F1 & F2 & F3).
    unfold pushes in *. cbn [fold_left].
    rewrite F1, F3, E1, E4, <- app_assoc. auto.
Qed.

Lemma transform_quiet c :
  utf8Buffer t = [] -> is_script CJK (lastScript t) = false ->
  Forall is_scalar c -> quiet c -> c <> [] ->
  snd (transform rx wordLike t c) = [replaceAll rx c]
  /\ safeBreakPoints (fst (transform rx wordLike t c)) = DEFAULT_SAFE_BREAK_POINTS
  /\ is_script CJK (lastScript (fst (transform rx wordLike t c))) = false.
Proof.
  intros Hb Hs Hc Hq Hne. unfold transform. rewrite Hb. cbn [app].
  rewrite scan_encode by (try assumption; lia).
  match goal with |- context [pushes rx wordLike t c ?s] => set (sc0 := s) end.
  destruct (pushes_quiet c sc0 Hq eq_refl Hs) as (E1 & E2 & E3).
  cbn [codePoints enqueued] in E1, E3. rewrite E1, E3. cbn [app].
  destruct c; [congruence |]. cbn [fst snd safeBreakPoints lastScript]. auto.
Qed.

End Quiet.

Lemma feed_quiet rx wordLike chunks : forall t,
  safeBreakPoints t = DEFAULT_SAFE_BREAK_POINTS ->
  utf8Buffer t = [] -> is_script CJK (lastScript t) = false ->
  Forall (fun c => Forall is_scalar c /\ quiet c /\ c <> []) chunks ->
  snd (feed rx wordLike t chunks) = map (replaceAll rx) chunks.
Proof.
  induction chunks as [| c chunks IH]; intros t H1 H2 H3 Hc; [reflexivity |].
  inversion Hc as [| ? ? (Hs & Hq & Hne) Hc']; subst.
  destruct (transform_quiet rx wordLike t H1 c H2 H3 Hs Hq Hne) as (E1 & E2 & E3).
  pose proof (carry_is_overwritten rx wordLike t c) as E4.
  cbn [feed]. destruct (transform rx wordLike t c) as [t1 out1].
  cbn [fst snd] in *. specialize (IH t1 E2 E4 E3 Hc').
  destruct (feed rx wordLike t1 chunks) as [t2 out2]. cbn [snd] in *.
  subst. reflexivity.
Qed.

Lemma quiet_chunks_ok (chunks : list jsstring) :
  forallb (fun c => forallb is_scalarb c && forallb quietb c
                    && match c with [] => false | _ => true end
                    && (List.length c <=? MAX_SPREAD)%nat) chunks = true ->
  Forall (fun c => Forall is_scalar c /\ quiet c /\ c <> [] /\ spreadable c)
    chunks.
Proof.
  intros H. apply List.Forall_forall. intros c Hc.
  rewrite forallb_forall in H. specialize (H c Hc).
  apply andb_true_iff in H. destruct H as [H H4].
  apply andb_true_iff in H. destruct H as [H H3].
  apply andb_true_iff in H. destruct H as [H1 H2].
  split; [| split; [| split]].
  - apply List.Forall_forall. intros cp Hcp. rewrite forallb_forall in H1.
    apply is_scalarb_spec. auto.
  - exact H2.
  - destruct c; [discriminate | discriminate].
  - apply Nat.leb_le. exact H4.
Qed.

(** X5: A run without break characters is never cut: when no chunk holds a
    member of [DEFAULT_SAFE_BREAK_POINTS] or a CJK character, no safe index
    is ever recorded, the window check never fires, and every chunk is
    replaced and enqueued as a whole, also when it is longer than the
    window of 1024 code points.  The chunks are those whose code points
    one call of [String.fromCodePoint] takes as arguments, at most
    [MAX_SPREAD]: a longer one can make that call throw. *)
Theorem unbroken_chunks_emitted_whole rx wordLike (chunks : list jsstring) :
  Forall (fun c => Forall is_scalar c /\ quiet c /\ c <> [] /\ spreadable c)
    chunks ->
  rewriteTextStream rx wordLike chunks = map (replaceAll rx) chunks.
Proof.
  intros Hc.
  rewrite stream_is_feed.
  apply feed_quiet; auto.
  eapply Forall_impl; [exact Hc |].
  intros c (H1 & H2 & H3 & _). auto.
Qed.

(** X5 at a concrete input: a chunk of 1508 letters and a short one. *)
Lemma unbroken_chunks_emitted_whole_witness :
  rewriteTextStream rx_original (fun _ => true)
    [repeat 0x78 1500 ++ str "original"; str "original2"]
  = map (replaceAll rx_original)
      [repeat 0x78 1500 ++ str "original"; str "original2"].
Proof.
  apply unbroken_chunks_emitted_whole.
  apply quiet_chunks_ok. vm_compute. reflexivity.
Defined.

(** ** What a forced emission loses *)

Section Forced.
Variable rx : RegExp.
Variable wordLike : Z -> bool.
Variable t : TextTransformer.
Hypothesis Hbreak : safeBreakPoints t = DEFAULT_SAFE_BREAK_POINTS.
Hypothesis Hmax : maxWindowSize t = DEFAULT_MAX_WINDOW.





End Forced.




(** ** Text without an occurrence of the search string *)








End WindowFacts.

Module CallbackFacts.
Import Regex JsonStream Callbacks JsonFacts.

Section WithPlatform.
Context {P : Platform}.
Variable rx : RegExp.

(** ** The character loop and the chunking *)

Lemma transform_is_fold (t : JsonTransformer P) c chunk :
  tokens t = [] -> tail_inv t ->
  transform (t, c) chunk = (fold_left step_char chunk t, c).
Proof.
  intros Htk Hi. unfold transform.
  destruct (fold_step_frame chunk t) as (F1 & _ & _ & _ & F5).
  specialize (F5 Hi).
  set (t1 := fold_left step_char chunk t) in *.
  assert (Hsame :
    (if is_escaped (escapeState t1) && negb (ends_with_backslash (buffer t1))
     then set_buffer t1 (buffer t1 ++ [0x5c]) else t1) = t1).
  { destruct (is_escaped (escapeState t1)) eqn:Ee; [| reflexivity].
    rewrite escaped_ends_with_backslash by assumption. reflexivity. }
  rewrite Hsame.
  destruct (is_escaped (escapeState t1)); [reflexivity |].
  rewrite F1, Htk. reflexivity.
Qed.

Lemma feed_from_is_fold chunks : forall (t : JsonTransformer P) c,
  tokens t = [] -> tail_inv t ->
  fold_left transform chunks (t, c) = (fold_left step_char (concat chunks) t, c).
Proof.
  induction chunks as [| chunk chunks IH]; intros t c Htk Hi; [reflexivity |].
  cbn [fold_left concat]. rewrite transform_is_fold by assumption.
  rewrite fold_left_app.
  destruct (fold_step_frame chunk t) as (F1 & _ & _ & _ & F5).
  apply IH; [congruence | auto].
Qed.

Lemma feed_is_fold chunks :
  feed (P := P) chunks
  = (fold_left step_char (concat chunks) start,
     {| enqueued := []; errored := false |}).
Proof. unfold feed. apply feed_from_is_fold; [reflexivity | exact I]. Qed.

(** A character that is no hexadecimal digit never leaves the machine in
    [HighSurrogate]. *)
Lemma step_not_high (t : JsonTransformer P) (char : Z) :
  is_hex char = false -> is_high (escapeState (step_char t char)) = false.
Proof.
  intros Hh. unfold step_char, step_escape. rewrite Hh.
  destruct (escapeState t) eqn:E;
    repeat match goal with
    | |- context [if ?c then _ else _] => destruct c
    end; cbn; rewrite ?E; reflexivity.
Qed.

Lemma plain_end_not_high (S : jsstring) (t : JsonTransformer P) :
  ends_plain S -> is_high (escapeState (fold_left step_char S t)) = false.
Proof.
  unfold ends_plain. intros H.
  destruct (last S) as [c |] eqn:E; [| contradiction].
  apply last_Some in E. destruct E as [pre ->].
  rewrite fold_left_app. cbn [fold_left]. apply step_not_high. exact H.
Qed.

Lemma ends_plain_nonempty (S : jsstring) : ends_plain S -> S <> [].
Proof. unfold ends_plain. intros H ->. exact H. Qed.

Lemma parser_input_plain chunks :
  ends_plain (concat chunks) ->
  flush_reinject (fst (feed (P := P) chunks)) = fst (feed (P := P) chunks)
  /\ parser_input (fst (feed (P := P) chunks)) = Some (concat chunks).
Proof.
  intros Hp. pose proof (plain_end_not_high _ start Hp) as Hh.
  destruct (feed_idle (P := P) chunks) as (_ & _ & _ & _ & Hb & _).
  rewrite feed_is_fold in *. cbn [fst] in *.
  unfold parser_input, flush_reinject. rewrite Hh. split; [reflexivity |].
  rewrite Hb. pose proof (ends_plain_nonempty _ Hp).
  destruct (concat chunks); [congruence | reflexivity].
Qed.

(** ** The callbacks *)

Lemma needs_comma_snoc (tk : list jsstring) (x : jsstring) :
  needs_comma (tk ++ [x]) = negb (is_opener x).
Proof.
  unfold needs_comma, is_opener. rewrite last_snoc.
  rewrite !negb_orb. reflexivity.
Qed.

Lemma value_text_not_opener (v : Scalar) :
  proper P -> is_opener (value_text (P := P) rx v) = false.
Proof.
  intros [Hs Hn]. destruct v as [s | n | [|] |]; cbn [value_text stringify];
    auto.
Qed.

Lemma commas_cons (x : jsstring) (f : list jsstring) :
  commas (x :: f) = x ++ concat (map (fun y => str "," ++ y) f).
Proof.
  revert x. induction f as [| y f IH]; intros x.
  - cbn. rewrite app_nil_r. reflexivity.
  - change (commas (x :: y :: f)) with (x ++ str "," ++ commas (y :: f)).
    rewrite IH. cbn [map concat]. rewrite <- !app_assoc. reflexivity.
Qed.

(** A run of [onvalue] calls: a comma goes in front of every value except
    a first one that follows an opening token. *)
Lemma run_values (vs : list Scalar) : proper P ->
  forall (t : JsonTransformer P) c,
  exists tk,
    run_events rx (t, c) (map value_ vs)
      = (with_tokens t (depth t) (tokens t ++ tk), c)
    /\ concat tk
       = match vs with
         | [] => []
         | v :: rest =>
             (if needs_comma (tokens t) then str "," else [])
             ++ commas (map (value_text (P := P) rx) vs)
         end
    /\ match vs with
       | [] => tk = []
       | _ => needs_comma (tokens t ++ tk) = true
       end.
Proof.
  intros Hp. induction vs as [| v vs IH]; intros t c.
  - exists []. cbn. rewrite app_nil_r. destruct t; auto.
  - cbn [map run_events fold_left on_event].
    set (pre := if needs_comma (tokens t) then [str ","] else []).
    assert (Htk : (if needs_comma (tokens t) then tokens t ++ [str ","]
                   else tokens t) = tokens t ++ pre).
    { unfold pre. destruct (needs_comma (tokens t));
        [reflexivity | rewrite app_nil_r; reflexivity]. }
    change (match v with
            | SString s => stringify_string P (replaceAll rx s)
            | _ => stringify v
            end) with (value_text (P := P) rx v).
    rewrite Htk.
    set (t1 := with_tokens t (depth t) ((tokens t ++ pre) ++ [value_text (P := P) rx v])).
    destruct (IH t1 c) as (tk & E1 & E2 & E3).
    unfold run_events in E1.
    assert (Hn1 : needs_comma (tokens t1) = true).
    { unfold t1. cbn [tokens with_tokens]. rewrite needs_comma_snoc.
      rewrite value_text_not_opener by exact Hp. reflexivity. }
    exists (pre ++ [value_text (P := P) rx v] ++ tk). split; [| split].
    + rewrite E1. unfold t1. cbn [with_tokens tokens depth buffer parser
        inString escapeState unicodeChars highSurrogate lowSurrogate].
      rewrite <- !app_assoc. reflexivity.
    + rewrite !concat_app, E2. cbn [concat]. rewrite app_nil_r.
      rewrite Hn1. cbn [map]. rewrite commas_cons.
      assert (Hpre : concat pre = if needs_comma (tokens t) then str "," else []).
      { unfold pre. destruct (needs_comma (tokens t)); reflexivity. }
      rewrite Hpre. f_equal. f_equal.
      destruct vs as [| w vs]; [reflexivity |].
      cbn [map]. rewrite commas_cons. cbn [concat map].
      rewrite <- !app_assoc. reflexivity.
    + destruct vs as [| w vs].
      * subst tk. rewrite app_nil_r.
        replace (tokens t ++ pre ++ [value_text (P := P) rx v])
          with (tokens t1) by (unfold t1; cbn; rewrite <- app_assoc; reflexivity).
        exact Hn1.
      * replace (tokens t ++ pre ++ [value_text (P := P) rx v] ++ tk)
          with (tokens t1 ++ tk)
          by (unfold t1; cbn; rewrite <- !app_assoc; reflexivity).
        exact E3.
Qed.

Lemma run_events_app (tc : JsonTransformer P * Controller) e1 e2 :
  run_events rx tc (e1 ++ e2) = run_events rx (run_events rx tc e1) e2.
Proof. unfold run_events. apply fold_left_app. Qed.

Lemma opener_needs_no_comma (tk : list jsstring) (x : jsstring) :
  is_opener x = true -> needs_comma (tk ++ [x]) = false.
Proof. intros H. rewrite needs_comma_snoc, H. reflexivity. Qed.

Lemma run_array (vs : list Scalar) : proper P ->
  forall (t : JsonTransformer P) c,
  exists tk,
    run_events rx (t, c) (array_events vs)
      = (with_tokens t (depth t) (tokens t ++ tk), c)
    /\ concat tk = str "[" ++ commas (map (value_text (P := P) rx) vs) ++ str "]"
    /\ needs_comma (tokens t ++ tk) = true.
Proof.
  intros Hp t c. unfold array_events. rewrite !run_events_app.
  set (t1 := with_tokens t (depth t + 1) (tokens t ++ [str "["])).
  change (run_events rx (t, c) [openarray]) with (t1, c).
  destruct (run_values vs Hp t1 c) as (tk & E1 & E2 & _).
  rewrite E1. cbn [run_events fold_left on_event].
  exists ([str "["] ++ tk ++ [str "]"]). split; [| split].
  - unfold t1. cbn [with_tokens tokens depth buffer parser inString
      escapeState unicodeChars highSurrogate lowSurrogate].
    rewrite Z.add_simpl_r, <- !app_assoc. reflexivity.
  - rewrite !concat_app, E2. cbn [concat]. rewrite !app_nil_r.
    unfold t1. cbn [tokens with_tokens].
    rewrite opener_needs_no_comma by reflexivity.
    destruct vs; reflexivity.
  - rewrite !app_assoc. rewrite needs_comma_snoc. reflexivity.
Qed.

Lemma colon_needs_no_comma (tk : list jsstring) (a b : jsstring) :
  needs_comma (tk ++ [a; b; str ":"]) = false.
Proof.
  replace (tk ++ [a; b; str ":"]) with ((tk ++ [a; b]) ++ [str ":"])
    by (rewrite <- app_assoc; reflexivity).
  apply opener_needs_no_comma. reflexivity.
Qed.

(** The members that follow the first one: [onkey] puts the comma. *)
Lemma run_members (ms : list (jsstring * Scalar)) :
  forall (t : JsonTransformer P) c,
  exists tk,
    run_events rx (t, c)
      (flat_map (fun m => [key_ (fst m); value_ (snd m)]) ms)
      = (with_tokens t (depth t) (tokens t ++ tk), c)
    /\ concat tk
       = concat (map (fun y => str "," ++ y) (map (member_text (P := P) rx) ms)).
Proof.
  induction ms as [| m ms IH]; intros t c.
  - exists []. cbn. rewrite app_nil_r. destruct t; auto.
  - cbn [flat_map]. rewrite run_events_app.
    cbn [run_events fold_left on_event app with_tokens tokens depth].
    rewrite colon_needs_no_comma.
    change (match snd m with
            | SString s => stringify_string P (replaceAll rx s)
            | _ => stringify (snd m)
            end) with (value_text (P := P) rx (snd m)).
    match goal with
    | |- context [run_events rx (?x, c) _] => set (t1 := x)
    end.
    destruct (IH t1 c) as (tk & E1 & E2).
    rewrite E1.
    exists ([str ","; stringify_string P (fst m); str ":";
             value_text (P := P) rx (snd m)] ++ tk).
    split.
    + unfold t1. cbn [with_tokens tokens depth buffer parser inString
        escapeState unicodeChars highSurrogate lowSurrogate].
      rewrite <- !app_assoc. reflexivity.
    + rewrite concat_app, E2. cbn [map concat]. unfold member_text.
      rewrite !app_nil_r, <- !app_assoc. reflexivity.
Qed.

Lemma run_object (m : jsstring * Scalar) (ms : list (jsstring * Scalar)) :
  forall (t : JsonTransformer P) c,
  exists tk,
    run_events rx (t, c) (object_events m ms)
      = (with_tokens t (depth t) (tokens t ++ tk), c)
    /\ concat tk
       = str "{" ++ commas (map (member_text (P := P) rx) (m :: ms)) ++ str "}"
    /\ tk <> [].
Proof.
  intros t c. unfold object_events. rewrite !run_events_app.
  cbn [run_events fold_left on_event app with_tokens tokens depth].
  rewrite colon_needs_no_comma.
  change (match snd m with
          | SString s => stringify_string P (replaceAll rx s)
          | _ => stringify (snd m)
          end) with (value_text (P := P) rx (snd m)).
  match goal with
  | |- context [run_events rx (?x, c) _] => set (t1 := x)
  end.
  destruct (run_members ms t1 c) as (tk & E1 & E2).
  rewrite E1. cbn [on_event].
  exists ([str "{"; stringify_string P (fst m); str ":";
           value_text (P := P) rx (snd m)] ++ tk ++ [str "}"]).
  split; [| split].
  - unfold t1. cbn [with_tokens tokens depth buffer parser inString
      escapeState unicodeChars highSurrogate lowSurrogate].
    rewrite Z.add_simpl_r, <- !app_assoc. reflexivity.
  - rewrite !concat_app, E2. cbn [map]. rewrite commas_cons.
    cbn [concat]. unfold member_text.
    rewrite !app_nil_r, <- !app_assoc. reflexivity.
  - discriminate.
Qed.

Lemma run_nested_array (vs ws : list Scalar) : proper P ->
  forall (t : JsonTransformer P) c,
  exists tk,
    run_events rx (t, c) (nested_array_events vs ws)
      = (with_tokens t (depth t) (tokens t ++ tk), c)
    /\ concat tk
       = str "[" ++ commas (map (value_text (P := P) rx) vs)
         ++ str "[" ++ commas (map (value_text (P := P) rx) ws) ++ str "]"
         ++ str "]"
    /\ tk <> [].
Proof.
  intros Hp t c. unfold nested_array_events. rewrite !run_events_app.
  set (t1 := with_tokens t (depth t + 1) (tokens t ++ [str "["])).
  change (run_events rx (t, c) [openarray]) with (t1, c).
  destruct (run_values vs Hp t1 c) as (tk1 & E1 & E2 & _). rewrite E1.
  match goal with
  | |- context [run_events rx (?x, c) (array_events ws)] => set (t2 := x)
  end.
  destruct (run_array ws Hp t2 c) as (tk2 & F1 & F2 & _). rewrite F1.
  cbn [run_events fold_left on_event].
  exists ([str "["] ++ tk1 ++ tk2 ++ [str "]"]). split; [| split].
  - unfold t2, t1. cbn [with_tokens tokens depth buffer parser inString
      escapeState unicodeChars highSurrogate lowSurrogate].
    rewrite Z.add_simpl_r, <- !app_assoc. reflexivity.
  - rewrite !concat_app, E2, F2. cbn [concat]. rewrite !app_nil_r.
    unfold t1. cbn [tokens with_tokens].
    rewrite opener_needs_no_comma by reflexivity.
    destruct vs; cbn [app]; rewrite <- ?app_assoc; reflexivity.
  - discriminate.
Qed.

(** The whole stream, when the parser answers [evs] to the text and the
    callbacks turn [evs] into the tokens of [text]. *)
Lemma stream_of_events chunks evs p1 p2 (text : jsstring) :
  ends_plain (concat chunks) ->
  parser_write P (parser_new P) (concat chunks) = (p1, evs, false) ->
  parser_close P p1 = (p2, [], false) ->
  (forall (t : JsonTransformer P) c, exists tk,
     run_events rx (t, c) evs = (with_tokens t (depth t) (tokens t ++ tk), c)
     /\ concat tk = text /\ tk <> []) ->
  rewriteJsonStream (P := P) rx chunks
  = {| enqueued := [text]; errored := false |}.
Proof.
  intros Hp Hw Hc Hev.
  destruct (parser_input_plain chunks Hp) as [Hr Hi].
  destruct (feed_idle (P := P) chunks) as (Hq & He & Htk & Hpa & _ & _).
  unfold rewriteJsonStream, flush.
  destruct (feed (P := P) chunks) as [t0 c0]. cbn [fst snd] in *.
  rewrite Hi, Hr, Hpa, Hw.
  destruct (Hev (set_parser t0 p1) c0) as (tk & E1 & E2 & E3).
  rewrite E1. cbn [parser with_tokens set_parser]. rewrite Hc.
  cbn [run_events fold_left tokens set_parser with_tokens].
  rewrite Htk. cbn [app].
  destruct tk as [| x tk]; [congruence |].
  cbn [snd]. unfold enqueue. rewrite He, Hq, E2. reflexivity.
Qed.

(** ** Errors *)

Lemma on_event_controller (tc : JsonTransformer P * Controller) ev :
  enqueued (snd (on_event rx tc ev)) = enqueued (snd tc)
  /\ (errored (snd tc) = true \/ ev = error_ ->
      errored (snd (on_event rx tc ev)) = true).
Proof.
  destruct tc as [t c]. destruct ev; cbn [on_event snd error enqueued errored];
    (split; [reflexivity |]); intros [H | H]; try exact H; try discriminate H;
    reflexivity.
Qed.

Lemma run_events_controller evs : forall tc : JsonTransformer P * Controller,
  enqueued (snd (run_events rx tc evs)) = enqueued (snd tc)
  /\ (errored (snd tc) = true \/ In error_ evs ->
      errored (snd (run_events rx tc evs)) = true).
Proof.
  induction evs as [| ev evs IH]; intros tc.
  - cbn. split; [reflexivity |]. intros [H | []]. exact H.
  - cbn [run_events fold_left].
    destruct (on_event_controller tc ev) as [E1 E2].
    destruct (IH (on_event rx tc ev)) as [F1 F2]. unfold run_events in *.
    split; [congruence |]. intros [H | [H | H]].
    + apply F2. left. apply E2. left. exact H.
    + apply F2. left. apply E2. right. exact H.
    + apply F2. right. exact H.
Qed.

Lemma controller_eta (c : Controller) :
  enqueued c = [] -> errored c = true ->
  c = {| enqueued := []; errored := true |}.
Proof. destruct c. cbn. intros -> ->. reflexivity. Qed.

Lemma failed_stream chunks text p1 evs threw :
  parser_input (fst (feed (P := P) chunks)) = Some text ->
  parser_write P (parser_new P) text = (p1, evs, threw) ->
  threw = true \/ In error_ evs ->
  rewriteJsonStream (P := P) rx chunks
  = {| enqueued := []; errored := true |}.
Proof.
  intros Hi Hw Hbad.
  destruct (feed_idle (P := P) chunks) as (Hq & He & Htk & Hpa & _ & _).
  unfold rewriteJsonStream, flush.
  destruct (feed (P := P) chunks) as [t0 c0]. cbn [fst snd] in *.
  rewrite Hi.
  assert (Hp : parser (flush_reinject t0) = parser_new P).
  { unfold flush_reinject. destruct (is_high (escapeState t0)); exact Hpa. }
  rewrite Hp, Hw.
  destruct (run_events_controller evs (set_parser (flush_reinject t0) p1, c0))
    as [R1 R2]. cbn [snd] in R1, R2.
  destruct (run_events rx (set_parser (flush_reinject t0) p1, c0) evs)
    as [t1 c1]. cbn [snd] in R1, R2.
  destruct threw.
  - cbn [snd]. unfold error. rewrite R1, Hq. reflexivity.
  - destruct Hbad as [Hbad | Hbad]; [discriminate |].
    specialize (R2 (or_intror Hbad)).
    destruct (parser_close P (parser t1)) as [[p2 evs2] threw2].
    destruct (run_events_controller evs2 (set_parser t1 p2, c1)) as [S1 S2].
    cbn [snd] in S1, S2.
    destruct (run_events rx (set_parser t1 p2, c1) evs2) as [t2 c2].
    cbn [snd] in S1, S2. specialize (S2 (or_introl R2)).
    destruct threw2.
    + cbn [snd]. unfold error. rewrite S1, R1, Hq. reflexivity.
    + destruct (tokens t2); cbn [snd]; unfold enqueue; rewrite ?S2;
        apply controller_eta; congruence.
Qed.

(** ** The escape machine, one character at a time *)

Lemma step_open (t : JsonTransformer P) :
  escapeState t = Normal \/ escapeState t = HighSurrogate ->
  escapeState (step_char t 0x5c) = Escaped
  /\ unicodeChars (step_char t 0x5c) = unicodeChars t
  /\ highSurrogate (step_char t 0x5c) = highSurrogate t
  /\ lowSurrogate (step_char t 0x5c) = lowSurrogate t.
Proof.
  unfold step_char, step_escape. intros [E | E]; rewrite E; cbn; auto.
Qed.

Lemma step_u (t : JsonTransformer P) :
  escapeState t = Escaped ->
  escapeState (step_char t 0x75)
    = (if truthy (highSurrogate t) then LowSurrogate1 else Unicode1)
  /\ unicodeChars (step_char t 0x75) = []
  /\ highSurrogate (step_char t 0x75) = highSurrogate t
  /\ lowSurrogate (step_char t 0x75) = [].
Proof.
  unfold step_char, step_escape. intros E. rewrite E. cbn. auto.
Qed.

Lemma step_digit (t : JsonTransformer P) (c : Z) :
  escapeState t = Unicode1 \/ escapeState t = Unicode2
  \/ escapeState t = Unicode3 ->
  is_hex c = true ->
  escapeState (step_char t c) = incr (escapeState t)
  /\ unicodeChars (step_char t c) = unicodeChars t ++ [c]
  /\ highSurrogate (step_char t c) = highSurrogate t
  /\ lowSurrogate (step_char t c) = lowSurrogate t.
Proof.
  unfold step_char, step_escape. intros [E | [E | E]] Hc; rewrite E, Hc;
    cbn; auto.
Qed.

Lemma step_high (t : JsonTransformer P) (c : Z) :
  escapeState t = Unicode4 -> is_hex c = true ->
  in_range 0xd800 0xdbff (parseInt16 (unicodeChars t ++ [c])) = true ->
  escapeState (step_char t c) = HighSurrogate
  /\ unicodeChars (step_char t c) = unicodeChars t ++ [c]
  /\ highSurrogate (step_char t c) = Some (unicodeChars t ++ [c])
  /\ lowSurrogate (step_char t c) = lowSurrogate t.
Proof.
  unfold step_char, step_escape. intros E Hc Hr. rewrite E, Hc, Hr.
  cbn. auto.
Qed.

Lemma step_low_digit (t : JsonTransformer P) (c : Z) :
  escapeState t = LowSurrogate1 \/ escapeState t = LowSurrogate2
  \/ escapeState t = LowSurrogate3 ->
  is_hex c = true ->
  escapeState (step_char t c) = incr (escapeState t)
  /\ unicodeChars (step_char t c) = unicodeChars t
  /\ highSurrogate (step_char t c) = highSurrogate t
  /\ lowSurrogate (step_char t c) = lowSurrogate t ++ [c].
Proof.
  unfold step_char, step_escape. intros [E | [E | E]] Hc; rewrite E, Hc;
    cbn; auto.
Qed.

Lemma step_low (t : JsonTransformer P) (c : Z) (hs : jsstring) (H L : Z) :
  escapeState t = LowSurrogate4 -> is_hex c = true ->
  highSurrogate t = Some hs -> truthy (Some hs) = true ->
  parseInt16 hs = Some H ->
  parseInt16 (lowSurrogate t ++ [c]) = Some L ->
  (0xdc00 <= L <= 0xdfff)%Z ->
  escapeState (step_char t c) = Normal
  /\ unicodeChars (step_char t c)
     = toString16 (Z.shiftl (H - 0xd800) 10 + (L - 0xdc00) + 0x10000)
  /\ highSurrogate (step_char t c) = None.
Proof.
  unfold step_char, step_escape. intros E Hc Hh Ht HH HL HLr.
  rewrite E, Hc, Hh, Ht, HL.
  assert (Hr : in_range 0xdc00 0xdfff (Some L) = true).
  { cbn [in_range]. apply andb_true_iff. split; apply Z.leb_le; lia. }
  rewrite Hr. cbn [andb]. cbn [mbind option_bind default]. rewrite HH.
  cbn [default set_buffer set_escape escapeState unicodeChars highSurrogate].
  auto.
Qed.

End WithPlatform.

(** X8: A rejected document errors the stream and emits nothing: when the
    parser throws on the text [flush] writes to it, or reports an error
    through [onerror] while reading it, the controller ends up errored and
    nothing is ever enqueued. *)
Theorem rejected_document_emits_nothing (P : Platform) rx
    (chunks : list jsstring) (text : jsstring) p1 evs threw :
  parser_input (fst (feed (P := P) chunks)) = Some text ->
  parser_write P (parser_new P) text = (p1, evs, threw) ->
  threw = true \/ In error_ evs ->
  rewriteJsonStream (P := P) rx chunks
  = {| enqueued := []; errored := true |}.
Proof. apply failed_stream. Qed.

(** X8 at a concrete input: a parser that answers with the error callback. *)
Lemma rejected_document_emits_nothing_witness :
  rewriteJsonStream (P := rejecting) rx_original [str "{"; str "]"]
  = {| enqueued := []; errored := true |}.
Proof.
  apply (rejected_document_emits_nothing rejecting rx_original
           [str "{"; str "]"] (str "{]") tt [error_] false).
  - reflexivity.
  - reflexivity.
  - right. left. reflexivity.
Defined.

(** X9: The output of the JSON stream does not depend on the chunking: the
    state after the last [transform] is the character loop run over the
    concatenated text, nothing having been enqueued, and the whole run gives
    what it gives for the text delivered as one chunk. *)
Theorem json_chunking_irrelevant (P : Platform) rx (chunks : list jsstring) :
  feed (P := P) chunks
    = (fold_left step_char (concat chunks) start,
       {| enqueued := []; errored := false |})
  /\ rewriteJsonStream (P := P) rx chunks
     = rewriteJsonStream (P := P) rx [concat chunks].
Proof.
  split; [apply feed_is_fold |].
  unfold rewriteJsonStream. rewrite !feed_is_fold.
  cbn [concat]. rewrite app_nil_r. reflexivity.
Qed.

(** X10: Unless the text ends in a hexadecimal digit, [flush] hands the parser
    exactly the concatenated text of the chunks, in one [write]. *)
Theorem parser_receives_whole_text (P : Platform) (chunks : list jsstring) :
  ends_plain (concat chunks) ->
  parser_input (fst (feed (P := P) chunks)) = Some (concat chunks).
Proof. intros Hp. apply (parser_input_plain chunks Hp). Qed.

(** X10 at a concrete input: an array cut after its first comma. *)
Lemma parser_receives_whole_text_witness :
  parser_input (fst (feed (P := silent) [str "[1,"; str "2]"]))
  = Some (concat [str "[1,"; str "2]"]).
Proof. apply parser_receives_whole_text. reflexivity. Defined.

Lemma canned_proper (evs : list Event) : proper (canned evs).
Proof.
  split; intros x; unfold is_opener; cbn [stringify_string stringify_number canned];
    rewrite !bool_decide_eq_false_2 by (cbn; discriminate); reflexivity.
Qed.

(** X11: An array of scalars is re-serialised with every string element
    replaced: when the parser fires, for the text of the stream, the
    callbacks of an array of the scalars [vs], the stream enqueues one
    string, the bracketed, comma-separated texts of [vs], each string
    element having gone through the replacement. *)
Theorem array_of_scalars_rewritten (P : Platform) rx
    (chunks : list jsstring) (vs : list Scalar) p1 p2 :
  proper P ->
  ends_plain (concat chunks) ->
  parser_write P (parser_new P) (concat chunks) = (p1, array_events vs, false) ->
  parser_close P p1 = (p2, [], false) ->
  rewriteJsonStream (P := P) rx chunks
  = {| enqueued := [str "[" ++ commas (map (value_text (P := P) rx) vs) ++ str "]"];
       errored := false |}.
Proof.
  intros Hp He Hw Hc. apply (stream_of_events rx chunks _ p1 p2 _ He Hw Hc).
  intros t c. destruct (run_array rx vs Hp t c) as (tk & E1 & E2 & E3).
  exists tk. repeat split; try assumption.
  intros ->. discriminate.
Qed.

(** X11 at a concrete input: a number, a string and null. *)
Lemma array_of_scalars_rewritten_witness :
  rewriteJsonStream
    (P := canned (array_events [SNumber 0; SString (str "original"); SNull]))
    rx_original [str "[0,"; [0x22] ++ str "original" ++ [0x22] ++ str ",null]"]
  = {| enqueued :=
         [str "[" ++ commas (map (value_text
              (P := canned (array_events [SNumber 0; SString (str "original"); SNull]))
              rx_original)
            [SNumber 0; SString (str "original"); SNull]) ++ str "]"];
       errored := false |}.
Proof.
  apply (array_of_scalars_rewritten (canned _) rx_original _ _ tt tt).
  - apply canned_proper.
  - reflexivity.
  - reflexivity.
  - reflexivity.
Defined.

(** X12: An object with scalar members is re-serialised with every string value
    replaced and every key kept: when the parser fires the callbacks of an
    object with the members [m :: ms], the stream enqueues one string, the
    braced, comma-separated members, each as key, colon, value. *)
Theorem object_of_scalars_rewritten (P : Platform) rx
    (chunks : list jsstring) (m : jsstring * Scalar) ms p1 p2 :
  ends_plain (concat chunks) ->
  parser_write P (parser_new P) (concat chunks)
    = (p1, object_events m ms, false) ->
  parser_close P p1 = (p2, [], false) ->
  rewriteJsonStream (P := P) rx chunks
  = {| enqueued :=
         [str "{" ++ commas (map (member_text (P := P) rx) (m :: ms)) ++ str "}"];
       errored := false |}.
Proof.
  intros He Hw Hc. apply (stream_of_events rx chunks _ p1 p2 _ He Hw Hc).
  intros t c. apply run_object.
Qed.

(** X12 at a concrete input: a string member, and a member whose key is the search string. *)
Lemma object_of_scalars_rewritten_witness :
  rewriteJsonStream
    (P := canned (object_events (str "a", SString (str "original"))
                    [(str "original", SBool true)]))
    rx_original [str "{"; str "}"]
  = {| enqueued :=
         [str "{" ++ commas (map (member_text
              (P := canned (object_events (str "a", SString (str "original"))
                              [(str "original", SBool true)]))
              rx_original)
            [(str "a", SString (str "original")); (str "original", SBool true)])
          ++ str "}"];
       errored := false |}.
Proof.
  apply (object_of_scalars_rewritten (canned _) rx_original _ _ _ tt tt).
  - reflexivity.
  - reflexivity.
  - reflexivity.
Defined.

(** X13: [onopenarray] pushes no separator: when an array follows the scalar
    elements [vs] inside an array, its opening bracket is emitted directly
    behind the text of [vs], without a comma (for [vs] not empty the output
    is no JSON text). *)
Theorem nested_array_gets_no_separator (P : Platform) rx
    (chunks : list jsstring) (vs ws : list Scalar) p1 p2 :
  proper P ->
  ends_plain (concat chunks) ->
  parser_write P (parser_new P) (concat chunks)
    = (p1, nested_array_events vs ws, false) ->
  parser_close P p1 = (p2, [], false) ->
  rewriteJsonStream (P := P) rx chunks
  = {| enqueued :=
         [str "[" ++ commas (map (value_text (P := P) rx) vs)
          ++ str "[" ++ commas (map (value_text (P := P) rx) ws) ++ str "]"
          ++ str "]"];
       errored := false |}.
Proof.
  intros Hp He Hw Hc. apply (stream_of_events rx chunks _ p1 p2 _ He Hw Hc).
  intros t c. apply run_nested_array. exact Hp.
Qed.

(** X13 at a concrete input: the callbacks of an array in an array, behind a number. *)
Lemma nested_array_gets_no_separator_witness :
  rewriteJsonStream
    (P := canned (nested_array_events [SNumber 0] [SNumber 0]))
    rx_original [str "[0,[0]]"]
  = {| enqueued := [str "[0[0]]"]; errored := false |}.
Proof.
  refine (nested_array_gets_no_separator
            (canned (nested_array_events [SNumber 0] [SNumber 0])) rx_original
            [str "[0,[0]]"] [SNumber 0] [SNumber 0] tt tt _ _ _ _).
  - apply canned_proper.
  - reflexivity.
  - reflexivity.
  - reflexivity.
Defined.

(** X14: The escape machine combines a surrogate pair: from [Normal], with no
    high surrogate pending, the twelve characters of two escapes whose
    hexadecimal digits denote a high surrogate [H] and a low surrogate [L]
    bring the machine back to [Normal] with no surrogate pending and with
    [unicodeChars] the hexadecimal text of
    [(H - 0xD800) * 1024 + (L - 0xDC00) + 0x10000]. *)
Theorem surrogate_pair_is_combined (P : Platform) (t : JsonTransformer P)
    (h1 h2 h3 h4 l1 l2 l3 l4 H L : Z) :
  escapeState t = Normal -> truthy (highSurrogate t) = false ->
  forallb is_hex [h1; h2; h3; h4; l1; l2; l3; l4] = true ->
  parseInt16 [h1; h2; h3; h4] = Some H -> 0xd800 <= H <= 0xdbff ->
  parseInt16 [l1; l2; l3; l4] = Some L -> 0xdc00 <= L <= 0xdfff ->
  let t' := fold_left step_char
              ([0x5c; 0x75; h1; h2; h3; h4] ++ [0x5c; 0x75; l1; l2; l3; l4]) t in
  escapeState t' = Normal /\ highSurrogate t' = None
  /\ unicodeChars t'
     = toString16 ((H - 0xd800) * 1024 + (L - 0xdc00) + 0x10000)
  /\ buffer t'
     = buffer t ++ [0x5c; 0x75; h1; h2; h3; h4] ++ [0x5c; 0x75; l1; l2; l3; l4].
Proof.
  intros He Hhs Hx HH HHr HL HLr.
  cbn [forallb] in Hx.
  repeat match type of Hx with
         | _ && _ = true => apply andb_true_iff in Hx; destruct Hx as [? Hx]
         end.
  clear Hx.
  assert (HH' : in_range 0xd800 0xdbff (parseInt16 [h1; h2; h3; h4]) = true).
  { rewrite HH. cbn [in_range]. apply andb_true_iff. split; apply Z.leb_le; lia. }
  cbv zeta. split; [| split; [| split]].
  4:{ apply (fold_step_frame _ t). }
  all: cbn [app fold_left].
  all: destruct (step_open t (or_introl He)) as (S1 & U1 & G1 & W1);
    set (t1 := step_char t 0x5c) in *.
  all: destruct (step_u t1 S1) as (S2 & U2 & G2 & W2);
    rewrite G1, Hhs in S2; set (t2 := step_char t1 0x75) in *.
  all: destruct (step_digit t2 h1 (or_introl S2)) as (S3 & U3 & G3 & W3);
    [assumption |]; rewrite S2 in S3; rewrite U2 in U3;
    set (t3 := step_char t2 h1) in *.
  all: destruct (step_digit t3 h2 (or_intror (or_introl S3)))
    as (S4 & U4 & G4 & W4);
    [assumption |]; rewrite S3 in S4; rewrite U3 in U4;
    set (t4 := step_char t3 h2) in *.
  all: destruct (step_digit t4 h3 (or_intror (or_intror S4)))
    as (S5 & U5 & G5 & W5);
    [assumption |]; rewrite S4 in S5; rewrite U4 in U5;
    set (t5 := step_char t4 h3) in *.
  all: cbn [incr app] in S3, S4, S5, U3, U4, U5.
  all: destruct (step_high t5 h4 S5) as (S6 & U6 & G6 & W6);
    [assumption | rewrite U5; exact HH' |]; rewrite U5 in U6, G6;
    cbn [app] in U6, G6; set (t6 := step_char t5 h4) in *.
  all: destruct (step_open t6 (or_intror S6)) as (S7 & U7 & G7 & W7);
    set (t7 := step_char t6 0x5c) in *.
  all: destruct (step_u t7 S7) as (S8 & U8 & G8 & W8);
    rewrite G7, G6 in S8, G8; cbn [truthy] in S8;
    set (t8 := step_char t7 0x75) in *.
  all: destruct (step_low_digit t8 l1 (or_introl S8)) as (S9 & U9 & G9 & W9);
    [assumption |]; rewrite S8 in S9; rewrite W8 in W9; rewrite G8 in G9;
    set (t9 := step_char t8 l1) in *.
  all: destruct (step_low_digit t9 l2 (or_intror (or_introl S9)))
    as (S10 & U10 & G10 & W10);
    [assumption |]; rewrite S9 in S10; rewrite W9 in W10; rewrite G9 in G10;
    set (t10 := step_char t9 l2) in *.
  all: destruct (step_low_digit t10 l3 (or_intror (or_intror S10)))
    as (S11 & U11 & G11 & W11);
    [assumption |]; rewrite S10 in S11; rewrite W10 in W11;
    rewrite G10 in G11; set (t11 := step_char t10 l3) in *.
  all: cbn [incr app] in S9, S10, S11, W9, W10, W11.
  all: destruct (step_low t11 l4 [h1; h2; h3; h4] H L S11) as (S12 & U12 & G12);
    [assumption | exact G11 | reflexivity | exact HH
    | rewrite W11; exact HL | exact HLr |].
  - exact S12.
  - exact G12.
  - rewrite U12, Z.shiftl_mul_pow2 by lia. reflexivity.
Qed.

(** X14 at a concrete input: the pair D834 DD1E. *)
Lemma surrogate_pair_is_combined_witness :
  let t' := fold_left step_char
              (str "\uD834" ++ str "\uDD1E") (start (P := silent)) in
  escapeState t' = Normal /\ highSurrogate t' = None
  /\ unicodeChars t'
     = toString16 ((0xd834 - 0xd800) * 1024 + (0xdd1e - 0xdc00) + 0x10000)
  /\ buffer t' = buffer (start (P := silent)) ++ str "\uD834" ++ str "\uDD1E".
Proof.
  apply (surrogate_pair_is_combined silent start
           0x44 0x38 0x33 0x34 0x44 0x44 0x31 0x45 0xd834 0xdd1e);
    try reflexivity; lia.
Defined.

End CallbackFacts.

Module TreeFacts.
Import Regex Deep Tree DeepFacts.
Local Open Scope nat_scope.

(** Induction on documents, with the hypothesis for every element and
    every member. *)
Lemma JsonValue_induction (P : JsonValue -> Prop) :
  P JNull -> (forall b, P (JBool b)) -> (forall n, P (JNumber n)) ->
  (forall s, P (JString s)) ->
  (forall items, Forall P items -> P (JArray items)) ->
  (forall members, Forall (fun m => P (snd m)) members -> P (JObject members)) ->
  forall j, P j.
Proof.
  intros Hnull Hbool Hnum Hstr Harr Hobj.
  fix IH 1. intros [| b | n | s | items | members].
  - exact Hnull.
  - apply Hbool.
  - apply Hnum.
  - apply Hstr.
  - apply Harr. induction items as [| j items IHitems]; constructor.
    + apply IH.
    + exact IHitems.
  - apply Hobj. induction members as [| m members IHm]; constructor.
    + apply IH.
    + exact IHm.
Qed.

(** ** Reading a document back *)

Lemma read_items_ext (read1 read2 : Value -> option JsonValue) vs js :
  (forall v j, In v vs -> read1 v = Some j -> read2 v = Some j) ->
  read_items read1 vs = Some js -> read_items read2 vs = Some js.
Proof.
  revert js. induction vs as [| v vs IH]; intros js H E; [exact E |].
  cbn [read_items] in *.
  destruct (read1 v) as [j |] eqn:E1; [| discriminate].
  destruct (read_items read1 vs) as [js' |] eqn:E2; [| discriminate].
  rewrite (H v j (or_introl eq_refl) E1).
  rewrite (IH js' (fun v j Hv => H v j (or_intror Hv)) eq_refl).
  exact E.
Qed.

Lemma read_members_ext (read1 read2 : Value -> option JsonValue) ps ms :
  (forall v j, In v (map value ps) -> read1 v = Some j -> read2 v = Some j) ->
  read_members read1 ps = Some ms -> read_members read2 ps = Some ms.
Proof.
  revert ms. induction ps as [| q ps IH]; intros ms H E; [exact E |].
  cbn [read_members] in *.
  destruct (key q) as [k | id]; [| discriminate].
  destruct (enumerable q); [| discriminate].
  destruct (read1 (value q)) as [j |] eqn:E1; [| discriminate].
  destruct (read_members read1 ps) as [ms' |] eqn:E2; [| discriminate].
  rewrite (H (value q) j (or_introl eq_refl) E1).
  rewrite (IH ms' (fun v j Hv => H v j (or_intror Hv)) eq_refl).
  exact E.
Qed.

(** Reading is monotone: a lower bound on the addresses, more depth, and a
    store that agrees from the bound on read the same document. *)
Lemma read_above_mono m m' h h' : m' <= m ->
  (forall l c, m <= l -> h !! l = Some c -> h' !! l = Some c) ->
  forall fuel fuel' v j, fuel <= fuel' ->
    read_above m fuel h v = Some j -> read_above m' fuel' h' v = Some j.
Proof.
  intros Hm Hh. induction fuel as [| fuel IH]; intros fuel' v j Hf E.
  - destruct v as [| | b | n | s | l]; destruct fuel';
      cbn [read_above] in *; try exact E; try discriminate;
      destruct (l <? m); discriminate.
  - destruct v as [| | b | n | s | l];
      try (destruct fuel'; cbn [read_above] in *; exact E).
    cbn [read_above] in E.
    destruct (Nat.ltb_spec l m) as [Hl | Hl]; [discriminate |].
    destruct fuel' as [| fuel']; [lia |]. cbn [read_above].
    destruct (Nat.ltb_spec l m') as [Hl' | Hl']; [lia |].
    destruct (h !! l) as [[vs | ps] |] eqn:El; [| | discriminate].
    + rewrite (Hh l _ Hl El).
      destruct (read_items (read_above m fuel h) vs) as [js |] eqn:Ei;
        [| discriminate].
      rewrite (read_items_ext _ (read_above m' fuel' h') vs js
                 (fun v j _ Hv => IH fuel' v j ltac:(lia) Hv) Ei).
      exact E.
    + rewrite (Hh l _ Hl El).
      destruct (read_members (read_above m fuel h) ps) as [ms |] eqn:Ei;
        [| discriminate].
      rewrite (read_members_ext _ (read_above m' fuel' h') ps ms
                 (fun v j _ Hv => IH fuel' v j ltac:(lia) Hv) Ei).
      exact E.
Qed.

Lemma list_max_cons x l : list_max (x :: l) = Nat.max x (list_max l).
Proof. reflexivity. Qed.

Lemma list_max_ge (f : JsonValue -> nat) items j :
  In j items -> f j <= list_max (map f items).
Proof.
  induction items as [| i items IH]; intros Hin; [destruct Hin |].
  cbn [map]. rewrite list_max_cons. destruct Hin as [-> | Hin]; [lia |].
  specialize (IH Hin). lia.
Qed.

(** ** Documents in the store *)

Lemma build_grows j : forall h v h1,
  build j h = (v, h1) -> exists d, h1 = h ++ d /\ height j <= List.length d.
Proof.
  induction j as [| b | n | s | items IH | members IH] using JsonValue_induction;
    intros h v h1 E; cbn [build height] in E |- *;
    try (inversion E; subst; exists []; rewrite app_nil_r; split; [reflexivity | cbn; lia]).
  - destruct (build_items build items h) as [vs h'] eqn:Ei.
    inversion E; subst. clear E.
    assert (Hd : exists d, h' = h ++ d
                 /\ list_max (map height items) <= List.length d).
    { revert h vs h' Ei. induction IH as [| j items Hj _ IHitems];
        intros h vs h' Ei; cbn [build_items] in Ei.
      - inversion Ei; subst. exists []. rewrite app_nil_r. cbn. auto.
      - destruct (build j h) as [v1 h1] eqn:E1.
        destruct (build_items build items h1) as [vs2 h2] eqn:E2.
        inversion Ei; subst.
        destruct (Hj _ _ _ E1) as (d1 & -> & L1).
        destruct (IHitems _ _ _ E2) as (d2 & -> & L2).
        exists (d1 ++ d2). rewrite <- app_assoc. split; [reflexivity |].
        cbn [map]. rewrite list_max_cons, length_app. lia. }
    destruct Hd as (d & -> & L). exists (d ++ [Arr vs]).
    rewrite <- app_assoc. split; [reflexivity |].
    rewrite length_app. cbn. lia.
  - destruct (build_members build members h) as [ps h'] eqn:Ei.
    inversion E; subst. clear E.
    assert (Hd : exists d, h' = h ++ d
                 /\ list_max (map (fun m => height (snd m)) members)
                    <= List.length d).
    { revert h ps h' Ei. induction IH as [| m members Hj _ IHm];
        intros h ps h' Ei; cbn [build_members] in Ei.
      - inversion Ei; subst. exists []. rewrite app_nil_r. cbn. auto.
      - destruct (build (snd m) h) as [v1 h1] eqn:E1.
        destruct (build_members build members h1) as [ps2 h2] eqn:E2.
        inversion Ei; subst.
        destruct (Hj _ _ _ E1) as (d1 & -> & L1).
        destruct (IHm _ _ _ E2) as (d2 & -> & L2).
        exists (d1 ++ d2). rewrite <- app_assoc. split; [reflexivity |].
        cbn [map]. rewrite list_max_cons, length_app. lia. }
    destruct Hd as (d & -> & L). exists (d ++ [Obj ps]).
    rewrite <- app_assoc. split; [reflexivity |].
    rewrite length_app. cbn. lia.
Qed.

Lemma build_ext j h v h1 :
  build j h = (v, h1) -> ext h h1 /\ List.length h <= List.length h1.
Proof.
  intros E. destruct (build_grows j h v h1 E) as (d & -> & _). split.
  - intros l c Hl. apply lookup_app_l_Some. exact Hl.
  - rewrite length_app. lia.
Qed.

Lemma build_items_ext items : forall h vs h',
  build_items build items h = (vs, h') ->
  ext h h' /\ List.length h <= List.length h'.
Proof.
  induction items as [| j items IH]; intros h vs h' E; cbn [build_items] in E.
  - inversion E; subst. split; [apply ext_refl | lia].
  - destruct (build j h) as [v1 h1] eqn:E1.
    destruct (build_items build items h1) as [vs2 h2] eqn:E2.
    inversion E; subst.
    destruct (build_ext _ _ _ _ E1) as [X1 L1].
    destruct (IH _ _ _ E2) as [X2 L2].
    split; [eapply ext_trans; eassumption | lia].
Qed.

Lemma build_members_ext members : forall h ps h',
  build_members build members h = (ps, h') ->
  ext h h' /\ List.length h <= List.length h'
  /\ map key ps = map (fun m => KString (fst m)) members.
Proof.
  induction members as [| m members IH]; intros h ps h' E;
    cbn [build_members] in E.
  - inversion E; subst. split; [apply ext_refl | split; [lia | reflexivity]].
  - destruct (build (snd m) h) as [v1 h1] eqn:E1.
    destruct (build_members build members h1) as [ps2 h2] eqn:E2.
    inversion E; subst.
    destruct (build_ext _ _ _ _ E1) as [X1 L1].
    destruct (IH _ _ _ E2) as (X2 & L2 & K2).
    split; [eapply ext_trans; eassumption | split; [lia |]].
    cbn [map key]. rewrite K2. reflexivity.
Qed.

Lemma get_prop_absent k ps :
  ~ In k (map key ps) -> get_prop k ps = None.
Proof.
  induction ps as [| q ps IH]; intros H; [reflexivity |].
  cbn [get_prop]. cbn [map In] in H.
  rewrite bool_decide_eq_false_2 by tauto. apply IH. tauto.
Qed.

Lemma plain_members_keys members :
  forallb (fun m => negb (bool_decide (fst m = str "__raw__"))
                    && negb (bool_decide (fst m = str "__proto__"))
                    && plain (snd m)) members = true ->
  forall m, In m members ->
    fst m <> str "__raw__" /\ fst m <> str "__proto__" /\ plain (snd m) = true.
Proof.
  intros H m Hm. rewrite forallb_forall in H. specialize (H m Hm).
  apply andb_true_iff in H. destruct H as [H H3].
  apply andb_true_iff in H. destruct H as [H1 H2].
  apply negb_true_iff in H1, H2.
  apply bool_decide_eq_false in H1, H2. auto.
Qed.

(** A stored plain document is no proxy: [unwrapProxy] leaves it. *)
Lemma unwrap_built j h v h1 hh :
  plain j = true -> build j h = (v, h1) -> ext h1 hh -> unwrapProxy hh v = v.
Proof.
  intros Hp E X. destruct j as [| b | n | s | items | members];
    cbn [build] in E; try (inversion E; subst; reflexivity).
  - destruct (build_items build items h) as [vs h'] eqn:Ei.
    inversion E; subst. cbn [unwrapProxy].
    rewrite (X (List.length h') (Arr vs)); [reflexivity |].
    apply list_lookup_middle. reflexivity.
  - destruct (build_members build members h) as [ps h'] eqn:Ei.
    inversion E; subst. cbn [unwrapProxy].
    rewrite (X (List.length h') (Obj ps)) by (apply list_lookup_middle; reflexivity).
    destruct (build_members_ext _ _ _ _ Ei) as (_ & _ & K).
    rewrite get_prop_absent; [reflexivity |].
    rewrite K. intros Hin. apply in_map_iff in Hin.
    destruct Hin as (m & Hk & Hm). inversion Hk as [Hk'].
    cbn [plain] in Hp. apply andb_true_iff in Hp. destruct Hp as [_ Hp].
    destruct (plain_members_keys _ Hp m Hm) as (Hr & _ & _). congruence.
Qed.

Section Loops.
Variable rx : RegExp.
Variable fuel : nat.
Variable n : nat.

(** The callback of [map] over the elements of a stored array. *)
Lemma items_loop items :
  Forall (rewrites rx) items -> forallb plain items = true ->
  Forall (fun j => height j < fuel /\ height j <= n) items ->
  forall h_a vs h_b path i st lnew acc,
    build_items build items h_a = (vs, h_b) ->
    ext h_b (heap st) -> List.length h_b <= lnew ->
    (forall l, List.length h_a <= l < List.length h_b -> l ∉ seen st) ->
    heap st !! lnew = Some (Arr acc) ->
    exists st3 rs,
      map_elems (deepReplace rx fuel) lnew path vs i st = Some st3
      /\ ext_but lnew (heap st) (heap st3)
      /\ (forall l, l ∈ seen st3 ->
            l ∈ seen st \/ List.length h_a <= l < List.length h_b)
      /\ heap st3 !! lnew = Some (Arr (acc ++ rs))
      /\ read_items (read_above (S lnew) n (heap st3)) rs
         = Some (map (jmap (replaceAll rx)) items)
      /\ warnings st3 = warnings st.
Proof.
  intros Hall. induction Hall as [| j items Hj _ IH];
    intros Hp Hh h_a vs h_b path i st lnew acc E X Ln Hs Hl;
    cbn [build_items] in E.
  - inversion E; subst. exists st, []. cbn [map_elems read_items map].
    rewrite app_nil_r. repeat split; auto. apply ext_but_refl.
  - destruct (build j h_a) as [v h1] eqn:E1.
    destruct (build_items build items h1) as [vs' h2] eqn:E2.
    inversion E; subst. clear E.
    cbn [forallb] in Hp. apply andb_true_iff in Hp. destruct Hp as [Hpj Hp].
    inversion Hh as [| ? ? [Hf Hn] Hh']; subst.
    destruct (build_ext _ _ _ _ E1) as [X1 L1].
    destruct (build_items_ext _ _ _ _ E2) as [X2 L2].
    assert (Xj : ext h1 (heap st)) by (eapply ext_trans; eassumption).
    cbn [map_elems]. rewrite (unwrap_built j h_a v h1 (heap st) Hpj E1 Xj).
    destruct (Hj Hpj h_a v h1 fuel (path ++ [PIndex i]) st E1 Hf Xj)
      as (r & st' & Er & Xr & Sr & Rr & Wr).
    { intros l Hl'. apply Hs. lia. }
    rewrite Er.
    pose proof (lookup_lt_Some _ _ _ Hl) as Llnew.
    pose proof (Xr _ _ Hl) as Hl'.
    assert (Epush : push_elem lnew r st'
                    = set_heap st' (<[lnew := Arr (acc ++ [r])]> (heap st'))).
    { unfold push_elem. rewrite Hl'. reflexivity. }
    destruct (push_elem_ext_but lnew r st') as [Xp Sp].
    set (st2 := push_elem lnew r st') in *.
    assert (Hl2 : heap st2 !! lnew = Some (Arr (acc ++ [r]))).
    { rewrite Epush. cbn [heap set_heap]. apply list_lookup_insert_eq.
      apply lookup_lt_Some in Hl'. exact Hl'. }
    destruct (IH Hp Hh' h1 vs' h_b path (S i) st2 lnew (acc ++ [r]) E2)
      as (st3 & rs & Em & Xm & Sm & Hm & Rm & Wm).
    { intros l c Hc. apply Xp.
      - apply lookup_lt_Some in Hc. lia.
      - apply Xr. apply X. exact Hc. }
    { exact Ln. }
    { intros l Hl3 Hin. rewrite Sp in Hin. apply Sr in Hin.
      destruct Hin as [Hin | Hin]; [| lia]. apply (Hs l); [lia | exact Hin]. }
    { exact Hl2. }
    exists st3, (r :: rs). rewrite Em. repeat split.
    + eapply ext_but_trans; [| exact Xm].
      eapply ext_but_trans; [apply ext_ext_but; exact Xr | exact Xp].
    + intros l Hin. apply Sm in Hin. destruct Hin as [Hin | Hin]; [| lia].
      rewrite Sp in Hin. apply Sr in Hin. destruct Hin; [auto | lia].
    + rewrite Hm, <- app_assoc. reflexivity.
    + cbn [read_items map]. rewrite Rm.
      rewrite (read_above_mono (List.length (heap st)) (S lnew) (heap st') (heap st3)
                 ltac:(lia)
                 ltac:(intros l c Hge Hc; apply Xm; [lia |]; apply Xp; [lia | exact Hc])
                 (height j) n r _ Hn Rr).
      reflexivity.
    + rewrite Wm, Epush. cbn [warnings set_heap]. exact Wr.
Qed.

Lemma assign_fresh k v acc :
  k <> str "__proto__" -> ~ In (KString k) (map key acc) ->
  assign k v acc = acc ++ [{| key := KString k; enumerable := true; value := v |}].
Proof.
  intros Hk Hn. unfold assign. rewrite bool_decide_eq_false_2 by exact Hk.
  induction acc as [| q acc IH]; [reflexivity |].
  cbn [assign_prop app]. cbn [map In] in Hn.
  rewrite bool_decide_eq_false_2 by tauto. f_equal. apply IH. tauto.
Qed.

(** The key loop over the members of a stored object. *)
Lemma members_loop members :
  Forall (fun m => rewrites rx (snd m)) members ->
  forallb (fun m => negb (bool_decide (fst m = str "__raw__"))
                    && negb (bool_decide (fst m = str "__proto__"))
                    && plain (snd m)) members = true ->
  NoDup (map fst members) ->
  Forall (fun m => height (snd m) < fuel /\ height (snd m) <= n) members ->
  forall h_a ps h_b path st lnew acc,
    build_members build members h_a = (ps, h_b) ->
    ext h_b (heap st) -> List.length h_b <= lnew ->
    (forall l, List.length h_a <= l < List.length h_b -> l ∉ seen st) ->
    heap st !! lnew = Some (Obj acc) ->
    (forall m, In m members -> ~ In (KString (fst m)) (map key acc)) ->
    exists st3 rs,
      each_key (deepReplace rx fuel) lnew path ps st = Some st3
      /\ ext_but lnew (heap st) (heap st3)
      /\ (forall l, l ∈ seen st3 ->
            l ∈ seen st \/ List.length h_a <= l < List.length h_b)
      /\ heap st3 !! lnew = Some (Obj (acc ++ rs))
      /\ read_members (read_above (S lnew) n (heap st3)) rs
         = Some (map (fun m => (fst m, jmap (replaceAll rx) (snd m))) members)
      /\ warnings st3 = warnings st.
Proof.
  intros Hall. induction Hall as [| m members Hj _ IH];
    intros Hp Hnd Hh h_a ps h_b path st lnew acc E X Ln Hs Hl Hk;
    cbn [build_members] in E.
  - inversion E; subst. exists st, []. cbn [each_key read_members map].
    rewrite app_nil_r. repeat split; auto. apply ext_but_refl.
  - destruct (build (snd m) h_a) as [v h1] eqn:E1.
    destruct (build_members build members h1) as [ps' h2] eqn:E2.
    inversion E; subst. clear E.
    destruct (plain_members_keys _ Hp m (or_introl eq_refl)) as (_ & Hproto & Hpj).
    cbn [forallb] in Hp. apply andb_true_iff in Hp. destruct Hp as [_ Hp].
    inversion Hh as [| ? ? [Hf Hn] Hh']; subst.
    cbn [map] in Hnd. apply NoDup_cons in Hnd. destruct Hnd as [Hfresh Hnd].
    destruct (build_ext _ _ _ _ E1) as [X1 L1].
    destruct (build_members_ext _ _ _ _ E2) as (X2 & L2 & _).
    assert (Xj : ext h1 (heap st)) by (eapply ext_trans; eassumption).
    cbn [each_key key enumerable value negb].
    rewrite (unwrap_built (snd m) h_a v h1 (heap st) Hpj E1 Xj).
    destruct (Hj Hpj h_a v h1 fuel (path ++ [PKey (fst m)]) st E1 Hf Xj)
      as (r & st' & Er & Xr & Sr & Rr & Wr).
    { intros l Hl'. apply Hs. lia. }
    rewrite Er.
    pose proof (lookup_lt_Some _ _ _ Hl) as Llnew.
    pose proof (Xr _ _ Hl) as Hl'.
    set (q := {| key := KString (fst m); enumerable := true; value := r |}).
    assert (Ewrite : write_prop lnew (fst m) r st'
                     = set_heap st' (<[lnew := Obj (acc ++ [q])]> (heap st'))).
    { unfold write_prop. rewrite Hl'.
      rewrite assign_fresh; [reflexivity | exact Hproto |].
      apply Hk. left. reflexivity. }
    destruct (write_prop_ext_but lnew (fst m) r st') as [Xp Sp].
    set (st2 := write_prop lnew (fst m) r st') in *.
    assert (Hl2 : heap st2 !! lnew = Some (Obj (acc ++ [q]))).
    { rewrite Ewrite. cbn [heap set_heap]. apply list_lookup_insert_eq.
      apply lookup_lt_Some in Hl'. exact Hl'. }
    destruct (IH Hp Hnd Hh' h1 ps' h_b path st2 lnew (acc ++ [q]) E2)
      as (st3 & rs & Em & Xm & Sm & Hm & Rm & Wm).
    { intros l c Hc. apply Xp.
      - apply lookup_lt_Some in Hc. lia.
      - apply Xr. apply X. exact Hc. }
    { exact Ln. }
    { intros l Hl3 Hin. rewrite Sp in Hin. apply Sr in Hin.
      destruct Hin as [Hin | Hin]; [| lia]. apply (Hs l); [lia | exact Hin]. }
    { exact Hl2. }
    { intros m' Hm' Hin. rewrite map_app in Hin. apply in_app_iff in Hin.
      destruct Hin as [Hin | Hin].
      - apply (Hk m' (or_intror Hm')). exact Hin.
      - cbn in Hin. destruct Hin as [Hin | []]. inversion Hin as [Heq].
        apply Hfresh. rewrite Heq. apply list_elem_of_In.
        apply in_map. exact Hm'. }
    exists st3, (q :: rs). rewrite Em. repeat split.
    + eapply ext_but_trans; [| exact Xm].
      eapply ext_but_trans; [apply ext_ext_but; exact Xr | exact Xp].
    + intros l Hin. apply Sm in Hin. destruct Hin as [Hin | Hin]; [| lia].
      rewrite Sp in Hin. apply Sr in Hin. destruct Hin; [auto | lia].
    + rewrite Hm, <- app_assoc. reflexivity.
    + cbn [read_members map key enumerable value q]. rewrite Rm.
      rewrite (read_above_mono (List.length (heap st)) (S lnew) (heap st') (heap st3)
                 ltac:(lia)
                 ltac:(intros l c Hge Hc; apply Xm; [lia |]; apply Xp; [lia | exact Hc])
                 (height (snd m)) n r _ Hn Rr).
      reflexivity.
    + rewrite Wm, Ewrite. cbn [warnings set_heap]. exact Wr.
Qed.

End Loops.

Lemma heights_bounded (f : JsonValue -> nat) items fuel :
  list_max (map f items) < fuel ->
  Forall (fun j => f j < fuel /\ f j <= list_max (map f items)) items.
Proof.
  intros H. apply List.Forall_forall. intros j Hj.
  pose proof (list_max_ge f items j Hj). lia.
Qed.

Lemma member_heights_bounded members fuel :
  list_max (map (fun m => height (snd m)) members) < fuel ->
  Forall (fun m : jsstring * JsonValue =>
            height (snd m) < fuel
            /\ height (snd m) <= list_max (map (fun m => height (snd m)) members))
         members.
Proof.
  intros H. apply List.Forall_forall. intros m Hm.
  assert (height (snd m) <= list_max (map (fun m => height (snd m)) members)).
  { clear H. induction members as [| m' members IH]; [destruct Hm |].
    cbn [map]. rewrite list_max_cons. destruct Hm as [-> | Hm]; [lia |].
    specialize (IH Hm). lia. }
  lia.
Qed.

(** [deepReplace] on a stored plain document. *)
Lemma deepReplace_rewrites rx : forall j, rewrites rx j.
Proof.
  induction j as [| b | n | s | items IH | members IH] using JsonValue_induction;
    intros Hp h0 v h1 fuel path st E Hf X Hs.
  - inversion E; subst. destruct fuel; [lia |]. cbn.
    exists VNull, st. repeat split; auto using ext_refl.
  - inversion E; subst. destruct fuel; [lia |]. cbn.
    exists (VBool b), st. repeat split; auto using ext_refl.
  - inversion E; subst. destruct fuel; [lia |]. cbn.
    exists (VNumber n), st. repeat split; auto using ext_refl.
  - inversion E; subst. destruct fuel; [lia |].
    cbn [deepReplace unwrapProxy jmap height].
    unfold replaceAll. rewrite (String_replace_lastIndex rx 0 (lastIndex st)).
    destruct (String_replace rx (lastIndex st) s) as [s' li].
    eexists _, _. split; [reflexivity |].
    cbn. repeat split; auto using ext_refl.
  - pose proof (unwrap_built _ _ _ _ (heap st) Hp E X) as Hu.
    cbn [build] in E.
    destruct (build_items build items h0) as [vs h'] eqn:Ei.
    inversion E; subst. clear E.
    destruct (build_items_ext _ _ _ _ Ei) as [X' L'].
    cbn [height] in Hf. destruct fuel as [| fuel]; [lia |].
    cbn [deepReplace]. rewrite Hu.
    rewrite length_app in Hs. cbn [List.length] in Hs.
    rewrite bool_decide_eq_false_2 by (apply Hs; lia).
    cbn [heap].
    rewrite (X (List.length h') (Arr vs)) by (apply list_lookup_middle; reflexivity).
    unfold alloc. cbn [heap seen lastIndex warnings].
    set (lnew := List.length (heap st)).
    match goal with
    | |- context [map_elems _ _ _ _ _ ?s] => set (st2 := s)
    end.
    destruct (items_loop rx fuel (list_max (map height items)) items IH Hp
                (heights_bounded height items fuel ltac:(lia))
                h0 vs h' path 0 st2 lnew [] Ei)
      as (st3 & rs & Em & Xm & Sm & Hm & Rm & Wm).
    { intros l c Hc. unfold st2. cbn [heap]. apply lookup_app_l_Some.
      apply X. apply lookup_app_l_Some. exact Hc. }
    { pose proof (ext_length _ _ X) as Lx. rewrite length_app in Lx.
      cbn [List.length] in Lx. unfold lnew. lia. }
    { intros l Hl Hin. unfold st2 in Hin. cbn [seen] in Hin.
      apply (Hs l); [lia |].
      repeat (apply elem_of_union in Hin; destruct Hin as [Hin | Hin]);
        try (apply elem_of_singleton in Hin; lia); exact Hin. }
    { unfold st2, lnew. cbn [heap]. apply list_lookup_middle. reflexivity. }
    rewrite Em. exists (VRef lnew), st3. split; [reflexivity |].
    unfold st2 in Xm, Sm, Wm. cbn [heap seen warnings] in Xm, Sm, Wm.
    repeat split.
    + intros l c Hc. apply Xm.
      * apply lookup_lt_Some in Hc. unfold lnew. lia.
      * apply lookup_app_l_Some. exact Hc.
    + intros l Hin. apply Sm in Hin. rewrite length_app. cbn [List.length].
      destruct Hin as [Hin | Hin]; [| lia].
      apply elem_of_union in Hin. destruct Hin as [Hin | Hin].
      * apply elem_of_singleton in Hin. subst l. right. lia.
      * apply elem_of_union in Hin. destruct Hin as [Hin | Hin]; [| auto].
        apply elem_of_singleton in Hin. subst l. right. lia.
    + cbn [height read_above jmap]. fold lnew.
      rewrite Nat.ltb_irrefl, Hm. cbn [app].
      rewrite (read_items_ext _ (read_above lnew (list_max (map height items)) (heap st3))
                 rs _ (fun v j _ Hv =>
                         read_above_mono (S lnew) lnew (heap st3) (heap st3)
                           ltac:(lia) (fun _ _ _ Hc => Hc) _ _ v j (Nat.le_refl _) Hv)
                 Rm).
      reflexivity.
    + exact Wm.
  - pose proof (unwrap_built _ _ _ _ (heap st) Hp E X) as Hu.
    cbn [build] in E.
    destruct (build_members build members h0) as [ps h'] eqn:Ei.
    inversion E; subst. clear E.
    destruct (build_members_ext _ _ _ _ Ei) as (X' & L' & _).
    cbn [height] in Hf. destruct fuel as [| fuel]; [lia |].
    cbn [deepReplace]. rewrite Hu.
    rewrite length_app in Hs. cbn [List.length] in Hs.
    rewrite bool_decide_eq_false_2 by (apply Hs; lia).
    cbn [heap].
    rewrite (X (List.length h') (Obj ps)) by (apply list_lookup_middle; reflexivity).
    unfold alloc. cbn [heap seen lastIndex warnings].
    set (lnew := List.length (heap st)).
    match goal with
    | |- context [each_key _ _ _ _ ?s] => set (st2 := s)
    end.
    cbn [plain] in Hp. apply andb_true_iff in Hp. destruct Hp as [Hnd Hp].
    apply bool_decide_eq_true in Hnd.
    destruct (members_loop rx fuel (list_max (map (fun m => height (snd m)) members))
                members IH Hp Hnd
                (member_heights_bounded members fuel ltac:(lia))
                h0 ps h' path st2 lnew [] Ei)
      as (st3 & rs & Em & Xm & Sm & Hm & Rm & Wm).
    { intros l c Hc. unfold st2. cbn [heap]. apply lookup_app_l_Some.
      apply X. apply lookup_app_l_Some. exact Hc. }
    { pose proof (ext_length _ _ X) as Lx. rewrite length_app in Lx.
      cbn [List.length] in Lx. unfold lnew. lia. }
    { intros l Hl Hin. unfold st2 in Hin. cbn [seen] in Hin.
      apply (Hs l); [lia |].
      repeat (apply elem_of_union in Hin; destruct Hin as [Hin | Hin]);
        try (apply elem_of_singleton in Hin; lia); exact Hin. }
    { unfold st2, lnew. cbn [heap]. apply list_lookup_middle. reflexivity. }
    { intros m _ []. }
    rewrite Em. exists (VRef lnew), st3. split; [reflexivity |].
    unfold st2 in Xm, Sm, Wm. cbn [heap seen warnings] in Xm, Sm, Wm.
    repeat split.
    + intros l c Hc. apply Xm.
      * apply lookup_lt_Some in Hc. unfold lnew. lia.
      * apply lookup_app_l_Some. exact Hc.
    + intros l Hin. apply Sm in Hin. rewrite length_app. cbn [List.length].
      destruct Hin as [Hin | Hin]; [| lia].
      apply elem_of_union in Hin. destruct Hin as [Hin | Hin]; [| auto].
      apply elem_of_singleton in Hin. subst l. right. lia.
    + cbn [height read_above jmap]. fold lnew.
      rewrite Nat.ltb_irrefl, Hm. cbn [app].
      rewrite (read_members_ext _
                 (read_above lnew (list_max (map (fun m => height (snd m)) members))
                    (heap st3))
                 rs _ (fun v j _ Hv =>
                         read_above_mono (S lnew) lnew (heap st3) (heap st3)
                           ltac:(lia) (fun _ _ _ Hc => Hc) _ _ v j (Nat.le_refl _) Hv)
                 Rm).
      reflexivity.
    + exact Wm.
Qed.

(** X15: The buffered path on a document: for every plain JSON document (a tree
    of objects, arrays and scalars in which the keys of an object are
    distinct and none is ["__raw__"] or ["__proto__"]), wherever it lies in
    the store, the top-level call of [deepReplace] returns a value that
    reads back, through cells the call allocated only, as the document with
    every string value replaced, every key, number, boolean and null
    kept, in the same order; and it issues no warning. *)
Theorem plain_document_rewritten rx li (j : JsonValue) (h0 : Heap) :
  plain j = true ->
  exists r st',
    rewriteBuffered rx (snd (build j h0)) li (fst (build j h0)) = Some (r, st')
    /\ read_above (List.length (snd (build j h0))) (height j) (heap st') r
       = Some (jmap (replaceAll rx) j)
    /\ warnings st' = [].
Proof.
  intros Hp. destruct (build j h0) as [v h1] eqn:E. cbn [fst snd].
  destruct (build_grows j h0 v h1 E) as (d & Hd & Lh).
  unfold rewriteBuffered.
  destruct (deepReplace_rewrites rx j Hp h0 v h1 (S (List.length h1)) []
              {| heap := h1; seen := ∅; lastIndex := li; warnings := [] |} E)
    as (r & st' & Er & _ & _ & Rr & Wr).
  - rewrite Hd, length_app. lia.
  - apply ext_refl.
  - intros l _ Hin. apply elem_of_empty in Hin. exact Hin.
  - exists r, st'. auto.
Qed.

(** X15 at a concrete input: an object with an array member and a member whose key is the search string. *)
Lemma plain_document_rewritten_witness :
  exists r st',
    rewriteBuffered rx_original
      (snd (build (JObject [(str "a", JArray [JString (str "original"); JNumber 1]);
                            (str "original", JNull)]) []))
      0
      (fst (build (JObject [(str "a", JArray [JString (str "original"); JNumber 1]);
                            (str "original", JNull)]) []))
    = Some (r, st')
    /\ read_above
         (List.length
            (snd (build (JObject [(str "a", JArray [JString (str "original");
                                                   JNumber 1]);
                                  (str "original", JNull)]) [])))
         (height (JObject [(str "a", JArray [JString (str "original"); JNumber 1]);
                           (str "original", JNull)]))
         (heap st') r
       = Some (jmap (replaceAll rx_original)
                 (JObject [(str "a", JArray [JString (str "original"); JNumber 1]);
                           (str "original", JNull)]))
    /\ warnings st' = [].
Proof. apply plain_document_rewritten. vm_compute. reflexivity. Defined.

(** ** Members that stand for their object *)

(** X17: An object with a truthy ["__raw__"] member stands for that member:
    when the member's value is not itself such an object, [deepReplace]
    treats the object exactly as it treats the value, and the object and
    its other members never reach the result. *)
Theorem raw_member_stands_for_object rx fuel l props raw path st :
  heap st !! l = Some (Obj props) ->
  get_prop (KString (str "__raw__")) props = Some raw ->
  truthy raw = true ->
  unwrapProxy (heap st) raw = raw ->
  deepReplace rx fuel (VRef l) path st = deepReplace rx fuel raw path st.
Proof.
  intros Hl Hr Ht Hu. destruct fuel as [| fuel]; [reflexivity |].
  assert (Hv : unwrapProxy (heap st) (VRef l) = raw).
  { cbn [unwrapProxy]. rewrite Hl, Hr, Ht. reflexivity. }
  cbn [deepReplace]. rewrite Hu, Hv. reflexivity.
Qed.

(** X17 at a concrete input: an object whose raw member is a string. *)
Lemma raw_member_stands_for_object_witness :
  deepReplace rx_original 3 (VRef 0) []
    {| heap := [Obj [data "__raw__" (VString (str "original"));
                     data "name" (VString (str "kept"))]];
       seen := ∅; lastIndex := 0; warnings := [] |}
  = deepReplace rx_original 3 (VString (str "original")) []
    {| heap := [Obj [data "__raw__" (VString (str "original"));
                     data "name" (VString (str "kept"))]];
       seen := ∅; lastIndex := 0; warnings := [] |}.
Proof.
  apply (raw_member_stands_for_object rx_original 3 0
           [data "__raw__" (VString (str "original"));
            data "name" (VString (str "kept"))]); reflexivity.
Defined.

(** ** Shared references *)

(** The address of a stored composite is one of its own cells. *)
Lemma build_ref j h0 a h1 :
  build j h0 = (VRef a, h1) ->
  List.length h0 <= a < List.length h1.
Proof.
  intros E. destruct j as [| b | n | s | items | members];
    cbn [build] in E; try discriminate.
  - destruct (build_items build items h0) as [vs h'] eqn:Ei.
    inversion E; subst. destruct (build_items_ext _ _ _ _ Ei) as [_ L].
    rewrite length_app. cbn [List.length]. lia.
  - destruct (build_members build members h0) as [ps h'] eqn:Ei.
    inversion E; subst. destruct (build_members_ext _ _ _ _ Ei) as (_ & L & _).
    rewrite length_app. cbn [List.length]. lia.
Qed.

(** A call on a composite leaves it in [seen]. *)
Lemma deepReplace_marks rx fuel a p st r st' :
  unwrapProxy (heap st) (VRef a) = VRef a ->
  deepReplace rx fuel (VRef a) p st = Some (r, st') -> a ∈ seen st'.
Proof.
  intros Hu H. destruct fuel as [| fuel]; [discriminate |].
  cbn [deepReplace] in H. rewrite Hu in H.
  destruct (bool_decide (a ∈ seen st)) eqn:Es.
  - inversion H; subst. cbn [seen]. apply bool_decide_eq_true_1 in Es. exact Es.
  - cbn [heap] in H.
    destruct (heap st !! a) as [[elems | props] |]; [| | discriminate];
      unfold alloc in H; cbn [heap seen lastIndex warnings] in H.
    + destruct (map_elems _ _ _ _ _ _) as [st3 |] eqn:Em; [| discriminate].
      inversion H; subst.
      destruct (map_elems_ext _ (deepReplace_preserving rx _) _ _ _ _ _ _ Em)
        as [_ S3].
      cbn [seen] in S3. apply S3. set_solver.
    + destruct (each_key _ _ _ _ _) as [st3 |] eqn:Em; [| discriminate].
      inversion H; subst.
      destruct (each_key_ext _ (deepReplace_preserving rx _) _ _ _ _ _ Em)
        as [_ S3].
      cbn [seen] in S3. apply S3. set_solver.
Qed.

(** A composite that is in [seen] comes back as it is, with a warning. *)
Lemma deepReplace_short_circuit rx fuel a p st :
  unwrapProxy (heap st) (VRef a) = VRef a -> a ∈ seen st ->
  deepReplace rx (S fuel) (VRef a) p st
  = Some (VRef a, {| heap := heap st; seen := seen st;
                     lastIndex := lastIndex st;
                     warnings := warnings st ++ [p] |}).
Proof.
  intros Hu Hs. cbn [deepReplace]. rewrite Hu.
  rewrite bool_decide_eq_true_2 by exact Hs. reflexivity.
Qed.

(** X18: A shared composite is rewritten once only: for an array that holds the
    same plain object or array [j] twice, the first element of the result
    reads back, through cells the call allocated only, as [j] with every
    string replaced; the second element is the reference to the original
    [j] itself, whose cells are as they were, so its strings are not
    replaced; and the call issues one warning, of a circular reference at
    index 1, although the input has no cycle. *)
Theorem shared_object_rewritten_once rx li (j : JsonValue) (h0 h1 : Heap) a :
  plain j = true ->
  build j h0 = (VRef a, h1) ->
  exists lnew st' r1,
    rewriteBuffered rx (h1 ++ [Arr [VRef a; VRef a]]) li (VRef (List.length h1))
      = Some (VRef lnew, st')
    /\ heap st' !! lnew = Some (Arr [r1; VRef a])
    /\ read_above (S (List.length h1)) (height j) (heap st') r1
       = Some (jmap (replaceAll rx) j)
    /\ a < List.length h1
    /\ (forall l c, (h1 ++ [Arr [VRef a; VRef a]]) !! l = Some c ->
          heap st' !! l = Some c)
    /\ warnings st' = [[PIndex 1]].
Proof.
  intros Hp E.
  destruct (build_ref _ _ _ _ E) as [La0 La].
  destruct (build_grows _ _ _ _ E) as (d & Hd & Lh).
  set (h := h1 ++ [Arr [VRef a; VRef a]]).
  assert (Lhh : List.length h = S (List.length h1))
    by (unfold h; rewrite length_app; cbn [List.length]; lia).
  assert (Hl : h !! List.length h1 = Some (Arr [VRef a; VRef a]))
    by (apply list_lookup_middle; reflexivity).
  assert (X1 : ext h1 h) by (intros x c Hx; apply lookup_app_l_Some; exact Hx).
  set (lnew := List.length h).
  set (st2 := {| heap := h ++ [Arr []]; seen := {[List.length h1]} ∪ ({[List.length h1]} ∪ ∅);
                 lastIndex := li; warnings := [] |}).
  assert (X2 : ext h1 (heap st2)).
  { intros x c Hx. cbn [heap st2]. apply lookup_app_l_Some. apply X1. exact Hx. }
  (* the first occurrence *)
  destruct (deepReplace_rewrites rx j Hp h0 (VRef a) h1 lnew [PIndex 0] st2 E)
    as (r1 & st3 & E1 & X3 & _ & R3 & W3).
  { unfold lnew. rewrite Lhh, Hd, length_app. lia. }
  { exact X2. }
  { intros x Hx Hin. cbn [seen st2] in Hin.
    repeat (apply elem_of_union in Hin; destruct Hin as [Hin | Hin]);
      try (apply elem_of_singleton in Hin; lia).
    apply elem_of_empty in Hin. exact Hin. }
  assert (Hu2 : unwrapProxy (heap st2) (VRef a) = VRef a)
    by (exact (unwrap_built _ _ _ _ _ Hp E X2)).
  pose proof (deepReplace_marks rx _ _ _ _ _ _ Hu2 E1) as S3.
  assert (H3 : heap st3 !! lnew = Some (Arr [])).
  { apply X3. cbn [heap st2]. apply list_lookup_middle. reflexivity. }
  assert (Ep : push_elem lnew r1 st3
               = set_heap st3 (<[lnew := Arr [r1]]> (heap st3))).
  { unfold push_elem. rewrite H3. reflexivity. }
  set (st4 := set_heap st3 (<[lnew := Arr [r1]]> (heap st3))) in *.
  assert (X4 : ext h (heap st4)).
  { intros x c Hx. cbn [heap st4 set_heap].
    pose proof (lookup_lt_Some _ _ _ Hx) as Lx.
    rewrite list_lookup_insert_ne by (unfold lnew; lia).
    apply X3. cbn [heap st2]. apply lookup_app_l_Some. exact Hx. }
  assert (H4 : heap st4 !! lnew = Some (Arr [r1])).
  { cbn [heap st4 set_heap]. apply list_lookup_insert_eq.
    apply lookup_lt_Some in H3. exact H3. }
  assert (Hu4 : unwrapProxy (heap st4) (VRef a) = VRef a).
  { apply (unwrap_built _ _ _ _ _ Hp E).
    intros x c Hx. apply X4. apply X1. exact Hx. }
  (* the second occurrence *)
  set (st5 := {| heap := heap st4; seen := seen st4; lastIndex := lastIndex st4;
                 warnings := warnings st4 ++ [[PIndex 1]] |}).
  assert (E2 : deepReplace rx lnew (VRef a) [PIndex 1] st4 = Some (VRef a, st5)).
  { unfold lnew. rewrite Lhh. apply deepReplace_short_circuit; [exact Hu4 |].
    exact S3. }
  assert (Ep5 : push_elem lnew (VRef a) st5
                = set_heap st5 (<[lnew := Arr [r1; VRef a]]> (heap st5))).
  { unfold push_elem. cbn [heap st5]. rewrite H4. reflexivity. }
  exists lnew, (set_heap st5 (<[lnew := Arr [r1; VRef a]]> (heap st5))), r1.
  split.
  { unfold rewriteBuffered. fold h. cbn [deepReplace heap seen].
    assert (Hu : unwrapProxy h (VRef (List.length h1)) = VRef (List.length h1))
      by (cbn [unwrapProxy]; rewrite Hl; reflexivity).
    rewrite Hu. rewrite bool_decide_eq_false_2 by (apply not_elem_of_empty).
    rewrite Hl. unfold alloc. cbn [heap seen lastIndex warnings].
    fold lnew. fold st2.
    cbn [map_elems]. rewrite Hu2. cbn [app]. rewrite E1, Ep.
    rewrite Hu4, E2, Ep5. reflexivity. }
  cbn [heap set_heap warnings st5 st4].
  split; [| split; [| split; [| split]]].
  - apply list_lookup_insert_eq. rewrite length_insert.
    apply lookup_lt_Some in H3. exact H3.
  - refine (read_above_mono (List.length (heap st2)) (S (List.length h1))
              (heap st3) _ _ _ (height j) (height j) r1 _ (Nat.le_refl _) R3).
    + cbn [heap st2]. rewrite length_app. cbn [List.length]. fold lnew. lia.
    + intros x c Hx Hc. cbn [heap st2] in Hx. rewrite length_app in Hx.
      cbn [List.length] in Hx. fold lnew in Hx.
      rewrite !list_lookup_insert_ne by lia. exact Hc.
  - exact La.
  - intros x c Hx. pose proof (lookup_lt_Some _ _ _ Hx) as Lx.
    rewrite list_lookup_insert_ne by (unfold lnew; lia).
    apply X4. exact Hx.
  - rewrite W3. reflexivity.
Qed.

(** X18 at a concrete input: an array that holds one stored object twice. *)
Lemma shared_object_rewritten_once_witness :
  exists lnew st' r1,
    rewriteBuffered rx_original
      [Obj [data "t" (VString (str "original"))]; Arr [VRef 0; VRef 0]]
      0 (VRef 1)
    = Some (VRef lnew, st')
    /\ heap st' !! lnew = Some (Arr [r1; VRef 0])
    /\ read_above 2 1 (heap st') r1
       = Some (JObject [(str "t", JString (str "replaced"))])
    /\ 0 < 1
    /\ (forall l c,
          [Obj [data "t" (VString (str "original"))]; Arr [VRef 0; VRef 0]] !! l
            = Some c -> heap st' !! l = Some c)
    /\ warnings st' = [[PIndex 1]].
Proof.
  exact (shared_object_rewritten_once rx_original 0
           (JObject [(str "t", JString (str "original"))]) [] _ 0
           eq_refl eq_refl).
Defined.

End TreeFacts.

Module PartFacts.
Import Regex Deep Multipart Parts RegexFacts MultipartFacts.

Lemma processPart_blank rx J part :
  blankb part = true -> processPart rx J part = part.
Proof. unfold blankb, processPart. intros ->. reflexivity. Qed.

Lemma processPart_kept rx J part :
  keptb part = true -> processPart rx J part = part.
Proof.
  unfold keptb. intros H. apply orb_true_iff in H. destruct H as [H | H].
  - apply processPart_blank. exact H.
  - apply andb_true_iff in H. destruct H as [H1 H2].
    apply part_with_blank_line_kept.
    + apply Nat.leb_le. exact H1.
    + destruct (contentTypeMatch _) as [ct |]; [| exact I].
      unfold opaque_type in H2.
      repeat (apply andb_true_iff in H2; destruct H2 as [H2 ?]).
      repeat match goal with
             | Hn : negb _ = true |- _ => apply negb_true_iff in Hn
             end.
      auto.
Qed.

(** X19: A multipart body whose parts the callback has no reason to change is
    reproduced as it is: when every piece between two boundary markers is
    blank or has a blank line after its headers and no content type among
    json, text, html and xml, the modified text is the original text. *)
Theorem opaque_parts_reproduced rx J (originalText boundary : jsstring) :
  forallb keptb (split (str "--" ++ boundary) originalText) = true ->
  rewriteMultipart rx J originalText boundary = originalText.
Proof.
  intros H. unfold rewriteMultipart.
  replace (map (processPart rx J) (split (str "--" ++ boundary) originalText))
    with (split (str "--" ++ boundary) originalText).
  - apply join_split. discriminate.
  - rewrite forallb_forall in H.
    induction (split (str "--" ++ boundary) originalText) as [| p ps IH];
      [reflexivity |].
    cbn [map]. rewrite processPart_kept by (apply H; left; reflexivity).
    f_equal. apply IH. intros x Hx. apply H. right. exact Hx.
Qed.

(** X19 at a concrete input: an image part whose body holds the search string. *)
Lemma opaque_parts_reproduced_witness :
  rewriteMultipart rx_original no_json
    (str "--b" ++ CRLF ++ str "Content-Type: image/png" ++ CRLF ++ CRLF
     ++ str "original" ++ CRLF ++ str "--b--" ++ CRLF) (str "b")
  = str "--b" ++ CRLF ++ str "Content-Type: image/png" ++ CRLF ++ CRLF
     ++ str "original" ++ CRLF ++ str "--b--" ++ CRLF.
Proof. apply opaque_parts_reproduced. vm_compute. reflexivity. Defined.

(** ** The first blank line of a part *)

Lemma find_from_first pat : forall S i s,
  find_from pat S i = Some s ->
  forall k, (i + k < s)%nat -> starts_with pat (drop k S) = false.
Proof.
  induction S as [| c S IH]; intros i s H k Hk; cbn [find_from] in H.
  - destruct (starts_with pat []) eqn:E; [| discriminate].
    inversion H; subst. lia.
  - destruct (starts_with pat (c :: S)) eqn:E.
    + inversion H; subst. lia.
    + destruct k as [| k]; [exact E |]. cbn [drop].
      apply (IH _ _ H). lia.
Qed.

Lemma split_go_first sep : sep <> [] -> forall n S cur,
  (forall k, (k < n)%nat -> starts_with sep (drop k S) = false) ->
  starts_with sep (drop n S) = true ->
  split_go sep S 0 cur
  = (cur ++ take n S) :: split_go sep (drop (n + List.length sep) S) 0 [].
Proof.
  intros Hsep. induction n as [| n IH]; intros S cur Hno Hyes.
  - rewrite drop_0 in Hyes. rewrite take_0, app_nil_r. cbn [plus].
    destruct S as [| c S].
    + destruct sep; [congruence | discriminate].
    + cbn [split_go]. rewrite Hyes. f_equal.
      pose proof (starts_with_length _ _ Hyes) as Hl. cbn [List.length] in Hl.
      rewrite split_go_skip by lia.
      destruct sep as [| p sep]; [congruence |].
      cbn [List.length]. rewrite Nat.sub_succ, Nat.sub_0_r. reflexivity.
  - destruct S as [| c S].
    + rewrite drop_nil in Hyes. destruct sep; [congruence | discriminate].
    + cbn [split_go].
      pose proof (Hno 0%nat ltac:(lia)) as H0. rewrite drop_0 in H0. rewrite H0.
      cbn [plus]. rewrite !skipn_cons, firstn_cons.
      rewrite (IH S (cur ++ [c])).
      * rewrite <- app_assoc. reflexivity.
      * intros k Hk. apply (Hno (Datatypes.S k)). lia.
      * rewrite skipn_cons in Hyes. exact Hyes.
Qed.

Lemma split_at_first sep (H B : jsstring) : sep <> [] ->
  find_from sep (H ++ sep ++ B) 0 = Some (List.length H) ->
  hd [] (split sep (H ++ sep ++ B)) = H
  /\ join sep (tl (split sep (H ++ sep ++ B))) = B.
Proof.
  intros Hsep Hf.
  assert (Hyes : starts_with sep (drop (List.length H) (H ++ sep ++ B)) = true).
  { rewrite drop_app_length. clear. induction sep as [| p sep IH]; [reflexivity |].
    cbn. rewrite Z.eqb_refl. exact IH. }
  pose proof (split_go_first sep Hsep (List.length H) (H ++ sep ++ B) []
                (fun k Hk => find_from_first sep _ 0%nat _ Hf k Hk) Hyes) as E.
  unfold split. destruct sep as [| p sep]; [congruence |].
  rewrite E. cbn [hd tl]. rewrite take_app_length. split; [apply app_nil_l |].
  rewrite drop_app_add, drop_app_length.
  apply (join_split_go (p :: sep) Hsep (List.length B) B []). lia.
Qed.

(** X20: Only the body of a text part is rewritten: for a part whose first
    blank line separates [headers] from [body] and whose headers declare a
    content type that includes text, html or xml (and not json), the
    callback returns the headers as they are, the blank line, and the body
    with every match replaced; an occurrence in the headers stays. *)
Theorem text_part_body_rewritten rx J (headers body ct : jsstring) :
  blankb (headers ++ CRLFCRLF ++ body) = false ->
  find_from CRLFCRLF (headers ++ CRLFCRLF ++ body) 0 = Some (List.length headers) ->
  contentTypeMatch headers = Some ct -> text_type ct = true ->
  processPart rx J (headers ++ CRLFCRLF ++ body)
  = headers ++ CRLFCRLF ++ replaceAll rx body.
Proof.
  intros Hb Hf Hct Ht.
  destruct (split_at_first CRLFCRLF headers body ltac:(discriminate) Hf) as [E1 E2].
  unfold processPart. fold (blankb (headers ++ CRLFCRLF ++ body)).
  rewrite Hb, E1, E2, Hct.
  unfold text_type in Ht. apply andb_true_iff in Ht. destruct Ht as [H1 H2].
  apply negb_true_iff in H1. rewrite H1, H2. reflexivity.
Qed.

(** X20 at a concrete input: a text part with the search string in a header parameter and in the body. *)
Lemma text_part_body_rewritten_witness :
  processPart rx_original no_json
    ((CRLF ++ str "Content-Type: text/plain; name=original") ++ CRLFCRLF
     ++ (str "an original" ++ CRLF))
  = (CRLF ++ str "Content-Type: text/plain; name=original") ++ CRLFCRLF
    ++ replaceAll rx_original (str "an original" ++ CRLF).
Proof.
  apply (text_part_body_rewritten rx_original no_json _ _ (str "text/plain"));
    vm_compute; reflexivity.
Defined.

End PartFacts.

Module OrchestratorFacts.
Import Regex Multipart Orchestrator RegexFacts.
Local Open Scope nat_scope.

(** ** The escaping of the search string *)

Lemma find_matches T : forall i,
  match find_syntax T i with
  | None => syntax_matches T i = []
  | Some s =>
      exists k, s = i + k /\ k < List.length T
        /\ syntax_matches T i
           = (s, Datatypes.S s) :: syntax_matches (drop (Datatypes.S k) T) (Datatypes.S s)
  end.
Proof.
  induction T as [| c T IH]; intros i; cbn [find_syntax syntax_matches].
  - reflexivity.
  - destruct (syntax_char c).
    + exists 0. split; [lia |]. split; [cbn [List.length]; lia |].
      rewrite skipn_cons, drop_0. reflexivity.
    + specialize (IH (Datatypes.S i)).
      destruct (find_syntax T (Datatypes.S i)) as [s |]; [| exact IH].
      destruct IH as (k & -> & Hk & E). exists (Datatypes.S k).
      split; [lia |]. split; [cbn [List.length]; lia |].
      rewrite skipn_cons.
      replace (Datatypes.S (i + Datatypes.S k)) with (Datatypes.S (Datatypes.S i + k)) by lia.
      replace (i + Datatypes.S k) with (Datatypes.S i + k) by lia.
      exact E.
Qed.

Lemma collect_escaper S : forall fuel li acc,
  li <= List.length S -> List.length S - li < fuel ->
  collect escaper S fuel li acc = (acc ++ syntax_matches (drop li S) li, 0).
Proof.
  induction fuel as [| fuel IH]; intros li acc Hli Hf; [lia |].
  cbn [collect].
  replace (List.length S <? li) with false by (symmetry; apply Nat.ltb_ge; lia).
  cbn [exec_at escaper].
  pose proof (find_matches (drop li S) li) as Hm.
  destruct (find_syntax (drop li S) li) as [s |].
  - destruct Hm as (k & -> & Hk & E). rewrite length_drop in Hk.
    replace (Datatypes.S (li + k) =? li + k) with false
      by (symmetry; apply Nat.eqb_neq; lia).
    rewrite IH by lia. rewrite E, drop_drop, <- app_assoc.
    replace (li + Datatypes.S k) with (Datatypes.S (li + k)) by lia.
    reflexivity.
  - rewrite Hm, app_nil_r. reflexivity.
Qed.

Lemma assemble_escaper T : forall pre acc np,
  np <= List.length pre ->
  assemble escaper (pre ++ T) (syntax_matches T (List.length pre)) acc np
  = acc ++ drop np pre ++ flat_map escaped T.
Proof.
  induction T as [| c T IH]; intros pre acc np Hnp;
    cbn [syntax_matches flat_map assemble].
  - rewrite !app_nil_r.
    destruct (Nat.leb_spec (List.length pre) np) as [H | H].
    + rewrite drop_ge by lia. rewrite app_nil_r. reflexivity.
    + reflexivity.
  - assert (HS : pre ++ c :: T = (pre ++ [c]) ++ T)
      by (rewrite <- app_assoc; reflexivity).
    assert (HL : List.length (pre ++ [c]) = Datatypes.S (List.length pre))
      by (rewrite length_app; cbn; lia).
    unfold escaped at 1. destruct (syntax_char c) eqn:Ec.
    + cbn [assemble].
      replace (Nat.min (List.length pre) (List.length (pre ++ c :: T)))
        with (List.length pre) by (rewrite length_app; lia).
      replace (np <=? List.length pre) with true
        by (symmetry; apply Nat.leb_le; lia).
      cbn [substitution escaper].
      replace (Datatypes.S (List.length pre) - List.length pre) with 1 by lia.
      rewrite drop_app_length. cbn [take].
      rewrite drop_app_le by lia. rewrite take_app_length'
        by (rewrite length_drop; lia).
      rewrite take_0.
      replace (List.length pre + 1) with (List.length (pre ++ [c])) by lia.
      rewrite HS, <- HL.
      rewrite IH by lia. rewrite drop_all. cbn [app].
      rewrite <- !app_assoc. reflexivity.
    + rewrite HS, <- HL. rewrite IH by lia.
      rewrite drop_app_le by lia. rewrite <- !app_assoc. reflexivity.
Qed.

Lemma escapeSearch_flat_map search :
  escapeSearch search = flat_map escaped search.
Proof.
  unfold escapeSearch, replaceAll, String_replace.
  rewrite collect_escaper by lia. rewrite drop_0. cbn [app fst].
  apply (assemble_escaper search [] [] 0). cbn. lia.
Qed.

Lemma read_literal_escaped search :
  read_literal (flat_map escaped search) = Some search.
Proof.
  induction search as [| c search IH]; [reflexivity |].
  cbn [flat_map]. unfold escaped at 1. destruct (syntax_char c) eqn:Ec.
  - cbn [app read_literal]. rewrite Ec, IH. reflexivity.
  - cbn [app read_literal].
    destruct (Z.eqb_spec c 0x5c) as [-> | Hc]; [discriminate Ec |].
    rewrite Ec, IH. reflexivity.
Qed.

(** X21: The source built from a search string spells the search string: the
    call that escapes it puts a backslash in front of every syntax character
    and changes nothing else, so the source consists of pattern characters
    and escaped syntax characters only, and reads back as the search string,
    character for character. *)
Theorem search_string_escaped (search : jsstring) :
  escapeSearch search = flat_map escaped search
  /\ read_literal (escapeSearch search) = Some search.
Proof.
  split; [apply escapeSearch_flat_map |].
  rewrite escapeSearch_flat_map. apply read_literal_escaped.
Qed.

(** ** The route *)

Lemma lower_is_lower_case (c : Z) : lower_case (lower c).
Proof.
  unfold lower_case, lower.
  destruct (Z.leb_spec 0x41 c), (Z.leb_spec c 0x5a); cbn [andb]; lia.
Qed.

Lemma take_while_forall (f : Z -> bool) (S : jsstring) :
  Forall (fun c => f c = true /\ In c S) (take_while f S).
Proof.
  induction S as [| c S IH]; cbn [take_while]; [constructor |].
  destruct (f c) eqn:E; [| constructor].
  constructor; [split; [exact E | left; reflexivity] |].
  eapply Forall_impl; [exact IH |]. cbn. intros x [H1 H2]. auto.
Qed.

Lemma In_drop (x : Z) n : forall S : jsstring, In x (drop n S) -> In x S.
Proof.
  induction n as [| n IH]; intros S H; [rewrite drop_0 in H; exact H |].
  destruct S as [| c S]; [rewrite drop_nil in H; exact H |].
  rewrite skipn_cons in H. right. apply IH. exact H.
Qed.

Lemma boundaryMatch_some ct : forall b,
  boundaryMatch ct = Some b ->
  b <> [] /\ Forall (fun c => c <> 0x3b%Z /\ In c ct) b.
Proof.
  induction ct as [| c0 ct IH]; intros b H.
  - cbn in H. discriminate.
  - cbn [boundaryMatch] in H.
    destruct (starts_with_ci (str "boundary=") (c0 :: ct)).
    + pose proof (take_while_forall (fun c => negb (c =? 0x3b)%Z)
                    (drop 9 (c0 :: ct))) as Ht.
      destruct (take_while _ (drop 9 (c0 :: ct))) as [| x v] eqn:Ev.
      * destruct (IH b H) as [H1 H2]. split; [exact H1 |].
        eapply Forall_impl; [exact H2 |]. cbn. intros y [? ?]. auto.
      * inversion H; subst. split; [discriminate |].
        eapply Forall_impl; [exact Ht |]. cbn. intros y [Hy1 Hy2]. split.
        -- apply negb_true_iff in Hy1. apply Z.eqb_neq in Hy1. exact Hy1.
        -- right. apply (In_drop _ _ _ Hy2).
    + destruct (IH b H) as [H1 H2]. split; [exact H1 |].
      eapply Forall_impl; [exact H2 |]. cbn. intros y [? ?]. auto.
Qed.

(** X22: The boundary the multipart branch splits on is never what the header
    says when that has an upper-case letter: the branch is taken only with
    a body and a non-empty boundary, and the boundary, cut from the
    lower-cased content type, holds no upper-case ASCII letter and no
    semicolon. *)
Theorem multipart_boundary_is_lower_case (contentTypeHeader : option jsstring)
    (isChunked hadTransferEncoding hasBody : bool) (boundary : jsstring) :
  route contentTypeHeader isChunked hadTransferEncoding hasBody
    = MultipartBuffered boundary ->
  hasBody = true /\ boundary <> []
  /\ Forall (fun c => lower_case c /\ c <> 0x3b%Z) boundary.
Proof.
  unfold route.
  set (ct := toLowerCase (match contentTypeHeader with Some v => v | None => [] end)).
  destruct (negb (isJson ct) && negb (isMultipart ct) && negb (isTextLike ct));
    [discriminate |].
  destruct hasBody; cbn [negb]; [| discriminate].
  destruct (isMultipart ct) eqn:Em; cbn [andb].
  - destruct (boundary_of ct) as [| x b] eqn:Eb.
    + destruct (isJson ct); [| discriminate].
      destruct (negb isChunked && negb hadTransferEncoding); discriminate.
    + intros H. inversion H; subst. split; [reflexivity |].
      split; [discriminate |].
      unfold boundary_of in Eb. rewrite Em in Eb.
      destruct (boundaryMatch ct) as [b' |] eqn:Ebm; [| discriminate].
      subst b'. destruct (boundaryMatch_some ct _ Ebm) as [_ Hf].
      eapply Forall_impl; [exact Hf |]. cbn. intros c [Hc1 Hc2].
      split; [| exact Hc1].
      unfold ct, toLowerCase in Hc2. apply in_map_iff in Hc2.
      destruct Hc2 as (c' & <- & _). apply lower_is_lower_case.
  - destruct (isJson ct); [| discriminate].
    destruct (negb isChunked && negb hadTransferEncoding); discriminate.
Qed.

(** X22 at a concrete input: the boundary AaB03x. *)
Lemma multipart_boundary_is_lower_case_witness :
  true = true /\ toLowerCase (str "AaB03x") <> []
  /\ Forall (fun c => lower_case c /\ c <> 0x3b%Z) (toLowerCase (str "AaB03x")).
Proof.
  apply (multipart_boundary_is_lower_case
           (Some (str "multipart/form-data; boundary=AaB03x")) false false true).
  vm_compute. reflexivity.
Defined.

Lemma multipart_not_json ct : isMultipart ct = true -> isJson ct = false.
Proof.
  unfold isMultipart, isJson. destruct ct as [| c ct]; [discriminate |].
  cbn [starts_with str]. intros H. apply andb_true_iff in H.
  destruct H as [H _]. apply Z.eqb_eq in H. subst c. reflexivity.
Qed.

(** X23: A multipart response without a usable boundary goes through the text
    stream: when the lower-cased content type starts with [multipart/] and
    has no [boundary=] followed by a character other than a semicolon, a
    response with a body is rewritten as one text, part headers and binary
    parts included. *)
Theorem multipart_without_boundary_is_text (v : jsstring)
    (isChunked hadTransferEncoding : bool) :
  isMultipart (toLowerCase v) = true ->
  boundaryMatch (toLowerCase v) = None ->
  route (Some v) isChunked hadTransferEncoding true = TextStreamed.
Proof.
  intros Hm Hb. unfold route, boundary_of.
  rewrite Hm, Hb, (multipart_not_json _ Hm). reflexivity.
Qed.

(** X23 at a concrete input: a boundary parameter with an empty value. *)
Lemma multipart_without_boundary_is_text_witness :
  route (Some (str "Multipart/Mixed; boundary=;")) false false true = TextStreamed.
Proof.
  apply multipart_without_boundary_is_text; vm_compute; reflexivity.
Defined.

(** ** The accumulation *)

Lemma total_length (chunks : list (list Z)) : forall n,
  fold_left (fun acc chunk => acc + List.length chunk) chunks n
  = n + List.length (concat chunks).
Proof.
  induction chunks as [| c chunks IH]; intros n; cbn [fold_left concat].
  - cbn. lia.
  - rewrite IH, length_app. lia.
Qed.

Lemma set_all_spec (chunks : list (list Z)) : forall finalBytes offset,
  offset + List.length (concat chunks) <= List.length finalBytes ->
  set_all finalBytes chunks offset
  = take offset finalBytes ++ concat chunks
    ++ drop (offset + List.length (concat chunks)) finalBytes.
Proof.
  induction chunks as [| c chunks IH]; intros buf offset H;
    cbn [set_all concat] in *.
  - cbn [List.length app]. rewrite Nat.add_0_r, take_drop. reflexivity.
  - rewrite length_app in H. unfold set_at.
    rewrite IH.
    + rewrite take_app_ge by (rewrite length_take; lia).
      rewrite length_take, Nat.min_l by lia.
      replace (offset + List.length c - offset) with (List.length c) by lia.
      rewrite take_app_length.
      rewrite drop_app_ge by (rewrite length_take; lia).
      rewrite length_take, Nat.min_l by lia.
      rewrite drop_app_ge by lia. rewrite drop_drop, length_app.
      rewrite <- !app_assoc. do 3 f_equal. f_equal. lia.
    + rewrite !length_app, length_take, length_drop. lia.
Qed.

(** X24: The accumulated body is the concatenation of the chunks: the loop that
    copies every chunk of the transformed stream at its offset fills the
    array of the total length exactly, in order, and the content length set
    from it is the number of bytes of the stream. *)
Theorem accumulated_bytes_are_the_stream (chunks : list (list Z)) :
  accumulate chunks = concat chunks
  /\ List.length (accumulate chunks)
     = fold_left (fun acc chunk => acc + List.length chunk) chunks 0.
Proof.
  assert (E : accumulate chunks = concat chunks).
  { unfold accumulate. rewrite total_length. cbn [plus].
    rewrite set_all_spec by (rewrite repeat_length; lia).
    rewrite take_0. cbn [plus app].
    rewrite drop_ge by (rewrite repeat_length; lia). apply app_nil_r. }
  split; [exact E |]. rewrite E, total_length. reflexivity.
Qed.

End OrchestratorFacts.
